(** * Video-to-Sprite-Sheet: frame sampling, chroma key and sheet packing

    A shallow embedding of the algorithmic core of [src/App.tsx]
    ([hexToRgb], [extractFrames], [processFrame], [generateSpriteSheet])
    together with the properties stated for it in the specification.

    Around that core the development embeds the handlers of the editor:
    the colour picker ([handleCanvasClick]), the frame list
    ([handleDragStart], [handleDrop], [removeFrame], the tile click and
    the two selection buttons), the trim sliders and the layout fields,
    and it states what they keep and what they hand on to extraction,
    to the chroma key and to the generation of the sheet.

    JavaScript's [number] is IEEE-754 binary64.  It is modelled by the
    Standard Library's [spec_float] at precision 53 and maximal exponent
    1024, whose operations are plain Gallina functions: every arithmetic
    step of the source is therefore computed with the rounding the
    JavaScript engine performs.

    The page is modelled as far as the code depends on it.  A canvas
    gives back the pixels written to it as its premultiplied store keeps
    them ([stored]).  The video element is an oracle that tells, for a
    time, whether the seek completes, throws or never reports
    ([Seek]), so that [extractFrames] has its four outcomes: the two
    guards, the frames set after the loop or after the [catch] block,
    and the [await] that never resumes. *)

From Stdlib Require Import ZArith QArith Qpower Qround Lia Lqa Bool Ascii String.
From Stdlib Require Import Floats.SpecFloat.
From stdpp Require Import base list.

Local Open Scope Z_scope.

(** ** JavaScript numbers *)

Module JS.

Definition prec : Z := 53.
Definition emax : Z := 1024.

Definition number : Type := spec_float.

Definition NaN : number := S754_nan.
Definition Infinity : number := S754_infinity false.
Definition pzero : number := S754_zero false.

(** An integer literal, or an integer-valued quantity such as an array
    length or a loop counter, as a number. *)
Definition ofZ (z : Z) : number := binary_normalize prec emax z 0 false.
Definition ofNat (n : nat) : number := ofZ (Z.of_nat n).

Definition add : number -> number -> number := SFadd prec emax.
Definition sub : number -> number -> number := SFsub prec emax.
Definition mul : number -> number -> number := SFmul prec emax.
Definition div : number -> number -> number := SFdiv prec emax.
Definition sqrt : number -> number := SFsqrt prec emax.
Definition ltb : number -> number -> bool := SFltb.
Definition leb : number -> number -> bool := SFleb.
Definition eqb : number -> number -> bool := SFeqb.

(** A decimal literal [n / 10^k] with few digits, such as [0.25] or
    [0.1], denotes the double nearest to the quotient, which is what a
    correctly rounded division of the two integers returns. *)
Definition decimal (n : Z) (k : nat) : number :=
  div (ofZ n) (ofZ (10 ^ Z.of_nat k)).

(** The signed integer mantissa of a finite number. *)
Definition smant (s : bool) (m : positive) : Z := cond_Zopp s (Zpos m).

(** [Math.floor]: the greatest integer below the argument; infinities,
    NaN, zeros and integers are returned as they are. *)
Definition floor (x : number) : number :=
  match x with
  | S754_finite s m e =>
      if 0 <=? e then x
      else binary_normalize prec emax (Z.shiftr (smant s m) (- e)) 0 s
  | _ => x
  end.

(** [Math.ceil]. *)
Definition ceil (x : number) : number :=
  match x with
  | S754_finite s m e =>
      if 0 <=? e then x
      else binary_normalize prec emax (- Z.shiftr (- smant s m) (- e)) 0 s
  | _ => x
  end.

(** [Math.round]: the nearest integer, ties towards +Infinity. *)
Definition round (x : number) : number :=
  match x with
  | S754_finite s m e =>
      if 0 <=? e then x
      else binary_normalize prec emax
             (Z.shiftr (2 * smant s m + 2 ^ (- e)) (- e + 1)) 0 s
  | _ => x
  end.

(** [Math.max] and [Math.min] of two arguments. *)
Definition max (x y : number) : number :=
  match x, y with
  | S754_nan, _ | _, S754_nan => S754_nan
  | S754_zero sx, S754_zero sy => S754_zero (sx && sy)
  | _, _ => if ltb x y then y else x
  end.

Definition min (x y : number) : number :=
  match x, y with
  | S754_nan, _ | _, S754_nan => S754_nan
  | S754_zero sx, S754_zero sy => S754_zero (sx || sy)
  | _, _ => if ltb y x then y else x
  end.

(** The remainder operator [%]: the result has the sign of the dividend
    and is computed without rounding. *)
Definition rem (x y : number) : number :=
  match x, y with
  | S754_nan, _ | _, S754_nan => S754_nan
  | S754_infinity _, _ => S754_nan
  | _, S754_zero _ => S754_nan
  | _, S754_infinity _ => x
  | S754_zero _, _ => x
  | S754_finite sx mx ex, S754_finite _ my ey =>
      let e := Z.min ex ey in
      let X := Z.shiftl (Zpos mx) (ex - e) in
      let Y := Z.shiftl (Zpos my) (ey - e) in
      binary_normalize prec emax (cond_Zopp sx (X mod Y)) e sx
  end.

(** The integer part of a finite number, rounded half to even. *)
Definition nearestEvenZ (s : bool) (m : positive) (e : Z) : Z :=
  if 0 <=? e then Z.shiftl (smant s m) e
  else
    let k := - e in
    let q := Z.shiftr (smant s m) k in
    let r := smant s m - Z.shiftl q k in
    match 2 * r ?= 2 ^ k with
    | Lt => q
    | Gt => q + 1
    | Eq => if Z.even q then q else q + 1
    end.

(** Storing a number into a [Uint8ClampedArray]: NaN becomes 0, the
    value is clamped to [0, 255] and rounded half to even. *)
Definition toUint8Clamp (x : number) : Z :=
  match x with
  | S754_nan => 0
  | S754_zero _ => 0
  | S754_infinity s => if s then 0 else 255
  | S754_finite s m e => Z.max 0 (Z.min 255 (nearestEvenZ s m e))
  end.

End JS.

Declare Scope js_scope.
Delimit Scope js_scope with js.
Bind Scope js_scope with JS.number.
Infix "+" := JS.add : js_scope.
Infix "-" := JS.sub : js_scope.
Infix "*" := JS.mul : js_scope.
Infix "/" := JS.div : js_scope.
Infix "<?" := JS.ltb : js_scope.
Infix "<=?" := JS.leb : js_scope.

(** ** Utility functions: [hexToRgb] *)

(** A JavaScript string is a sequence of UTF-16 code units.  It is
    modelled by a [string] of bytes: the character class of the regular
    expression below only contains ASCII characters, so no code unit or
    byte outside ASCII can ever take part in a match. *)

Definition inRange (lo hi n : nat) : bool := (lo <=? n)%nat && (n <=? hi)%nat.

(** The class [[a-f\d]] under the [i] flag. *)
Definition isHexDigit (c : ascii) : bool :=
  let n := nat_of_ascii c in
  inRange 48 57 n || inRange 97 102 n || inRange 65 70 n.

(** The value [parseInt] gives to one hexadecimal digit. *)
Definition hexDigitValue (c : ascii) : Z :=
  let n := Z.of_nat (nat_of_ascii c) in
  if inRange 48 57 (nat_of_ascii c) then n - 48
  else if inRange 97 102 (nat_of_ascii c) then n - 87
  else n - 55.

(** [parseInt(s, 16)] for a two-digit capture group. *)
Definition parseHexPair (p : ascii * ascii) : Z :=
  16 * hexDigitValue (fst p) + hexDigitValue (snd p).

(** The part [([a-f\d]{2})([a-f\d]{2})([a-f\d]{2})$] of the pattern:
    exactly six hexadecimal digits up to the end of the input, captured in
    three groups. *)
Definition matchSixHex (s : string)
  : option ((ascii * ascii) * (ascii * ascii) * (ascii * ascii)) :=
  match s with
  | String a (String b (String c (String d (String e (String f EmptyString))))) =>
      if isHexDigit a && isHexDigit b && isHexDigit c
         && isHexDigit d && isHexDigit e && isHexDigit f
      then Some ((a, b), (c, d), (e, f))
      else None
  | _ => None
  end.

(** [/^#?([a-f\d]{2})([a-f\d]{2})([a-f\d]{2})$/i.exec(hex)]: the greedy
    [#?] first consumes a leading [#]; when the rest then fails to match,
    the engine backtracks and tries again without consuming it. *)
Definition hexRegexExec (hex : string)
  : option ((ascii * ascii) * (ascii * ascii) * (ascii * ascii)) :=
  match hex with
  | String "#"%char rest =>
      match matchSixHex rest with
      | Some groups => Some groups
      | None => matchSixHex hex
      end
  | _ => matchSixHex hex
  end.

Definition hexToRgb (hex : string) : Z * Z * Z :=
  match hexRegexExec hex with
  | Some (g1, g2, g3) => (parseHexPair g1, parseHexPair g2, parseHexPair g3)
  | None => (0, 255, 0)
  end.

(** ** Data model ([src/types.ts]) *)

(** A decoded raster image: dimensions and row-major RGBA bytes. *)
Record Image := {
  img_width : Z;
  img_height : Z;
  img_data : list Z
}.

(** [canvas.toDataURL('image/png')] encodes the canvas without loss and
    [loadImg] decodes it again, so a data URL is identified with the image
    it encodes. *)
Definition DataUrl : Type := Image.

Record Frame := {
  id : string;
  timestamp : JS.number;
  originalDataUrl : DataUrl;
  selected : bool
}.

Record ChromaSettings := {
  enabled : bool;
  color : string;
  similarity : JS.number;
  smoothness : JS.number;
  spill : JS.number
}.

Inductive OutputMode := ModeScale | ModeFixed.

Record SheetSettings := {
  columns : JS.number;
  scale : JS.number;
  padding : JS.number;
  outputMode : OutputMode;
  customWidth : JS.number;
  customHeight : JS.number
}.

(** What the user is told: the [alert] and [console.error] calls. *)
Inductive Message :=
  | MsgFrameCapReached
  | MsgExtractionError
  | MsgNoFramesOrCanvas
  | MsgNoFrameSelected
  | MsgGenerationFailed.

Inductive Event :=
  | Alert (m : Message)
  | ConsoleError (m : Message).

(** ** Frame extraction ([extractFrames]) *)

(** Zeros and finite numbers: the values [vid.currentTime] accepts.
    Assigning NaN or an infinity to it throws a [TypeError]. *)
Definition isFinite (x : spec_float) : bool :=
  match x with
  | S754_finite _ _ _ | S754_zero _ => true
  | _ => false
  end.

(** What the page gives [extractFrames]: the video element, the capture
    canvas and the 2D context of that canvas. *)
Record CaptureEnv := {
  videoMounted : bool;
  captureCanvasMounted : bool;
  captureContext : bool
}.

(** What becomes of a turn of the loop once [vid.currentTime] has been
    assigned: the [seeked] event arrives and the frame is drawn and
    encoded; something in the turn throws; or the event never arrives,
    as for a video without metadata, and the [await] never resumes. *)
Inductive Seek := Seeked | SeekThrows | SeekPending.

Section Extraction.

(** The video element: what a seek to a time comes to. *)
Variable seek : JS.number -> Seek.
(** The frame source: what the canvas holds after seeking the video to
    a time and drawing it. *)
Variable capture : JS.number -> Image.
(** The identifiers handed out by successive [crypto.randomUUID()]
    calls. *)
Variable randomUUID : nat -> string.

Record ExtractState := {
  extracted : list Frame;
  cursor : JS.number;
  progress : JS.number;
  capAlert : bool
}.

(** One evaluation of [while (cursor <= endTime)] and of the body. *)
Inductive Turn :=
  | NoTurn                                     (* the condition is false *)
  | Pushed (st : ExtractState) (stop : bool)   (* a frame was pushed; [stop]
                                                  tells that the turn ended
                                                  in [break] *)
  | Threw                                      (* the turn threw *)
  | Stuck.                                     (* the turn awaits [seeked]
                                                  for ever *)

Definition extractStep (startTime endTime interval totalDuration : JS.number)
    (st : ExtractState) : Turn :=
  if (cursor st <=? endTime)%js then
    if negb (isFinite (cursor st)) then Threw
    else
      match seek (cursor st) with
      | SeekThrows => Threw
      | SeekPending => Stuck
      | Seeked =>
          let frame := {| id := randomUUID (length (extracted st));
                          timestamp := cursor st;
                          originalDataUrl := capture (cursor st);
                          selected := true |} in
          let extracted' := extracted st ++ [frame] in
          let percent :=
            JS.min (JS.ofZ 100)
              (JS.round (((cursor st - startTime) / totalDuration)
                         * JS.ofZ 100))%js in
          let cursor' := (cursor st + interval)%js in
          let full := (200 <? length extracted')%nat in
          Pushed {| extracted := extracted'; cursor := cursor';
                    progress := percent; capAlert := full |} full
      end
  else NoTurn.

(** How the [try] block is left: by the loop's condition or its
    [break]; by an exception, which the [catch] block reports; or not at
    all. *)
Inductive Exit := LoopEnded | Caught | Suspended.

Fixpoint extractLoop (fuel : nat)
    (startTime endTime interval totalDuration : JS.number)
    (st : ExtractState) : option (ExtractState * Exit) :=
  match fuel with
  | O => None
  | S fuel' =>
      match extractStep startTime endTime interval totalDuration st with
      | NoTurn => Some (st, LoopEnded)
      | Pushed st' true => Some (st', LoopEnded)
      | Pushed st' false =>
          extractLoop fuel' startTime endTime interval totalDuration st'
      | Threw => Some (st, Caught)
      | Stuck => Some (st, Suspended)
      end
  end.

(** What the statements after the [try] block do: [setFrames(extracted)],
    [setPreviewFrameIndex(0)], [setProgress(100)], and the final
    [vid.currentTime = startTime], which throws outside the [try] when
    [startTime] is not finite: the promise of [extractFrames] is then
    rejected, after the state has been set. *)
Record Extraction := {
  ex_frames : list Frame;
  ex_events : list Event;
  ex_progress : JS.number;
  ex_rejected : bool
}.

(** The ways a call of [extractFrames] goes. *)
Inductive Outcome :=
  | NotStarted    (* the video or the canvas is not mounted: the first
                     guard returns and nothing is touched *)
  | NoContext     (* the canvas gives no context: the second guard
                     returns after [setIsExtracting(true)] and
                     [setFrames([])], which are never undone *)
  | Extracted (r : Extraction)
                  (* the [try] block was left and the frames were set *)
  | Awaiting.     (* a [seeked] event never arrived: the frames stay
                     emptied and [isExtracting] set *)

(** [extractFrames].  Every turn of the loop that does not leave it
    adds a frame, and the loop is left once more than 200 have been
    added: 201 turns of fuel are never used up ([extractFrames_returns]
    below). *)
Definition extractFrames (env : CaptureEnv) (startTime endTime fps : JS.number)
  : option Outcome :=
  if negb (videoMounted env) || negb (captureCanvasMounted env)
  then Some NotStarted
  else if negb (captureContext env) then Some NoContext
  else
    let interval := (JS.ofZ 1 / fps)%js in
    let totalDuration := JS.max (JS.decimal 1 1) (endTime - startTime)%js in
    match extractLoop 201 startTime endTime interval totalDuration
            {| extracted := []; cursor := startTime;
               progress := JS.ofZ 0; capAlert := false |} with
    | None => None
    | Some (st, Suspended) => Some Awaiting
    | Some (st, exit) =>
        Some (Extracted
                {| ex_frames := extracted st;
                   ex_events :=
                     (if capAlert st then [Alert MsgFrameCapReached] else [])
                     ++ match exit with
                        | Caught => [ConsoleError MsgExtractionError]
                        | _ => []
                        end;
                   ex_progress := JS.ofZ 100;
                   ex_rejected := negb (isFinite startTime) |})
    end.

End Extraction.

(** ** The pixels of a canvas *)

(** A 2D canvas keeps its pixels premultiplied: a colour channel is
    stored as the channel times alpha over 255, in eight bits, and
    [getImageData] divides it by alpha again.  Both steps are taken to
    round to the nearest integer, as the browsers' stores do.  A colour
    channel of a pixel that is not opaque can therefore come back
    changed, and nothing is left of the colour of a fully transparent
    pixel.  The content of a canvas is identified with what
    [getImageData] reads from it, which is also what [toDataURL]
    encodes and what [drawImage] takes from a canvas. *)

(** [n / d] rounded to the nearest integer. *)
Definition divNearest (n d : Z) : Z := (2 * n + d) / (2 * d).

Definition premultiply (c a : Z) : Z := divNearest (c * a) 255.
Definition unpremultiply (p a : Z) : Z := divNearest (p * 255) a.

(** What is read back of a colour channel [c] written with alpha [a].
    Alpha is a byte; the two outer cases complete the definition for
    the other integers. *)
Definition storedChannel (c a : Z) : Z :=
  if a <=? 0 then 0
  else if 255 <=? a then c
  else unpremultiply (premultiply c a) a.

(** What is read back of RGBA bytes written to a canvas, pixel by
    pixel; the alpha byte is kept as it is. *)
Fixpoint stored (data : list Z) : list Z :=
  match data with
  | r :: g :: b :: a :: rest =>
      storedChannel r a :: storedChannel g a :: storedChannel b a :: a
      :: stored rest
  | _ => data
  end.

(** Every pixel is opaque. *)
Fixpoint opaque (data : list Z) : bool :=
  match data with
  | _ :: _ :: _ :: a :: rest => (a =? 255) && opaque rest
  | _ => true
  end.

(** ** Chroma key ([processFrame]) *)

Section ChromaKey.

(** The pixels [ctx.drawImage(img, 0, 0, width, height)] draws into the
    [width] x [height] rectangle when the image has to be resized; the
    resampling filter is the browser's. *)
Variable resample : Image -> Z -> Z -> list Z.

(** [ctx.clearRect] followed by [ctx.drawImage(img, 0, 0, width, height)]
    and [ctx.getImageData(0, 0, width, height).data]: the pixels of the
    image, which are its own at its own size, as the canvas gives them
    back. *)
Definition drawImage (img : Image) (width height : Z) : list Z :=
  stored (if (width =? img_width img) && (height =? img_height img)
          then img_data img
          else resample img width height).

(** Reading [data[i]] as a number: an index past the end gives
    [undefined], which arithmetic turns into NaN. *)
Definition readByte (data : list Z) (i : nat) : JS.number :=
  match data !! i with
  | Some v => JS.ofZ v
  | None => JS.NaN
  end.

Definition colourDistance (key : Z * Z * Z) (r g b : JS.number) : JS.number :=
  let '(keyR, keyG, keyB) := key in
  let dr := (r - JS.ofZ keyR)%js in
  let dg := (g - JS.ofZ keyG)%js in
  let db := (b - JS.ofZ keyB)%js in
  JS.sqrt (dr * dr + dg * dg + db * db)%js.

(** The value stored by [data[i + 3] = Math.floor(alpha * 255)]. *)
Definition smoothAlpha (dist similarityThreshold smoothRange : JS.number) : Z :=
  let alpha := ((dist - similarityThreshold) / smoothRange)%js in
  JS.toUint8Clamp (JS.floor (alpha * JS.ofZ 255)%js).

(** The body of [for (let i = 0; i < data.length; i += 4)].  A write
    past the end of a typed array is ignored, as is [<[_:=_]>] on a
    list. *)
Definition chromaStep (key : Z * Z * Z)
    (similarityThreshold smoothRange : JS.number)
    (data : list Z) (i : nat) : list Z :=
  let r := readByte data i in
  let g := readByte data (i + 1) in
  let b := readByte data (i + 2) in
  let dist := colourDistance key r g b in
  if (dist <? similarityThreshold)%js then
    <[(i + 3)%nat := 0]> data
  else if (dist <? similarityThreshold + smoothRange)%js then
    <[(i + 3)%nat := smoothAlpha dist similarityThreshold smoothRange]> data
  else data.

Fixpoint chromaLoop (fuel : nat) (key : Z * Z * Z)
    (similarityThreshold smoothRange : JS.number)
    (i : nat) (data : list Z) : list Z :=
  match fuel with
  | O => data
  | S fuel' =>
      if (i <? length data)%nat then
        chromaLoop fuel' key similarityThreshold smoothRange (i + 4)
          (chromaStep key similarityThreshold smoothRange data i)
      else data
  end.

(** The [imageData.data] that [processFrame] hands to
    [ctx.putImageData] when the chroma key is enabled.  The loop makes
    one turn for every four bytes, so [length data] turns of fuel are
    more than it uses. *)
Definition keyedData (img : Image) (settings : ChromaSettings)
    (width height : Z) : list Z :=
  let data := drawImage img width height in
  let key := hexToRgb (color settings) in
  let similarityThreshold := (similarity settings * JS.ofZ 442)%js in
  let smoothRange := (smoothness settings * JS.ofZ 100)%js in
  chromaLoop (length data) key similarityThreshold smoothRange 0 data.

(** [processFrame(ctx, img, settings, width, height)]: the pixels the
    context holds afterwards.  With the chroma key disabled these are
    the drawn pixels; otherwise they are what the canvas keeps of the
    data written back by [ctx.putImageData]. *)
Definition processFrame (img : Image) (settings : ChromaSettings)
    (width height : Z) : list Z :=
  if negb (enabled settings) then drawImage img width height
  else stored (keyedData img settings width height).

(** The chroma key applied to an image at its own size: the canvas is
    given the image's dimensions and then holds the processed pixels,
    which [toDataURL] encodes. *)
Definition applyChroma (settings : ChromaSettings) (img : Image) : Image :=
  {| img_width := img_width img;
     img_height := img_height img;
     img_data := processFrame img settings (img_width img) (img_height img) |}.

(** The preview effect: the preview canvas takes the size of the frame
    and shows it processed at that size. *)
Definition previewFrame (frame : Frame) (settings : ChromaSettings) : Image :=
  applyChroma settings (originalDataUrl frame).

(** ** Sprite sheet generation ([generateSpriteSheet]) *)

Record Layout := {
  targetW : JS.number;
  targetH : JS.number;
  cols : JS.number;
  rows : JS.number;
  canvasWidth : JS.number;
  canvasHeight : JS.number
}.

(** Target cell size and grid geometry, from the first selected frame's
    dimensions and the number of selected frames. *)
Definition computeLayout (settings : SheetSettings)
    (originalW originalH : Z) (count : nat) : Layout :=
  let tW := match outputMode settings with
            | ModeFixed => customWidth settings
            | ModeScale => JS.round (JS.ofZ originalW * scale settings)%js
            end in
  let tH := match outputMode settings with
            | ModeFixed => customHeight settings
            | ModeScale => JS.round (JS.ofZ originalH * scale settings)%js
            end in
  let cols := columns settings in
  let rows := JS.ceil (JS.ofNat count / cols)%js in
  {| targetW := tW; targetH := tH; cols := cols; rows := rows;
     canvasWidth := (cols * tW + (cols - JS.ofZ 1) * padding settings)%js;
     canvasHeight := (rows * tH + (rows - JS.ofZ 1) * padding settings)%js |}.

(** One [ctx.drawImage(offCanvas, 0, 0, originalW, originalH, x, y,
    targetW, targetH)] call.  [pl_pixels] is the source of the call: the
    content of the off-screen canvas, [pl_srcWidth] x [pl_srcHeight]
    pixels, at the time of the call.  The call scales it to
    [pl_width] x [pl_height] pixels and draws it at ([pl_x], [pl_y]). *)
Record Placement := {
  pl_col : JS.number;
  pl_row : JS.number;
  pl_x : JS.number;
  pl_y : JS.number;
  pl_width : JS.number;
  pl_height : JS.number;
  pl_srcWidth : Z;
  pl_srcHeight : Z;
  pl_pixels : list Z
}.

Definition placeFrame (chroma : ChromaSettings) (settings : SheetSettings)
    (lay : Layout) (originalW originalH : Z) (i : nat) (frame : Frame)
  : Placement :=
  let col := JS.rem (JS.ofNat i) (cols lay) in
  let row := JS.floor (JS.ofNat i / cols lay)%js in
  {| pl_col := col;
     pl_row := row;
     pl_x := (col * (targetW lay + padding settings))%js;
     pl_y := (row * (targetH lay + padding settings))%js;
     pl_width := targetW lay;
     pl_height := targetH lay;
     pl_srcWidth := originalW;
     pl_srcHeight := originalH;
     pl_pixels := processFrame (originalDataUrl frame) chroma originalW originalH |}.

(** [for (let i = 0; i < selectedFrames.length; i++)], from index [i]
    on. *)
Fixpoint packLoop (chroma : ChromaSettings) (settings : SheetSettings)
    (lay : Layout) (originalW originalH : Z) (i : nat)
    (selectedFrames : list Frame) : list Placement :=
  match selectedFrames with
  | [] => []
  | frame :: rest =>
      placeFrame chroma settings lay originalW originalH i frame
      :: packLoop chroma settings lay originalW originalH (S i) rest
  end.

(** The generated sheet: the canvas dimensions that were assigned and
    the calls that drew the cells, in drawing order. *)
Record Sheet := {
  sh_layout : Layout;
  sh_draws : list Placement
}.

Record AppState := {
  frames : list Frame;
  chromaSettings : ChromaSettings;
  sheetSettings : SheetSettings;
  generatedSheetUrl : option Sheet;
  showSheetPreview : bool;
  isGenerating : bool
}.

(** What is available in the page: the sheet canvas reference and the
    two 2D contexts. *)
Record Env := {
  sheetCanvasMounted : bool;
  sheetContext : bool;
  offscreenContext : bool
}.

Definition setGenerating (st : AppState) (url : option Sheet)
    (preview generating : bool) : AppState :=
  {| frames := frames st;
     chromaSettings := chromaSettings st;
     sheetSettings := sheetSettings st;
     generatedSheetUrl := url;
     showSheetPreview := preview;
     isGenerating := generating |}.

Definition generateSpriteSheet (env : Env) (st : AppState)
  : AppState * list Event :=
  if (length (frames st) =? 0)%nat || negb (sheetCanvasMounted env) then
    (st, [ConsoleError MsgNoFramesOrCanvas])
  else
    let selectedFrames := filter (fun f => selected f = true) (frames st) in
    match selectedFrames with
    | [] =>
        (setGenerating st None (showSheetPreview st) false,
         [Alert MsgNoFrameSelected])
    | first :: _ =>
        if negb (sheetContext env) then
          (setGenerating st None (showSheetPreview st) true, [])
        else
          let originalW := img_width (originalDataUrl first) in
          let originalH := img_height (originalDataUrl first) in
          let lay := computeLayout (sheetSettings st) originalW originalH
                       (length selectedFrames) in
          if negb (offscreenContext env) then
            (setGenerating st None (showSheetPreview st) false,
             [ConsoleError MsgGenerationFailed; Alert MsgGenerationFailed])
          else
            let draws := packLoop (chromaSettings st) (sheetSettings st) lay
                           originalW originalH 0 selectedFrames in
            (setGenerating st
               (Some {| sh_layout := lay; sh_draws := draws |}) true false,
             [])
    end.

End ChromaKey.

(** ** Picking the key colour ([handleCanvasClick]) *)

(** [ToInt32]: an integer wrapped to 32 bits, signed. *)
Definition toInt32 (z : Z) : Z := (z + 2 ^ 31) mod 2 ^ 32 - 2 ^ 31.

(** The operators [a << b] and [a | b] on integers. *)
Definition shl (a b : Z) : Z := toInt32 (Z.shiftl (toInt32 a) (Z.land b 31)).
Definition bitOr (a b : Z) : Z := toInt32 (Z.lor (toInt32 a) (toInt32 b)).

(** The digit [toString(16)] writes for a value below 16. *)
Definition hexChar (d : Z) : ascii :=
  match String.get (Z.to_nat d) "0123456789abcdef" with
  | Some c => c
  | None => "0"%char
  end.

(** The hexadecimal digits of a non-negative integer, most significant
    first, in front of [acc]; [fuel] more digits can follow the first. *)
Fixpoint hexDigits (fuel : nat) (z : Z) (acc : string) : string :=
  let acc' := String (hexChar (z mod 16)) acc in
  match fuel with
  | O => acc'
  | S fuel' => if z <? 16 then acc' else hexDigits fuel' (z / 16) acc'
  end.

(** [n.toString(16)] for a 32-bit integer [n]: at most eight digits
    after the sign. *)
Definition toString16 (z : Z) : string :=
  if z <? 0 then String "-" (hexDigits 7 (- z) "") else hexDigits 7 z "".

(** [s.slice(-n)]: the last [n] code units, or all of [s] when it is
    shorter. *)
Definition sliceLast (n : nat) (s : string) : string :=
  substring (String.length s - n) n s.

(** [p[i]] as an operand of a bit operator: [undefined] counts as 0. *)
Definition channelAt (p : list Z) (i : nat) : Z := default 0 (p !! i).

(** ["#" + ("000000" + ((p[0] << 16) | (p[1] << 8) | p[2]).toString(16)).slice(-6)] *)
Definition pickedHex (p : list Z) : string :=
  String "#"
    (sliceLast 6
       (String.append "000000"
          (toString16
             (bitOr (bitOr (shl (channelAt p 0) 16) (shl (channelAt p 1) 8))
                (channelAt p 2))))).


(** ** The state of the editor *)

(** The frame list with the index of the previewed frame and, during a
    drag, the index of the dragged frame ([null] otherwise). *)
Record UiState := {
  app : AppState;
  previewFrameIndex : Z;
  draggedIdx : option Z
}.

Definition setFrames (st : AppState) (fs : list Frame) : AppState :=
  {| frames := fs;
     chromaSettings := chromaSettings st;
     sheetSettings := sheetSettings st;
     generatedSheetUrl := generatedSheetUrl st;
     showSheetPreview := showSheetPreview st;
     isGenerating := isGenerating st |}.

Definition setChromaSettings (st : AppState) (s : ChromaSettings) : AppState :=
  {| frames := frames st;
     chromaSettings := s;
     sheetSettings := sheetSettings st;
     generatedSheetUrl := generatedSheetUrl st;
     showSheetPreview := showSheetPreview st;
     isGenerating := isGenerating st |}.

(** [frames[i]]: [undefined] outside the list. *)
Definition frameAt (fs : list Frame) (i : Z) : option Frame :=
  if i <? 0 then None else fs !! Z.to_nat i.

(** The click on the preview canvas: where it is, and the rectangle the
    canvas occupies on the page. *)
Record CanvasClick := {
  clientX : JS.number;
  clientY : JS.number;
  rectLeft : JS.number;
  rectTop : JS.number;
  rectWidth : JS.number;
  rectHeight : JS.number
}.

Section ColourPicker.

(** [tempCtx.getImageData(x, y, 1, 1).data] once the image has been
    drawn at the origin of a canvas of its own size. *)
Variable getImageData : Image -> JS.number -> JS.number -> list Z.

(** [handleCanvasClick]: [previewCanvas] holds the width and height of
    the preview canvas when it is mounted, [tempContext] tells whether the
    temporary canvas gave a 2D context. *)
Definition handleCanvasClick (previewCanvas : option (Z * Z))
    (tempContext : bool) (e : CanvasClick) (ui : UiState) : UiState :=
  match previewCanvas with
  | None => ui
  | Some (width, height) =>
      let scaleX := (JS.ofZ width / rectWidth e)%js in
      let scaleY := (JS.ofZ height / rectHeight e)%js in
      let x := ((clientX e - rectLeft e) * scaleX)%js in
      let y := ((clientY e - rectTop e) * scaleY)%js in
      match frameAt (frames (app ui)) (previewFrameIndex ui) with
      | None => ui
      | Some frame =>
          if tempContext then
            let p := getImageData (originalDataUrl frame) x y in
            let s := chromaSettings (app ui) in
            {| app := setChromaSettings (app ui)
                        {| enabled := enabled s;
                           color := pickedHex p;
                           similarity := similarity s;
                           smoothness := smoothness s;
                           spill := spill s |};
               previewFrameIndex := previewFrameIndex ui;
               draggedIdx := draggedIdx ui |}
          else ui
      end
  end.

End ColourPicker.

(** ** Editing the frame list *)

(** [Array.prototype.splice(start, deleteCount, ...items)]: the removed
    elements and the array afterwards.  A negative [start] counts from
    the end; [start] and [deleteCount] are clamped to the array. *)
Definition spliceStart (len : nat) (start : Z) : nat :=
  if start <? 0 then Z.to_nat (Z.max (Z.of_nat len + start) 0)
  else Nat.min (Z.to_nat start) len.

Definition splice {A : Type} (l : list A) (start : Z) (deleteCount : nat)
    (items : list A) : list A * list A :=
  let s := spliceStart (length l) start in
  let d := Nat.min deleteCount (length l - s) in
  (take d (drop s l), take s l ++ items ++ drop (s + d) l).

Definition handleDragStart (index : Z) (ui : UiState) : UiState :=
  {| app := app ui;
     previewFrameIndex := previewFrameIndex ui;
     draggedIdx := Some index |}.

(** [handleDrop].  When nothing is at the dragged index, [draggedItem]
    is [undefined] and is inserted as such: the frame list then holds a
    value that is not a frame, and the result is [None]. *)
Definition handleDrop (dropIndex : Z) (ui : UiState) : option UiState :=
  match draggedIdx ui with
  | None => Some ui
  | Some dragged =>
      let '(removed, newFrames) := splice (frames (app ui)) dragged 1 [] in
      match removed with
      | draggedItem :: _ =>
          let '(_, newFrames') := splice newFrames dropIndex 0 [draggedItem] in
          Some {| app := setFrames (app ui) newFrames';
                  previewFrameIndex :=
                    if previewFrameIndex ui =? dragged then dropIndex
                    else previewFrameIndex ui;
                  draggedIdx := None |}
      | [] => None
      end
  end.

Definition removeFrame (id0 : string) (ui : UiState) : UiState :=
  let fs := frames (app ui) in
  let len := Z.of_nat (length fs) in
  {| app := setFrames (app ui)
              (filter (fun f => negb (String.eqb (id f) id0) = true) fs);
     previewFrameIndex :=
       if len - 1 <=? previewFrameIndex ui then Z.max 0 (len - 2)
       else previewFrameIndex ui;
     draggedIdx := draggedIdx ui |}.

Definition setSelected (f : Frame) (b : bool) : Frame :=
  {| id := id f;
     timestamp := timestamp f;
     originalDataUrl := originalDataUrl f;
     selected := b |}.

(** The click on a frame tile: [newFrames[idx].selected =
    !newFrames[idx].selected]; reading [selected] of [undefined] throws,
    which is [None]. *)
Definition toggleSelected (idx : Z) (ui : UiState) : option UiState :=
  match frameAt (frames (app ui)) idx with
  | Some f =>
      Some {| app := setFrames (app ui)
                       (<[Z.to_nat idx := setSelected f (negb (selected f))]>
                          (frames (app ui)));
              previewFrameIndex := previewFrameIndex ui;
              draggedIdx := draggedIdx ui |}
  | None => None
  end.



(** ** The trim range *)

Record TrimRange := {
  trimStart : JS.number;
  trimEnd : JS.number
}.

(** The two sliders: a value is taken only when it keeps the start
    before the end. *)
Inductive TrimEvent :=
  | StartSlider (val : JS.number)
  | EndSlider (val : JS.number).

Definition trimStep (t : TrimRange) (ev : TrimEvent) : TrimRange :=
  match ev with
  | StartSlider val =>
      if (val <? trimEnd t)%js
      then {| trimStart := val; trimEnd := trimEnd t |} else t
  | EndSlider val =>
      if (trimStart t <? val)%js
      then {| trimStart := trimStart t; trimEnd := val |} else t
  end.

(** ** The layout fields *)

(** [parseInt(s)] without a radix, for a string of code units below
    256.  White space and line terminators in that range are the code
    units 9 to 13, 32 and 160. *)
Definition isStrWhiteSpace (c : ascii) : bool :=
  let n := nat_of_ascii c in
  inRange 9 13 n || (n =? 32)%nat || (n =? 160)%nat.

Fixpoint trimLeading (s : string) : string :=
  match s with
  | String c rest => if isStrWhiteSpace c then trimLeading rest else s
  | EmptyString => s
  end.

Definition isDecimalDigit (c : ascii) : bool := inRange 48 57 (nat_of_ascii c).

(** The value of the longest prefix of digits; [None] when it is
    empty. *)
Fixpoint parseDigits (radix : Z) (isDigit : ascii -> bool) (s : string)
    (acc : option Z) : option Z :=
  match s with
  | String c rest =>
      if isDigit c
      then parseDigits radix isDigit rest
             (Some (radix * default 0 acc + hexDigitValue c))
      else acc
  | EmptyString => acc
  end.

Definition parseInt (s : string) : JS.number :=
  let trimmed := trimLeading s in
  let '(negative, unsigned) :=
    match trimmed with
    | String "-"%char rest => (true, rest)
    | String "+"%char rest => (false, rest)
    | _ => (false, trimmed)
    end in
  let '(radix, isDigit, digits) :=
    match unsigned with
    | String "0"%char (String "x"%char rest) => (16, isHexDigit, rest)
    | String "0"%char (String "X"%char rest) => (16, isHexDigit, rest)
    | _ => (10, isDecimalDigit, unsigned)
    end in
  match parseDigits radix isDigit digits None with
  | None => JS.NaN
  | Some 0 => S754_zero negative
  | Some z => JS.ofZ (if negative then - z else z)
  end.

(** [x || 0] for a number: NaN and the zeros are falsy. *)
Definition orZero (x : JS.number) : JS.number :=
  match x with
  | S754_nan | S754_zero _ => JS.ofZ 0
  | _ => x
  end.

(** The [onChange] handlers of the column, padding, width and height
    fields. *)
Definition onColumnsChange (value : string) (s : SheetSettings)
  : SheetSettings :=
  {| columns := JS.max (JS.ofZ 1) (parseInt value);
     scale := scale s; padding := padding s; outputMode := outputMode s;
     customWidth := customWidth s; customHeight := customHeight s |}.

Definition onPaddingChange (value : string) (s : SheetSettings)
  : SheetSettings :=
  {| columns := columns s; scale := scale s;
     padding := JS.max (JS.ofZ 0) (parseInt value);
     outputMode := outputMode s;
     customWidth := customWidth s; customHeight := customHeight s |}.

Definition onCustomWidthChange (value : string) (s : SheetSettings)
  : SheetSettings :=
  {| columns := columns s; scale := scale s; padding := padding s;
     outputMode := outputMode s;
     customWidth := orZero (parseInt value);
     customHeight := customHeight s |}.

Definition onCustomHeightChange (value : string) (s : SheetSettings)
  : SheetSettings :=
  {| columns := columns s; scale := scale s; padding := padding s;
     outputMode := outputMode s;
     customWidth := customWidth s;
     customHeight := orZero (parseInt value) |}.


(** ** The specification's own notions *)

(** A valid colour string in the specification's words: an optional
    leading [#] followed by exactly six hexadecimal digits. *)
Definition specHexDigit (c : ascii) : bool :=
  existsb (Ascii.eqb c) (list_ascii_of_string "0123456789abcdefABCDEF").

Definition specValidHexColor (s : string) : bool :=
  let body := match s with
              | String "#"%char rest => rest
              | _ => s
              end in
  (String.length body =? 6)%nat
  && forallb specHexDigit (list_ascii_of_string body).

(** The number of sampled frames the specification gives:
    [floor((endTime - startTime) x fps) + 1], capped at 200. *)
Definition specFrameCount (startTime endTime fps : JS.number) : JS.number :=
  JS.min (JS.ofZ 200)
    (JS.floor ((endTime - startTime) * fps) + JS.ofZ 1)%js.

(** The alpha of the smoothing band in the specification's words,
    [floor(255 x (dist - threshold) / smoothRange)]: on numbers, the
    product first, stored as a clamped byte; and without any rounding,
    on the values of the three quantities. *)
Definition specSmoothAlpha (dist threshold smoothRange : JS.number) : Z :=
  JS.toUint8Clamp
    (JS.floor ((JS.ofZ 255 * (dist - threshold)) / smoothRange)%js).

Definition specSmoothAlphaExact (dist threshold smoothRange : Q) : Z :=
  Qfloor (255 * (dist - threshold) / smoothRange).


(** ** Notions used in the statements *)

(** The cursor of the sampling loop after [n] turns: [startTime] with
    [interval] added [n] times, each sum rounded. *)
Definition cursorAt (startTime interval : JS.number) (n : nat) : JS.number :=
  Nat.iter n (fun c => (c + interval)%js) startTime.

(** What the sampling loop keeps true: the cursor is where its turns
    have taken it, and frame [i] was captured at cursor [i], which was
    finite and did not exceed [endTime], after a seek that completed. *)
Definition extractInv (seek : JS.number -> Seek) (capture : JS.number -> Image)
    (randomUUID : nat -> string)
    (startTime endTime interval : JS.number) (st : ExtractState) : Prop :=
  cursor st = cursorAt startTime interval (length (extracted st))
  /\ forall i f,
       extracted st !! i = Some f ->
       timestamp f = cursorAt startTime interval i
       /\ (timestamp f <=? endTime)%js = true
       /\ originalDataUrl f = capture (timestamp f)
       /\ id f = randomUUID i
       /\ selected f = true
       /\ isFinite (timestamp f) = true
       /\ seek (timestamp f) = Seeked.

(** How the loop is left: what holds of the state it is left in. *)
Definition exitReason (seek : JS.number -> Seek) (endTime : JS.number)
    (st : ExtractState) (exit : Exit) : Prop :=
  match exit with
  | LoopEnded => capAlert st = true \/ (cursor st <=? endTime)%js = false
  | Caught =>
      (cursor st <=? endTime)%js = true
      /\ (isFinite (cursor st) = false \/ seek (cursor st) = SeekThrows)
  | Suspended =>
      (cursor st <=? endTime)%js = true
      /\ isFinite (cursor st) = true /\ seek (cursor st) = SeekPending
  end.

(** The four bytes of pixel [k] of a buffer. *)
Definition pixelAt (data : list Z) (k : nat) (r g b a : Z) : Prop :=
  data !! (4 * k)%nat = Some r /\ data !! (4 * k + 1)%nat = Some g
  /\ data !! (4 * k + 2)%nat = Some b /\ data !! (4 * k + 3)%nat = Some a.

(** The alpha byte the loop of [processFrame] leaves for a pixel
    (r, g, b, a). *)
Definition keyedAlpha (settings : ChromaSettings) (r g b a : Z) : Z :=
  let dist := colourDistance (hexToRgb (color settings))
                (JS.ofZ r) (JS.ofZ g) (JS.ofZ b) in
  let threshold := (similarity settings * JS.ofZ 442)%js in
  let smoothRange := (smoothness settings * JS.ofZ 100)%js in
  if (dist <? threshold)%js then 0
  else if (dist <? threshold + smoothRange)%js
       then smoothAlpha dist threshold smoothRange
       else a.

(** All that [generateSpriteSheet] needs from the page is there. *)
Definition envReady (env : Env) : bool :=
  sheetCanvasMounted env && sheetContext env && offscreenContext env.

(** Structural equality of numbers (it tells [0] from [-0]). *)
Definition sameNumber (x y : JS.number) : bool :=
  match x, y with
  | S754_zero s, S754_zero s' => Bool.eqb s s'
  | S754_infinity s, S754_infinity s' => Bool.eqb s s'
  | S754_nan, S754_nan => true
  | S754_finite s m e, S754_finite s' m' e' =>
      Bool.eqb s s' && (m =? m')%positive && (e =? e')
  | _, _ => false
  end.

(** For [i] frames before a cell and [c] columns, the cell's column,
    its row and the number of rows computed on numbers are the integer
    remainder, quotient and rounded-up quotient. *)
Definition gridAgrees (i c : nat) : bool :=
  sameNumber (JS.rem (JS.ofNat i) (JS.ofNat c)) (JS.ofNat (i mod c))
  && sameNumber (JS.floor (JS.ofNat i / JS.ofNat c)%js) (JS.ofNat (i / c))
  && sameNumber (JS.ceil (JS.ofNat i / JS.ofNat c)%js)
       (JS.ofNat ((i + c - 1) / c)).

(** With [c] columns, cells of [w] x [h] pixels and a padding of [p]
    pixels: the origin of cell [i], the number of rows for [n] cells
    and the size of the sheet. *)
Definition cellX (c : nat) (w p : Z) (i : nat) : Z :=
  Z.of_nat (i mod c) * (w + p).

Definition cellY (c : nat) (h p : Z) (i : nat) : Z :=
  Z.of_nat (i / c) * (h + p).

Definition gridRows (c n : nat) : nat := (n + c - 1) / c.

Definition sheetWidth (c : nat) (w p : Z) : Z :=
  Z.of_nat c * w + (Z.of_nat c - 1) * p.

Definition sheetHeight (c n : nat) (h p : Z) : Z :=
  Z.of_nat (gridRows c n) * h + (Z.of_nat (gridRows c n) - 1) * p.

(** The sixteen digits, by value. *)
Definition nibbles : list Z := [0; 1; 2; 3; 4; 5; 6; 7; 8; 9; 10; 11; 12; 13; 14; 15].

(** Six digits, zero-padded: what is left of the padded string. *)
Definition sixDigits (v : Z) : string :=
  String (hexChar (v / 16 ^ 5 mod 16))
    (String (hexChar (v / 16 ^ 4 mod 16))
       (String (hexChar (v / 16 ^ 3 mod 16))
          (String (hexChar (v / 16 ^ 2 mod 16))
             (String (hexChar (v / 16 mod 16))
                (String (hexChar (v mod 16)) EmptyString))))).

(** The frame that turn [i] of the sampling loop pushes. *)
Definition sampledFrame (capture : JS.number -> Image)
    (randomUUID : nat -> string) (startTime interval : JS.number) (i : nat)
  : Frame :=
  {| id := randomUUID i;
     timestamp := cursorAt startTime interval i;
     originalDataUrl := capture (cursorAt startTime interval i);
     selected := true |}.

(** ** Sample data *)

(** The initial chroma and sheet settings of the application. *)
Definition defaultChroma : ChromaSettings :=
  {| enabled := true; color := "#00ff00";
     similarity := JS.decimal 25 2; smoothness := JS.decimal 1 1;
     spill := JS.decimal 1 1 |}.


(** The default settings with a smoothness of 0, and with the chroma key
    switched off. *)
Definition hardCutChroma : ChromaSettings :=
  {| enabled := true; color := "#00ff00";
     similarity := JS.decimal 25 2; smoothness := JS.ofZ 0;
     spill := JS.decimal 1 1 |}.

Definition disabledChroma : ChromaSettings :=
  {| enabled := false; color := "#00ff00";
     similarity := JS.decimal 25 2; smoothness := JS.decimal 1 1;
     spill := JS.decimal 1 1 |}.

(** A frame of three pixels: the key colour, a colour inside the
    smoothing band of the default settings, and grey. *)
Definition sampleImage : Image :=
  {| img_width := 3; img_height := 1;
     img_data := [0; 255; 0; 255;  0; 140; 0; 255;  128; 128; 128; 255] |}.

(** Frame [n] of the samples shows the sample image with a third
    pixel of its own, so that no two frames look alike; frame 0 shows
    the sample image itself. *)
Definition frameImage (n : nat) : Image :=
  {| img_width := 3; img_height := 1;
     img_data := [0; 255; 0; 255;  0; 140; 0; 255;
                  128 + Z.of_nat n; 128; 128; 255] |}.

Definition sampleFrame (sel : bool) (n : nat) : Frame :=
  {| id := String (ascii_of_nat (65 + n)) EmptyString;
     timestamp := JS.ofNat n;
     originalDataUrl := frameImage n;
     selected := sel |}.

Definition noResample (img : Image) (width height : Z) : list Z := [].

Definition readyEnv : Env :=
  {| sheetCanvasMounted := true; sheetContext := true;
     offscreenContext := true |}.

(** The end-to-end scenario of the specification: ten selected frames,
    five columns, cells of 100 x 100, padding 2. *)
Definition scenarioSheet : SheetSettings :=
  {| columns := JS.ofZ 5; scale := JS.decimal 5 1; padding := JS.ofZ 2;
     outputMode := ModeFixed;
     customWidth := JS.ofZ 100; customHeight := JS.ofZ 100 |}.

Definition scenarioState : AppState :=
  {| frames := map (sampleFrame true) (seq 0 10);
     chromaSettings := defaultChroma;
     sheetSettings := scenarioSheet;
     generatedSheetUrl := None;
     showSheetPreview := false;
     isGenerating := false |}.


(** A sheet generated earlier, and a state in which every frame has been
    removed since. *)
Definition earlierSheet : Sheet :=
  {| sh_layout := computeLayout scenarioSheet 3 1 10; sh_draws := [] |}.

Definition noFramesState : AppState :=
  {| frames := [];
     chromaSettings := defaultChroma;
     sheetSettings := scenarioSheet;
     generatedSheetUrl := Some earlierSheet;
     showSheetPreview := false;
     isGenerating := false |}.

(** Frames are there but none is selected. *)
Definition noneSelectedState : AppState :=
  {| frames := map (sampleFrame false) (seq 0 3);
     chromaSettings := defaultChroma;
     sheetSettings := scenarioSheet;
     generatedSheetUrl := Some earlierSheet;
     showSheetPreview := false;
     isGenerating := false |}.

(** Two pixels inside the smoothing band of the default settings, at
    distances 115 and 116 from the key colour. *)
Definition bandImage : Image :=
  {| img_width := 2; img_height := 1;
     img_data := [0; 140; 0; 255;  0; 139; 0; 255] |}.

(** Three captured frames [A], [B], [C], all selected, the second one
    previewed. *)
Definition sampleUi : UiState :=
  {| app := {| frames := map (sampleFrame true) (seq 0 3);
               chromaSettings := defaultChroma;
               sheetSettings := scenarioSheet;
               generatedSheetUrl := None;
               showSheetPreview := false;
               isGenerating := false |};
     previewFrameIndex := 1;
     draggedIdx := None |}.

(** A click in the middle of a preview canvas shown at twice the size
    of its three pixels, and a reader of pixels that finds the second
    pixel of the row, where that click falls. *)
Definition sampleClick : CanvasClick :=
  {| clientX := JS.ofZ 13; clientY := JS.ofZ 5;
     rectLeft := JS.ofZ 10; rectTop := JS.ofZ 5;
     rectWidth := JS.ofZ 6; rectHeight := JS.ofZ 2 |}.

Definition readSecondPixel (img : Image) (x y : JS.number) : list Z :=
  take 4 (drop 4 (img_data img)).

(** A page with the video and the capture canvas in place, a video in
    which every seek completes, a frame source that always sees the
    sample image, and identifiers that never repeat. *)
Definition readyPage : CaptureEnv :=
  {| videoMounted := true; captureCanvasMounted := true;
     captureContext := true |}.

Definition everySeeked (t : JS.number) : Seek := Seeked.

Definition sampleCapture (t : JS.number) : Image := sampleImage.

Fixpoint sampleUUID (n : nat) : string :=
  match n with
  | O => EmptyString
  | S k => String "u"%char (sampleUUID k)
  end.

(** The sheet of the end-to-end scenario. *)
Definition scenarioResult : Sheet :=
  let lay := computeLayout scenarioSheet 3 1 10 in
  {| sh_layout := lay;
     sh_draws := packLoop noResample defaultChroma scenarioSheet lay 3 1 0
                   (map (sampleFrame true) (seq 0 10)) |}.

(** The default settings with both sliders at 0, and with a similarity
    of 0.5. *)
Definition zeroChroma : ChromaSettings :=
  {| enabled := true; color := "#00ff00";
     similarity := JS.ofZ 0; smoothness := JS.ofZ 0;
     spill := JS.decimal 1 1 |}.

Definition widerChroma : ChromaSettings :=
  {| enabled := true; color := "#00ff00";
     similarity := JS.decimal 5 1; smoothness := JS.decimal 1 1;
     spill := JS.decimal 1 1 |}.

(** The range of a clip of 10 s before any slider is moved. *)
Definition sampleTrim : TrimRange :=
  {| trimStart := JS.ofZ 0; trimEnd := JS.ofZ 10 |}.

(** A pixel in the smoothing band of a similarity of 0.10 and a
    smoothness of 0.51, at distance 85 from the key colour; a pixel at
    distance 1 with a similarity of 0 and a smoothness of 0.05. *)
Definition rampChroma : ChromaSettings :=
  {| enabled := true; color := "#00ff00";
     similarity := JS.decimal 10 2; smoothness := JS.decimal 51 2;
     spill := JS.decimal 1 1 |}.

Definition rampImage : Image :=
  {| img_width := 1; img_height := 1; img_data := [0; 170; 0; 255] |}.

Definition narrowChroma : ChromaSettings :=
  {| enabled := true; color := "#00ff00";
     similarity := JS.ofZ 0; smoothness := JS.decimal 5 2;
     spill := JS.decimal 1 1 |}.

Definition narrowImage : Image :=
  {| img_width := 1; img_height := 1; img_data := [0; 254; 0; 255] |}.

(** An image of one half-transparent pixel. *)
Definition translucentImage : Image :=
  {| img_width := 1; img_height := 1; img_data := [200; 100; 50; 128] |}.

Definition translucentFrame : Frame :=
  {| id := "T"; timestamp := JS.ofZ 0;
     originalDataUrl := translucentImage; selected := true |}.



(** ** Notions for reasoning about rounding *)

(** A double is a signed mantissa times a power of two; what an
    operation returns is described through the rational value it
    rounds. *)

(** Powers of two as rationals. *)
Definition pow2 (k : Z) : Q := (2 ^ k)%Q.

(** The exponent function of binary64. *)
Abbreviation fexp64 := (fexp 53 1024).

(** [M] is the integer part of [y] and [l] tells where [y] lies between
    [M] and [M + 1]: on [M], below, on or above the middle. *)
Definition Loc (y : Q) (M : Z) (l : location) : Prop :=
  (inject_Z M <= y < inject_Z M + 1)%Q
  /\ match l with
     | loc_Exact => (y == inject_Z M)%Q
     | loc_Inexact Lt => (inject_Z M < y < inject_Z M + (1 # 2))%Q
     | loc_Inexact Eq => (y == inject_Z M + (1 # 2))%Q
     | loc_Inexact Gt => (inject_Z M + (1 # 2) < y)%Q
     end.

(** The same for the records [shr_1] shifts. *)
Definition LocR (y : Q) (mrs : shr_record) : Prop :=
  0 <= shr_m mrs /\ Loc y (shr_m mrs) (loc_of_shr_record mrs).

(** The canonical exponent of a non-negative value in binary64: the
    exponent at which its mantissa has 53 digits, or -1074 when that
    would be lower. *)
Definition Cexp (x : Q) (c : Z) : Prop :=
  -1074 <= c
  /\ (x < pow2 (c + 53))%Q
  /\ (c = -1074 \/ (pow2 (c + 52) <= x)%Q).

(** The value is located by [M] and [l] at its canonical exponent. *)
Definition Rounded (x : Q) (c M : Z) (l : location) : Prop :=
  Cexp x c /\ 0 <= M /\ Loc (x * pow2 (- c)) M l.

(** The second half of [binary_round_aux]: what becomes of the rounded
    mantissa. *)
Definition roundFinish (s : bool) (R c : Z) : spec_float :=
  let '(mrs, e) := shr_fexp 53 1024 R c loc_Exact in
  match shr_m mrs with
  | Z0 => S754_zero s
  | Zpos m => if e <=? 1024 - 53 then S754_finite s m e else S754_infinity s
  | Zneg _ => S754_nan
  end.

(** The mantissa and exponent a rounded mantissa ends with. *)
Definition carried (R c : Z) : Z * Z :=
  if R =? 2 ^ 53 then (2 ^ 52, c + 1) else (R, c).

(** The rational a finite number stands for. *)
Definition value (x : spec_float) : Q :=
  match x with
  | S754_finite s m e => inject_Z (cond_Zopp s (Zpos m)) * pow2 e
  | _ => 0
  end.


(** A number that is finite and whose value is an integer. *)
Definition wholeNumber (x : JS.number) : Prop :=
  isFinite x = true /\ exists z, (value x == inject_Z z)%Q.

(** [r] is the binary64 rounding of the non-negative value [x]. *)
Definition RoundOf (x : Q) (r : spec_float) : Prop :=
  exists c M l,
    Rounded x c M l /\ r = roundFinish false (round_nearest_even M l) c.

(** Zeros, positive finite numbers and +Infinity. *)
Definition nonneg (r : spec_float) : bool :=
  match r with
  | S754_zero _ => true
  | S754_finite s _ _ => negb s
  | S754_infinity s => negb s
  | S754_nan => false
  end.

(** Either the rounding of [x], or a negative zero when [x] is zero. *)
Definition ZRoundOf (x : Q) (r : spec_float) : Prop :=
  RoundOf x r \/ ((x == 0)%Q /\ r = S754_zero true).

(** Non-negative valid numbers, infinity included. *)
Definition NNV (r : spec_float) : Prop :=
  nonneg r = true /\ valid_binary 53 1024 r = true.

(** The sign only shows in the sign of the result. *)
Definition withSign (s : bool) (x : spec_float) : spec_float :=
  match x with
  | S754_zero _ => S754_zero s
  | S754_infinity _ => S754_infinity s
  | S754_finite _ m e => S754_finite s m e
  | S754_nan => S754_nan
  end.

(** * Properties *)

(** ** [hexToRgb] *)

Lemma isHexDigit_spec (c : ascii) : isHexDigit c = specHexDigit c.
Proof. destruct c as [[] [] [] [] [] [] [] []]; reflexivity. Qed.

Lemma hexDigitValue_range (c : ascii) :
  isHexDigit c = true -> 0 <= hexDigitValue c <= 15.
Proof.
  destruct c as [[] [] [] [] [] [] [] []]; vm_compute; intuition congruence.
Qed.

Lemma parseHexPair_range (a b : ascii) :
  isHexDigit a = true -> isHexDigit b = true ->
  0 <= parseHexPair (a, b) <= 255.
Proof.
  intros Ha Hb. unfold parseHexPair; simpl fst; simpl snd.
  pose proof (hexDigitValue_range a Ha).
  pose proof (hexDigitValue_range b Hb). lia.
Qed.

Lemma matchSixHex_Some (s : string) g1 g2 g3 :
  matchSixHex s = Some (g1, g2, g3) ->
  s = String (fst g1) (String (snd g1) (String (fst g2) (String (snd g2)
        (String (fst g3) (String (snd g3) EmptyString)))))
  /\ isHexDigit (fst g1) = true /\ isHexDigit (snd g1) = true
  /\ isHexDigit (fst g2) = true /\ isHexDigit (snd g2) = true
  /\ isHexDigit (fst g3) = true /\ isHexDigit (snd g3) = true.
Proof.
  unfold matchSixHex.
  destruct s as [|a [|b [|c [|d [|e [|f [|? ?]]]]]]]; try discriminate.
  destruct (isHexDigit a) eqn:Ha; try discriminate.
  destruct (isHexDigit b) eqn:Hb; try discriminate.
  destruct (isHexDigit c) eqn:Hc; try discriminate.
  destruct (isHexDigit d) eqn:Hd; try discriminate.
  destruct (isHexDigit e) eqn:He; try discriminate.
  destruct (isHexDigit f) eqn:Hf; try discriminate.
  simpl. intros [= <- <- <-]. simpl. auto 10.
Qed.

(** The code's matcher accepts exactly the six-digit strings of the
    specification. *)
Lemma matchSixHex_None (s : string) :
  matchSixHex s = None <->
  (String.length s =? 6)%nat
  && forallb specHexDigit (list_ascii_of_string s) = false.
Proof.
  unfold matchSixHex.
  destruct s as [|a [|b [|c [|d [|e [|f [|g s]]]]]]];
    try (split; reflexivity).
  cbn [String.length Nat.eqb list_ascii_of_string forallb andb].
  rewrite <- !isHexDigit_spec, andb_true_r.
  destruct (isHexDigit a), (isHexDigit b), (isHexDigit c),
    (isHexDigit d), (isHexDigit e), (isHexDigit f);
    cbn; split; congruence.
Qed.

Lemma hexRegexExec_no_hash (a : ascii) (rest : string) :
  a <> "#"%char ->
  hexRegexExec (String a rest) = matchSixHex (String a rest).
Proof.
  intros Ha. unfold hexRegexExec.
  destruct a as [[] [] [] [] [] [] [] []]; try reflexivity.
  exfalso; apply Ha; reflexivity.
Qed.

Lemma matchSixHex_hash (rest : string) :
  matchSixHex (String "#"%char rest) = None.
Proof.
  unfold matchSixHex.
  destruct rest as [|b [|c [|d [|e [|f [|g s]]]]]]; reflexivity.
Qed.

Lemma specValidHexColor_no_hash (a : ascii) (rest : string) :
  a <> "#"%char ->
  specValidHexColor (String a rest)
  = (String.length (String a rest) =? 6)%nat
    && forallb specHexDigit (list_ascii_of_string (String a rest)).
Proof.
  intros Ha. unfold specValidHexColor.
  destruct a as [[] [] [] [] [] [] [] []]; try reflexivity.
  exfalso; apply Ha; reflexivity.
Qed.

Lemma hexRegexExec_invalid (s : string) :
  specValidHexColor s = false -> hexRegexExec s = None.
Proof.
  intros Hs. destruct s as [|a rest].
  - reflexivity.
  - destruct (ascii_dec a "#"%char) as [-> | Ha].
    + change (specValidHexColor (String "#" rest))
        with ((String.length rest =? 6)%nat
              && forallb specHexDigit (list_ascii_of_string rest)) in Hs.
      apply matchSixHex_None in Hs.
      change (hexRegexExec (String "#" rest))
        with (match matchSixHex rest with
              | Some groups => Some groups
              | None => matchSixHex (String "#" rest)
              end).
      rewrite Hs. apply matchSixHex_hash.
    + rewrite hexRegexExec_no_hash by assumption.
      rewrite specValidHexColor_no_hash in Hs by assumption.
      apply matchSixHex_None. exact Hs.
Qed.

Lemma hexRegexExec_Some (s : string) g1 g2 g3 :
  hexRegexExec s = Some (g1, g2, g3) ->
  isHexDigit (fst g1) = true /\ isHexDigit (snd g1) = true
  /\ isHexDigit (fst g2) = true /\ isHexDigit (snd g2) = true
  /\ isHexDigit (fst g3) = true /\ isHexDigit (snd g3) = true.
Proof.
  intros H.
  assert (Hm : exists t, matchSixHex t = Some (g1, g2, g3)).
  { destruct s as [|a rest]; [discriminate|].
    destruct (ascii_dec a "#"%char) as [-> | Ha].
    - change (hexRegexExec (String "#" rest))
        with (match matchSixHex rest with
              | Some groups => Some groups
              | None => matchSixHex (String "#" rest)
              end) in H.
      destruct (matchSixHex rest) eqn:Hr.
      + exists rest. congruence.
      + rewrite matchSixHex_hash in H. discriminate.
    - rewrite hexRegexExec_no_hash in H by assumption. eauto. }
  destruct Hm as [t Ht]. apply matchSixHex_Some in Ht. tauto.
Qed.

(** The key colour is always a triple of bytes. *)
Lemma hexToRgb_bytes (s : string) :
  let '(r, g, b) := hexToRgb s in
  0 <= r <= 255 /\ 0 <= g <= 255 /\ 0 <= b <= 255.
Proof.
  unfold hexToRgb. destruct (hexRegexExec s) as [[[g1 g2] g3]|] eqn:H.
  - apply hexRegexExec_Some in H.
    destruct H as (H1 & H2 & H3 & H4 & H5 & H6).
    destruct g1, g2, g3. simpl in *.
    auto using parseHexPair_range.
  - lia.
Qed.

(** C10. A string that is not an optional [#] followed by exactly six
    hexadecimal digits makes [hexToRgb] return pure green (0, 255, 0);
    the function has a result for every string, and each channel of that
    result is a byte, so the chroma key always works with a defined key
    colour. *)
Theorem hexToRgb_fallback_green (s : string) :
  specValidHexColor s = false ->
  hexToRgb s = (0, 255, 0)
  /\ (forall t : string,
        let '(r, g, b) := hexToRgb t in
        0 <= r <= 255 /\ 0 <= g <= 255 /\ 0 <= b <= 255).
Proof.
  intros Hs. split.
  - unfold hexToRgb. rewrite (hexRegexExec_invalid s Hs). reflexivity.
  - apply hexToRgb_bytes.
Qed.

Lemma hexToRgb_fallback_green_witness :
  specValidHexColor "#12345" = false
  /\ hexToRgb "#12345" = (0, 255, 0).
Proof.
  split; [reflexivity | apply (hexToRgb_fallback_green "#12345"); reflexivity].
Defined.

(** ** Frame extraction *)

Section ExtractionFacts.

Variable seek : JS.number -> Seek.
Variable capture : JS.number -> Image.
Variable randomUUID : nat -> string.

Lemma extractStep_Pushed startTime endTime interval totalDuration st st' stop :
  extractStep seek capture randomUUID startTime endTime interval totalDuration st
    = Pushed st' stop ->
  length (extracted st') = S (length (extracted st))
  /\ capAlert st' = stop
  /\ stop = (200 <? S (length (extracted st)))%nat.
Proof.
  unfold extractStep.
  destruct (cursor st <=? endTime)%js; [|discriminate].
  destruct (isFinite (cursor st)); [|discriminate]. cbn [negb].
  destruct (seek (cursor st)); try discriminate.
  intros [= <- <-]. cbn [extracted capAlert].
  rewrite length_app. cbn [length].
  replace (length (extracted st) + 1)%nat with (S (length (extracted st)))
    by lia.
  auto.
Qed.

(** The loop always leaves within the fuel it is given, with at most
    201 frames, and the cap alert is raised exactly when there are
    201; the loop is then left by its [break]. *)
Lemma extractLoop_returns startTime endTime interval totalDuration :
  forall fuel st,
    (length (extracted st) <= 200)%nat ->
    capAlert st = false ->
    (201 <= fuel + length (extracted st))%nat ->
    exists st' exit,
      extractLoop seek capture randomUUID fuel
        startTime endTime interval totalDuration st = Some (st', exit)
      /\ ((capAlert st' = true /\ length (extracted st') = 201%nat
           /\ exit = LoopEnded)
          \/ (capAlert st' = false /\ (length (extracted st') <= 200)%nat)).
Proof.
  induction fuel as [|fuel IH]; intros st Hlen Hcap Hfuel.
  - lia.
  - cbn [extractLoop].
    destruct (extractStep seek capture randomUUID startTime endTime interval
                totalDuration st) as [|st' stop| |] eqn:Hstep.
    + exists st, LoopEnded. split; [reflexivity|]. right. auto.
    + apply extractStep_Pushed in Hstep. destruct Hstep as (Hl & Hc & Hs).
      destruct stop.
      * exists st', LoopEnded. split; [reflexivity|]. left.
        split; [assumption|]. split; [|reflexivity].
        symmetry in Hs. apply Nat.ltb_lt in Hs. lia.
      * symmetry in Hs. apply Nat.ltb_ge in Hs.
        apply IH; [lia | assumption | lia].
    + exists st, Caught. split; [reflexivity|]. right. auto.
    + exists st, Suspended. split; [reflexivity|]. right. auto.
Qed.

(** [extractFrames] returns an outcome for every input.  When the
    frames are set there are at most 201 of them; the cap alert is
    raised exactly when there are 201, and the only other report is the
    one of the [catch] block. *)
Lemma extractFrames_returns (env : CaptureEnv)
    (startTime endTime fps : JS.number) :
  exists o,
    extractFrames seek capture randomUUID env startTime endTime fps = Some o
    /\ forall r, o = Extracted r ->
         (ex_events r = [Alert MsgFrameCapReached]
          /\ length (ex_frames r) = 201%nat)
         \/ ((ex_events r = [] \/ ex_events r = [ConsoleError MsgExtractionError])
             /\ (length (ex_frames r) <= 200)%nat).
Proof.
  unfold extractFrames.
  destruct (negb (videoMounted env) || negb (captureCanvasMounted env));
    [eexists; split; [reflexivity|discriminate]|].
  destruct (negb (captureContext env));
    [eexists; split; [reflexivity|discriminate]|].
  cbv zeta.
  match goal with
  | |- context [extractLoop _ _ _ ?f ?a ?b ?c ?d ?st] =>
      destruct (extractLoop_returns a b c d f st) as (st' & exit & -> & H)
  end; cbn; try lia; try reflexivity.
  destruct H as [(Hc & Hl & ->) | (Hc & Hl)].
  - eexists; split; [reflexivity|]. intros r [= <-]. cbn. rewrite Hc. auto.
  - destruct exit; eexists; (split; [reflexivity|]); intros r Hr;
      try discriminate; injection Hr as <-; cbn; rewrite Hc; auto.
Qed.

(** A turn of the loop keeps [extractInv]. *)
Lemma extractStep_inv startTime endTime interval totalDuration st st' stop :
  extractInv seek capture randomUUID startTime endTime interval st ->
  extractStep seek capture randomUUID startTime endTime interval totalDuration st
    = Pushed st' stop ->
  extractInv seek capture randomUUID startTime endTime interval st'.
Proof.
  intros [Hcur Hfr]. unfold extractStep.
  destruct (cursor st <=? endTime)%js eqn:Hle; [|discriminate].
  destruct (isFinite (cursor st)) eqn:Hfin; [|discriminate]. cbn [negb].
  destruct (seek (cursor st)) eqn:Hseek; try discriminate.
  intros [= <- <-]. split; cbn [extracted cursor].
  - rewrite length_app. cbn [length].
    replace (length (extracted st) + 1)%nat with (S (length (extracted st)))
      by lia.
    unfold cursorAt. rewrite Nat.iter_succ. fold (cursorAt startTime interval
      (length (extracted st))). rewrite Hcur. reflexivity.
  - intros i f Hi. apply lookup_app_Some in Hi as [Hi | [Hlen Hi]].
    + apply Hfr. exact Hi.
    + destruct (i - length (extracted st))%nat as [|j] eqn:Hj;
        [|destruct j; discriminate].
      cbn in Hi. injection Hi as <-. cbn.
      replace i with (length (extracted st)) by lia.
      rewrite <- Hcur. auto 10.
Qed.

(** So does the whole loop, which ends on a [break], on a cursor that
    fails the test [cursor <= endTime], on an exception or in an
    [await]. *)
Lemma extractLoop_frames startTime endTime interval totalDuration :
  forall fuel st st' exit,
    extractInv seek capture randomUUID startTime endTime interval st ->
    extractLoop seek capture randomUUID fuel
      startTime endTime interval totalDuration st = Some (st', exit) ->
    extractInv seek capture randomUUID startTime endTime interval st'
    /\ exitReason seek endTime st' exit.
Proof.
  induction fuel as [|fuel IH]; intros st st' exit Hinv; cbn [extractLoop];
    [discriminate|].
  destruct (extractStep seek capture randomUUID startTime endTime interval
              totalDuration st) as [|st1 stop| |] eqn:Hstep.
  - intros [= <- <-]. split; [exact Hinv|]. cbn.
    unfold extractStep in Hstep.
    destruct (cursor st <=? endTime)%js; [|auto].
    destruct (negb (isFinite (cursor st))); [discriminate|].
    destruct (seek (cursor st)); discriminate.
  - pose proof (extractStep_inv _ _ _ _ _ _ _ Hinv Hstep) as Hinv1.
    pose proof (extractStep_Pushed _ _ _ _ _ _ _ Hstep) as (_ & Hcap & _).
    destruct stop.
    + intros [= <- <-]. split; [exact Hinv1|]. left. exact Hcap.
    + intros Hloop. exact (IH st1 st' exit Hinv1 Hloop).
  - intros [= <- <-]. split; [exact Hinv|]. cbn.
    unfold extractStep in Hstep.
    destruct (cursor st <=? endTime)%js; [|discriminate].
    split; [reflexivity|].
    destruct (isFinite (cursor st)); [|auto]. cbn [negb] in Hstep.
    destruct (seek (cursor st)); try discriminate. auto.
  - intros [= <- <-]. split; [exact Hinv|]. cbn.
    unfold extractStep in Hstep.
    destruct (cursor st <=? endTime)%js; [|discriminate].
    split; [reflexivity|].
    destruct (isFinite (cursor st)); [|discriminate]. cbn [negb] in Hstep.
    destruct (seek (cursor st)); try discriminate. auto.
Qed.

(** What a call that got to the loop comes to. *)
Lemma extractFrames_loop (env : CaptureEnv) (startTime endTime fps : JS.number)
    (r : Extraction) :
  extractFrames seek capture randomUUID env startTime endTime fps
    = Some (Extracted r) ->
  exists st exit,
    extractLoop seek capture randomUUID 201 startTime endTime (JS.ofZ 1 / fps)%js
      (JS.max (JS.decimal 1 1) (endTime - startTime)%js)
      {| extracted := []; cursor := startTime;
         progress := JS.ofZ 0; capAlert := false |} = Some (st, exit)
    /\ exit <> Suspended
    /\ ex_frames r = extracted st
    /\ ex_events r
       = (if capAlert st then [Alert MsgFrameCapReached] else [])
         ++ match exit with
            | Caught => [ConsoleError MsgExtractionError]
            | _ => []
            end
    /\ ex_rejected r = negb (isFinite startTime).
Proof.
  unfold extractFrames.
  destruct (negb (videoMounted env) || negb (captureCanvasMounted env));
    [discriminate|].
  destruct (negb (captureContext env)); [discriminate|]. cbv zeta.
  match goal with
  | |- context [extractLoop _ _ _ ?f ?a ?b ?c ?d ?st] =>
      destruct (extractLoop seek capture randomUUID f a b c d st)
        as [[st' exit]|] eqn:Hloop
  end; [|discriminate].
  destruct exit; intros [= <-]; exists st'; eexists;
    (split; [reflexivity|]); (split; [discriminate|]);
    repeat split; reflexivity.
Qed.

(** The frames [extractFrames] sets are those captured at the
    successive cursor values, as long as the cursor is finite and does
    not exceed [endTime] and the seek completes; without a report it
    stops at the first cursor value that is not below or equal to
    [endTime]. *)
Lemma extractFrames_frames (env : CaptureEnv)
    (startTime endTime fps : JS.number) (r : Extraction) :
  extractFrames seek capture randomUUID env startTime endTime fps
    = Some (Extracted r) ->
  let interval := (JS.ofZ 1 / fps)%js in
  let next := cursorAt startTime interval (length (ex_frames r)) in
  (forall i f,
     ex_frames r !! i = Some f ->
     timestamp f = cursorAt startTime interval i
     /\ (timestamp f <=? endTime)%js = true
     /\ originalDataUrl f = capture (timestamp f)
     /\ selected f = true)
  /\ (ex_events r = [Alert MsgFrameCapReached]
      \/ (ex_events r = [] /\ (next <=? endTime)%js = false)
      \/ (ex_events r = [ConsoleError MsgExtractionError]
          /\ (next <=? endTime)%js = true
          /\ (isFinite next = false \/ seek next = SeekThrows))).
Proof.
  intros Hr. cbv zeta.
  destruct (extractFrames_loop _ _ _ _ _ Hr)
    as (st & exit & Hloop & Hexit & -> & -> & _).
  destruct (extractLoop_returns startTime endTime (JS.ofZ 1 / fps)%js
              (JS.max (JS.decimal 1 1) (endTime - startTime)%js) 201
              {| extracted := []; cursor := startTime;
                 progress := JS.ofZ 0; capAlert := false |})
    as (st0 & exit0 & Hloop0 & Hcap); [cbn; lia | reflexivity | cbn; lia |].
  rewrite Hloop in Hloop0. injection Hloop0 as <- <-.
  apply extractLoop_frames in Hloop.
  2:{ split; [reflexivity|]. intros i f Hi. discriminate. }
  destruct Hloop as [[Hcur Hfr] Hend]. split.
  - intros i f Hi. destruct (Hfr i f Hi) as (H1 & H2 & H3 & _ & H5 & _). auto.
  - rewrite <- Hcur.
    destruct Hcap as [(Hc & _ & ->) | (Hc & _)]; rewrite Hc.
    + left. reflexivity.
    + right. destruct exit; cbn in Hend |- *.
      * left. destruct Hend as [H | H]; [congruence|]. auto.
      * right. auto.
      * congruence.
Qed.

(** C1, at [startTime = 0], [endTime = 100], [fps = 10], with the page
    ready and every seek completing: the specification's count is 200,
    the cap; the loop sets 201 frames before its check
    [extracted.length > 200] stops it, and raises the alert that
    announces a limit of 200. *)
Theorem extractFrames_cap_off_by_one :
  specFrameCount (JS.ofZ 0) (JS.ofZ 100) (JS.ofZ 10) = JS.ofZ 200
  /\ exists r,
       extractFrames everySeeked capture randomUUID readyPage
         (JS.ofZ 0) (JS.ofZ 100) (JS.ofZ 10)
         = Some (Extracted r)
       /\ length (ex_frames r) = 201%nat
       /\ ex_events r = [Alert MsgFrameCapReached].
Proof.
  split; [vm_compute; reflexivity|].
  eexists. split; [vm_compute; reflexivity|].
  split; vm_compute; reflexivity.
Qed.

(** The cursor is advanced by repeated addition of [1 / fps], each
    rounded: at [startTime = 0], [endTime = 0.3], [fps = 10] the fourth
    cursor value is 0.30000000000000004 and the frame at [endTime] is
    not taken, while the specification counts it. *)
Lemma extractFrames_rounding_drift :
  specFrameCount (JS.ofZ 0) (JS.decimal 3 1) (JS.ofZ 10) = JS.ofZ 4
  /\ exists r,
       extractFrames everySeeked capture randomUUID readyPage
         (JS.ofZ 0) (JS.decimal 3 1) (JS.ofZ 10)
         = Some (Extracted r)
       /\ length (ex_frames r) = 3%nat
       /\ ex_events r = [].
Proof.
  split; [vm_compute; reflexivity|].
  eexists. split; [vm_compute; reflexivity|].
  split; vm_compute; reflexivity.
Qed.

End ExtractionFacts.

(** ** Chroma key *)

Section ChromaFacts.

Variable key : Z * Z * Z.
Variables similarityThreshold smoothRange : JS.number.

Local Abbreviation step := (chromaStep key similarityThreshold smoothRange).
Local Abbreviation loop fuel :=
  (chromaLoop fuel key similarityThreshold smoothRange).

Lemma chromaStep_length (data : list Z) (i : nat) :
  length (step data i) = length data.
Proof.
  unfold chromaStep.
  repeat match goal with |- context [if ?c then _ else _] => destruct c end;
    rewrite ?length_insert; reflexivity.
Qed.

(** A turn of the loop writes at most the alpha byte [i + 3]. *)
Lemma chromaStep_lookup_ne (data : list Z) (i p : nat) :
  p <> (i + 3)%nat -> step data i !! p = data !! p.
Proof.
  intros Hp. unfold chromaStep.
  repeat match goal with |- context [if ?c then _ else _] => destruct c end;
    rewrite ?list_lookup_insert_ne by lia; reflexivity.
Qed.

(** What a turn writes depends on the four bytes of its pixel only. *)
Lemma chromaStep_agree (data data' : list Z) (i : nat) :
  length data' = length data ->
  (forall c, (c < 4)%nat -> data' !! (i + c)%nat = data !! (i + c)%nat) ->
  step data' i !! (i + 3)%nat = step data i !! (i + 3)%nat.
Proof.
  intros Hlen Hag. unfold chromaStep, readByte.
  pose proof (Hag 0%nat ltac:(lia)) as H0. rewrite Nat.add_0_r in H0.
  rewrite H0, (Hag 1%nat), (Hag 2%nat) by lia.
  repeat match goal with |- context [if ?c then _ else _] => destruct c end;
    rewrite ?list_lookup_insert, ?Hlen; auto;
    case_decide; auto.
Qed.

Lemma chromaLoop_length (fuel i : nat) (data : list Z) :
  length (loop fuel i data) = length data.
Proof.
  revert i data. induction fuel as [|fuel IH]; intros i data; cbn [chromaLoop].
  - reflexivity.
  - destruct (i <? length data)%nat; [|reflexivity].
    rewrite IH. apply chromaStep_length.
Qed.

(** The loop started at [i] writes alpha bytes [i + 4q + 3] only. *)
Lemma chromaLoop_lookup_other (fuel i : nat) (data : list Z) (p : nat) :
  (forall q : nat, p <> (i + 4 * q + 3)%nat) ->
  loop fuel i data !! p = data !! p.
Proof.
  revert i data. induction fuel as [|fuel IH]; intros i data Hp;
    cbn [chromaLoop].
  - reflexivity.
  - destruct (i <? length data)%nat; [|reflexivity].
    rewrite IH.
    + apply chromaStep_lookup_ne. specialize (Hp 0%nat). lia.
    + intros q. specialize (Hp (S q)). lia.
Qed.

(** The alpha byte of pixel [k] after the loop is the one written by
    the turn for that pixel on the original data. *)
Lemma chromaLoop_lookup_alpha (k : nat) :
  forall fuel j (data : list Z),
    (j <= k)%nat -> (k - j < fuel)%nat -> (4 * k < length data)%nat ->
    loop fuel (4 * j) data !! (4 * k + 3)%nat
    = step data (4 * k) !! (4 * k + 3)%nat.
Proof.
  induction fuel as [|fuel IH]; intros j data Hj Hfuel Hk; [lia|].
  cbn [chromaLoop].
  destruct (Nat.ltb_spec (4 * j) (length data)) as [_|?]; [|lia].
  destruct (decide (j = k)) as [->|Hne].
  - apply chromaLoop_lookup_other. intros q. lia.
  - replace (4 * j + 4)%nat with (4 * S j)%nat by lia.
    rewrite IH; [|lia|lia|rewrite chromaStep_length; assumption].
    apply chromaStep_agree; [apply chromaStep_length|].
    intros c Hc. apply chromaStep_lookup_ne. lia.
Qed.

(** The loop leaves by its own condition: fuel beyond a quarter of
    what remains of the buffer is not used. *)
Lemma chromaLoop_fuel (fuel extra i : nat) (data : list Z) :
  (length data <= i + 4 * fuel)%nat ->
  loop (fuel + extra) i data = loop fuel i data.
Proof.
  revert i data. induction fuel as [|fuel IH]; intros i data Hlen.
  - cbn [Nat.add chromaLoop]. destruct extra; cbn [chromaLoop]; [reflexivity|].
    destruct (Nat.ltb_spec i (length data)); [lia|reflexivity].
  - cbn [Nat.add chromaLoop].
    destruct (i <? length data)%nat; [|reflexivity].
    apply IH. rewrite chromaStep_length. lia.
Qed.

End ChromaFacts.

(** Adding a zero smoothing range does not move the threshold. *)
Lemma ltb_add_zero (dist threshold range : JS.number) :
  JS.eqb range (JS.ofZ 0) = true ->
  (dist <? threshold + range)%js = (dist <? threshold)%js.
Proof.
  intros Hz.
  assert (exists s, range = S754_zero s) as [s ->].
  { destruct range as [s|s| |s m e]; try (exists s; reflexivity);
      try discriminate; destruct s; discriminate. }
  destruct threshold as [st|st| |st mt et], dist as [sd|sd| |sd md ed];
    try reflexivity;
    destruct s, st; reflexivity.
Qed.

(** ** The pixels of a canvas *)

Lemma pixels_ind (P : list Z -> Prop) :
  (forall l, (length l < 4)%nat -> P l) ->
  (forall r g b a rest, P rest -> P (r :: g :: b :: a :: rest)) ->
  forall l, P l.
Proof.
  intros Hshort Hpixel. fix IH 1.
  intros [|r [|g [|b [|a rest]]]]; try (apply Hshort; cbn; lia).
  apply Hpixel. apply IH.
Qed.

Lemma stored_length (data : list Z) : length (stored data) = length data.
Proof.
  induction data as [l Hl | r g b a rest IH] using pixels_ind.
  - destruct l as [|? [|? [|? [|? ?]]]]; cbn in *; try reflexivity; lia.
  - cbn [stored length]. rewrite IH. reflexivity.
Qed.

(** The bytes of pixel [k + 1] are those of pixel [k] after the first
    pixel. *)
Lemma pixelAt_S (x1 x2 x3 x4 : Z) (rest : list Z) (k : nat) (r g b a : Z) :
  pixelAt (x1 :: x2 :: x3 :: x4 :: rest) (S k) r g b a <-> pixelAt rest k r g b a.
Proof.
  unfold pixelAt.
  replace (4 * S k)%nat with (S (S (S (S (4 * k))))) by lia.
  replace (S (S (S (S (4 * k)))) + 1)%nat with (S (S (S (S (4 * k + 1)))))
    by lia.
  replace (S (S (S (S (4 * k)))) + 2)%nat with (S (S (S (S (4 * k + 2)))))
    by lia.
  replace (S (S (S (S (4 * k)))) + 3)%nat with (S (S (S (S (4 * k + 3)))))
    by lia.
  reflexivity.
Qed.

Lemma pixelAt_short (l : list Z) (k : nat) (r g b a : Z) :
  (length l < 4)%nat -> ~ pixelAt l k r g b a.
Proof.
  intros Hl (_ & _ & _ & Ha). apply lookup_lt_Some in Ha. lia.
Qed.

(** The canvas keeps the alpha byte of every pixel and gives its colour
    channels back as [storedChannel] has them. *)
Lemma stored_pixelAt (data : list Z) (k : nat) (r g b a : Z) :
  pixelAt data k r g b a ->
  pixelAt (stored data) k
    (storedChannel r a) (storedChannel g a) (storedChannel b a) a.
Proof.
  revert k. induction data as [l Hl | x1 x2 x3 x4 rest IH] using pixels_ind;
    intros k Hpx.
  - exfalso. exact (pixelAt_short _ _ _ _ _ _ Hl Hpx).
  - cbn [stored]. destruct k as [|k].
    + destruct Hpx as (Hr & Hg & Hb & Ha). cbn in Hr, Hg, Hb, Ha.
      injection Hr as ->. injection Hg as ->. injection Hb as ->.
      injection Ha as ->. repeat split; reflexivity.
    + apply pixelAt_S. apply IH. apply (pixelAt_S x1 x2 x3 x4). exact Hpx.
Qed.

Lemma stored_lookup_alpha (data : list Z) (k : nat) (a : Z) :
  data !! (4 * k + 3)%nat = Some a -> stored data !! (4 * k + 3)%nat = Some a.
Proof.
  intros Ha. pose proof (lookup_lt_Some _ _ _ Ha) as Hlen.
  destruct (lookup_lt_is_Some_2 data (4 * k)%nat ltac:(lia)) as [r Hr].
  destruct (lookup_lt_is_Some_2 data (4 * k + 1)%nat ltac:(lia)) as [g Hg].
  destruct (lookup_lt_is_Some_2 data (4 * k + 2)%nat ltac:(lia)) as [b Hb].
  apply (stored_pixelAt data k r g b a). repeat split; assumption.
Qed.

(** Dividing by alpha and multiplying again gives the stored channel
    back: reading a canvas and writing what was read changes nothing. *)
Lemma premultiply_unpremultiply (p a : Z) :
  0 < a < 255 -> premultiply (unpremultiply p a) a = p.
Proof.
  intros Ha. unfold premultiply, unpremultiply, divNearest.
  set (c := (2 * (p * 255) + a) / (2 * a)).
  assert (H1 : 2 * a * c <= 2 * (p * 255) + a)
    by (apply Z.mul_div_le; lia).
  assert (H2 : 2 * (p * 255) + a < 2 * a * Z.succ c)
    by (apply Z.mul_succ_div_gt; lia).
  symmetry. apply (Z.div_unique _ _ _ (2 * (c * a) + 255 - 2 * 255 * p)); nia.
Qed.

Lemma storedChannel_again (c a : Z) :
  storedChannel (storedChannel c a) a = storedChannel c a.
Proof.
  unfold storedChannel.
  destruct (Z.leb_spec a 0); [reflexivity|].
  destruct (Z.leb_spec 255 a); [reflexivity|].
  rewrite premultiply_unpremultiply by lia. reflexivity.
Qed.

Lemma stored_again (data : list Z) : stored (stored data) = stored data.
Proof.
  induction data as [l Hl | r g b a rest IH] using pixels_ind.
  - destruct l as [|? [|? [|? [|? ?]]]]; cbn in *; try reflexivity; lia.
  - cbn [stored]. rewrite !storedChannel_again, IH. reflexivity.
Qed.

(** Opaque pixels come back as they were written. *)
Lemma stored_opaque (data : list Z) : opaque data = true -> stored data = data.
Proof.
  induction data as [l Hl | r g b a rest IH] using pixels_ind.
  - destruct l as [|? [|? [|? [|? ?]]]]; cbn in *; try reflexivity; lia.
  - cbn [opaque stored]. intros H. apply andb_prop in H as [Ha Hrest].
    apply Z.eqb_eq in Ha. subst a. rewrite (IH Hrest). reflexivity.
Qed.

(** A pixel read from a canvas is one the canvas gives back as it
    is. *)
Lemma stored_pixel_fixed (data : list Z) (k : nat) (r g b a : Z) :
  pixelAt (stored data) k r g b a ->
  storedChannel r a = r /\ storedChannel g a = g /\ storedChannel b a = b.
Proof.
  intros Hpx. pose proof (stored_pixelAt _ _ _ _ _ _ Hpx) as Hpx'.
  rewrite stored_again in Hpx'.
  destruct Hpx as (Hr & Hg & Hb & _), Hpx' as (Hr' & Hg' & Hb' & _).
  repeat split; congruence.
Qed.

Section ProcessFrameFacts.

Variable resample : Image -> Z -> Z -> list Z.

Lemma processFrame_enabled (img : Image) (settings : ChromaSettings)
    (width height : Z) :
  enabled settings = true ->
  processFrame resample img settings width height
  = stored (keyedData resample img settings width height).
Proof. intros He. unfold processFrame. rewrite He. reflexivity. Qed.

(** The loop leaves the colour bytes of every pixel as they are. *)
Lemma keyedData_rgb (img : Image) (settings : ChromaSettings)
    (width height : Z) (k c : nat) :
  (c < 3)%nat ->
  keyedData resample img settings width height !! (4 * k + c)%nat
  = drawImage resample img width height !! (4 * k + c)%nat.
Proof.
  intros Hc. unfold keyedData. cbv zeta.
  apply chromaLoop_lookup_other. intros q. lia.
Qed.

(** The alpha byte of pixel [k] is decided by the distance of its
    colour to the key colour. *)
Lemma keyedData_alpha (img : Image) (settings : ChromaSettings)
    (width height : Z) (k : nat) (r g b a : Z) :
  pixelAt (drawImage resample img width height) k r g b a ->
  keyedData resample img settings width height !! (4 * k + 3)%nat
  = Some (keyedAlpha settings r g b a).
Proof.
  intros (Hr & Hg & Hb & Ha). unfold keyedData, keyedAlpha. cbv zeta.
  pose proof (lookup_lt_Some _ _ _ Ha) as Hlen.
  match goal with
  | |- chromaLoop ?f ?ky ?t ?s 0 ?d !! _ = _ =>
      pose proof (chromaLoop_lookup_alpha ky t s k f 0 d
                    ltac:(lia) ltac:(lia) ltac:(lia)) as Hloop
  end.
  rewrite Nat.mul_0_r in Hloop. rewrite Hloop.
  unfold chromaStep, readByte. rewrite Hr, Hg, Hb.
  repeat match goal with |- context [if ?c then _ else _] => destruct c end;
    rewrite ?list_lookup_insert_eq by lia; auto.
Qed.

Lemma keyedData_pixelAt (img : Image) (settings : ChromaSettings)
    (width height : Z) (k : nat) (r g b a : Z) :
  pixelAt (drawImage resample img width height) k r g b a ->
  pixelAt (keyedData resample img settings width height) k r g b
    (keyedAlpha settings r g b a).
Proof.
  intros Hpx.
  pose proof (keyedData_alpha img settings width height k r g b a Hpx) as Ha.
  destruct Hpx as (Hr & Hg & Hb & _).
  pose proof (keyedData_rgb img settings width height k 0 ltac:(lia)) as H0.
  rewrite Nat.add_0_r in H0.
  unfold pixelAt. rewrite H0, !keyedData_rgb by lia. auto.
Qed.

(** What the canvas holds of pixel [k] afterwards. *)
Lemma processFrame_pixelAt (img : Image) (settings : ChromaSettings)
    (width height : Z) (k : nat) (r g b a : Z) :
  enabled settings = true ->
  pixelAt (drawImage resample img width height) k r g b a ->
  let alpha := keyedAlpha settings r g b a in
  pixelAt (processFrame resample img settings width height) k
    (storedChannel r alpha) (storedChannel g alpha) (storedChannel b alpha)
    alpha.
Proof.
  intros He Hpx. cbv zeta. rewrite processFrame_enabled by assumption.
  apply stored_pixelAt. apply keyedData_pixelAt. exact Hpx.
Qed.

Lemma processFrame_alpha (img : Image) (settings : ChromaSettings)
    (width height : Z) (k : nat) (r g b a : Z) :
  enabled settings = true ->
  pixelAt (drawImage resample img width height) k r g b a ->
  let dist := colourDistance (hexToRgb (color settings))
                (JS.ofZ r) (JS.ofZ g) (JS.ofZ b) in
  let threshold := (similarity settings * JS.ofZ 442)%js in
  let smoothRange := (smoothness settings * JS.ofZ 100)%js in
  processFrame resample img settings width height !! (4 * k + 3)%nat
  = Some (if (dist <? threshold)%js then 0
          else if (dist <? threshold + smoothRange)%js
               then smoothAlpha dist threshold smoothRange
               else a).
Proof.
  intros He Hpx. cbv zeta.
  apply (processFrame_pixelAt img settings width height k r g b a He Hpx).
Qed.

(** C3, as the code has it.  For every pixel (r, g, b, a) read from the
    canvas and enabled chroma settings with key colour (kr, kg, kb), let
    [dist = sqrt((r-kr)^2 + (g-kg)^2 + (b-kb)^2)],
    [threshold = similarity x 442] and [smoothRange = smoothness x 100].
    In the data handed to [putImageData] the three colour bytes are
    always kept.  If [dist < threshold] the alpha byte becomes 0, and
    the canvas then holds (0, 0, 0, 0) for the pixel; else if
    [dist < threshold + smoothRange] it becomes
    [floor(((dist - threshold) / smoothRange) x 255)] as a clamped byte,
    the division first, and the canvas holds the colour as its
    premultiplied store gives it back for that alpha; else the pixel
    keeps its four bytes, in the data and on the canvas. *)
Theorem processFrame_pixel_cases (img : Image) (settings : ChromaSettings)
    (width height : Z) (k : nat) (r g b a kr kg kb : Z) :
  enabled settings = true ->
  hexToRgb (color settings) = (kr, kg, kb) ->
  pixelAt (drawImage resample img width height) k r g b a ->
  let data := keyedData resample img settings width height in
  let out := processFrame resample img settings width height in
  let dr := (JS.ofZ r - JS.ofZ kr)%js in
  let dg := (JS.ofZ g - JS.ofZ kg)%js in
  let db := (JS.ofZ b - JS.ofZ kb)%js in
  let dist := JS.sqrt (dr * dr + dg * dg + db * db)%js in
  let threshold := (similarity settings * JS.ofZ 442)%js in
  let smoothRange := (smoothness settings * JS.ofZ 100)%js in
  data !! (4 * k)%nat = Some r
  /\ data !! (4 * k + 1)%nat = Some g
  /\ data !! (4 * k + 2)%nat = Some b
  /\ ((dist <? threshold)%js = true ->
      data !! (4 * k + 3)%nat = Some 0 /\ pixelAt out k 0 0 0 0)
  /\ ((dist <? threshold)%js = false ->
      (dist <? threshold + smoothRange)%js = true ->
      let alpha :=
        JS.toUint8Clamp
          (JS.floor (((dist - threshold) / smoothRange) * JS.ofZ 255)%js) in
      data !! (4 * k + 3)%nat = Some alpha
      /\ pixelAt out k (storedChannel r alpha) (storedChannel g alpha)
           (storedChannel b alpha) alpha)
  /\ ((dist <? threshold)%js = false ->
      (dist <? threshold + smoothRange)%js = false ->
      data !! (4 * k + 3)%nat = Some a /\ pixelAt out k r g b a).
Proof.
  intros He Hkey Hpx. cbv zeta.
  pose proof (keyedData_pixelAt img settings width height k r g b a Hpx)
    as (Dr & Dg & Db & Da).
  pose proof (processFrame_pixelAt img settings width height k r g b a He Hpx)
    as Hout.
  cbv zeta in Hout. revert Da Hout.
  unfold keyedAlpha. rewrite Hkey. unfold colourDistance, smoothAlpha.
  intros Da Hout.
  split; [exact Dr|]. split; [exact Dg|]. split; [exact Db|].
  split; [|split].
  - intros H1. rewrite H1 in Da, Hout. split; [exact Da|exact Hout].
  - intros H1 H2. rewrite H1, H2 in Da, Hout. split; [exact Da|exact Hout].
  - intros H1 H2. rewrite H1, H2 in Da, Hout. split; [exact Da|].
    unfold drawImage in Hpx.
    destruct (stored_pixel_fixed _ _ _ _ _ _ Hpx) as (Er & Eg & Eb).
    rewrite Er, Eg, Eb in Hout. exact Hout.
Qed.

(** C7. When [smoothRange = smoothness x 100] is zero, the test of the
    smoothing branch fails whenever the test of the first branch has
    failed, so the branch and its division are never reached, for any
    pixel; the alpha byte is then 0 below the threshold and kept
    otherwise. *)
Theorem processFrame_zero_smoothRange (img : Image)
    (settings : ChromaSettings) (width height : Z) (k : nat) (r g b a : Z) :
  enabled settings = true ->
  JS.eqb (smoothness settings * JS.ofZ 100)%js (JS.ofZ 0) = true ->
  pixelAt (drawImage resample img width height) k r g b a ->
  let out := processFrame resample img settings width height in
  let dist := colourDistance (hexToRgb (color settings))
                (JS.ofZ r) (JS.ofZ g) (JS.ofZ b) in
  let threshold := (similarity settings * JS.ofZ 442)%js in
  let smoothRange := (smoothness settings * JS.ofZ 100)%js in
  negb (dist <? threshold)%js && (dist <? threshold + smoothRange)%js = false
  /\ out !! (4 * k + 3)%nat
     = Some (if (dist <? threshold)%js then 0 else a).
Proof.
  intros He Hz Hpx. cbv zeta.
  rewrite (processFrame_alpha img settings width height k r g b a He Hpx).
  cbv zeta. rewrite ltb_add_zero by assumption.
  match goal with |- context [(?d <? ?t)%js] => destruct (d <? t)%js end;
    split; reflexivity.
Qed.

Lemma drawImage_own_size (img : Image) :
  drawImage resample img (img_width img) (img_height img)
  = stored (img_data img).
Proof. unfold drawImage. rewrite !Z.eqb_refl. reflexivity. Qed.

Lemma processFrame_disabled (img : Image) (settings : ChromaSettings) :
  enabled settings = false ->
  processFrame resample img settings (img_width img) (img_height img)
  = stored (img_data img).
Proof.
  intros He. unfold processFrame. rewrite He. apply drawImage_own_size.
Qed.

Lemma applyChroma_disabled (settings : ChromaSettings) (img : Image) :
  enabled settings = false ->
  applyChroma resample settings img
  = {| img_width := img_width img; img_height := img_height img;
       img_data := stored (img_data img) |}.
Proof.
  intros He. unfold applyChroma. rewrite processFrame_disabled by assumption.
  reflexivity.
Qed.

(** With the chroma key disabled, a second pass finds what the first
    one left. *)
Lemma applyChroma_disabled_iter (settings : ChromaSettings) (img : Image)
    (n : nat) :
  enabled settings = false ->
  Nat.iter (S n) (applyChroma resample settings) img
  = applyChroma resample settings img.
Proof.
  intros He. induction n as [|n IH]; [reflexivity|].
  rewrite Nat.iter_succ, IH. rewrite !applyChroma_disabled by assumption.
  cbn [img_width img_height img_data]. rewrite stored_again. reflexivity.
Qed.

End ProcessFrameFacts.

(** ** Sprite sheet generation *)

Lemma sameNumber_eq (x y : JS.number) : sameNumber x y = true -> x = y.
Proof.
  destruct x as [s|s| |s m e], y as [s'|s'| |s' m' e']; cbn;
    try discriminate; try reflexivity.
  - intros H. apply Bool.eqb_prop in H. congruence.
  - intros H. apply Bool.eqb_prop in H. congruence.
  - intros H. apply andb_prop in H as [H He]. apply andb_prop in H as [Hs Hm].
    apply Bool.eqb_prop in Hs. apply Pos.eqb_eq in Hm. apply Z.eqb_eq in He.
    congruence.
Qed.

(** With at most 200 frames before a cell and between 1 and 50 columns,
    the range of the column field, the arithmetic on numbers gives the
    integer remainder, quotient and rounded-up quotient. *)
Lemma grid_integer (i c : nat) :
  (i <= 201)%nat -> (1 <= c <= 50)%nat ->
  JS.rem (JS.ofNat i) (JS.ofNat c) = JS.ofNat (i mod c)
  /\ JS.floor (JS.ofNat i / JS.ofNat c)%js = JS.ofNat (i / c)
  /\ JS.ceil (JS.ofNat i / JS.ofNat c)%js = JS.ofNat ((i + c - 1) / c).
Proof.
  intros Hi Hc.
  assert (Hall : forallb (fun i => forallb (gridAgrees i) (seq 1 50))
                   (seq 0 202) = true) by (vm_compute; reflexivity).
  rewrite forallb_forall in Hall.
  specialize (Hall i). rewrite forallb_forall in Hall.
  assert (Hg : gridAgrees i c = true).
  { apply Hall; apply in_seq; lia. }
  unfold gridAgrees in Hg.
  apply andb_prop in Hg as [Hg H3]. apply andb_prop in Hg as [H1 H2].
  auto using sameNumber_eq.
Qed.

Section SheetFacts.

Variable resample : Image -> Z -> Z -> list Z.

Local Abbreviation selectedOf st :=
  (filter (fun f : Frame => selected f = true) (frames st)).

(** With the page ready and a frame selected, generation goes through
    whatever the layout settings are. *)
Lemma generateSpriteSheet_generates (env : Env) (st : AppState)
    (first : Frame) (rest : list Frame) :
  envReady env = true ->
  selectedOf st = first :: rest ->
  let originalW := img_width (originalDataUrl first) in
  let originalH := img_height (originalDataUrl first) in
  let lay := computeLayout (sheetSettings st) originalW originalH
               (length (first :: rest)) in
  generateSpriteSheet resample env st
  = (setGenerating st
       (Some {| sh_layout := lay;
                sh_draws := packLoop resample (chromaSettings st)
                              (sheetSettings st) lay originalW originalH 0
                              (first :: rest) |})
       true false,
     []).
Proof.
  intros Henv Hsel. cbv zeta. unfold envReady in Henv.
  apply andb_prop in Henv as [Henv Hoff]. apply andb_prop in Henv as [Hc Hx].
  unfold generateSpriteSheet. rewrite Hc, Hx, Hoff, Hsel.
  destruct (frames st) as [|f fs] eqn:Hf.
  - discriminate.
  - reflexivity.
Qed.

Lemma packLoop_lookup chroma settings lay originalW originalH :
  forall (fs : list Frame) (start i : nat) (frame : Frame),
    fs !! i = Some frame ->
    packLoop resample chroma settings lay originalW originalH start fs !! i
    = Some (placeFrame resample chroma settings lay originalW originalH
              (start + i) frame).
Proof.
  induction fs as [|f fs IH]; intros start i frame Hi; [discriminate|].
  destruct i as [|i]; cbn [packLoop].
  - cbn in Hi. injection Hi as ->. rewrite Nat.add_0_r. reflexivity.
  - replace (start + S i)%nat with (S start + i)%nat by lia.
    exact (IH (S start) i frame Hi).
Qed.

Lemma packLoop_length chroma settings lay originalW originalH :
  forall (fs : list Frame) (start : nat),
    length (packLoop resample chroma settings lay originalW originalH start fs)
    = length fs.
Proof. induction fs as [|f fs IH]; intros start; cbn; [|rewrite IH]; reflexivity. Qed.

End SheetFacts.

Section SheetOutcomes.

Variable resample : Image -> Z -> Z -> list Z.

Local Abbreviation selectedOf st :=
  (filter (fun f : Frame => selected f = true) (frames st)).

(** Generation never touches the captured frames or the settings. *)
Lemma generateSpriteSheet_frames (env : Env) (st : AppState) :
  frames (fst (generateSpriteSheet resample env st)) = frames st
  /\ chromaSettings (fst (generateSpriteSheet resample env st))
     = chromaSettings st
  /\ sheetSettings (fst (generateSpriteSheet resample env st))
     = sheetSettings st.
Proof.
  unfold generateSpriteSheet.
  repeat match goal with
         | |- context [if ?c then _ else _] => destruct c
         | |- context [match ?l with [] => _ | _ :: _ => _ end] => destruct l
         end; cbn; auto.
Qed.


(** C6, as the code has it: with the sheet canvas mounted and no frame
    selected, no sheet is generated.  When there are frames, the alert
    "no frame selected" is raised and the generated sheet is unset;
    when there is no frame at all, the first guard reports "frames
    empty or canvas not mounted" on the console and leaves the state,
    with any sheet generated earlier, as it was. *)
Theorem generateSpriteSheet_nothing_selected (env : Env) (st : AppState) :
  sheetCanvasMounted env = true ->
  selectedOf st = [] ->
  (frames st <> [] ->
   generateSpriteSheet resample env st
   = (setGenerating st None (showSheetPreview st) false,
      [Alert MsgNoFrameSelected]))
  /\ (frames st = [] ->
      generateSpriteSheet resample env st
      = (st, [ConsoleError MsgNoFramesOrCanvas])).
Proof.
  intros Hc Hsel. unfold generateSpriteSheet. rewrite Hc, Hsel.
  destruct (frames st) as [|f fs]; split; intros H;
    try congruence; reflexivity.
Qed.

(** C9, as the code has it.  With [enabled = false] the chroma key
    applied to a frame at its own size gives an image with the same
    dimensions whose bytes are what the canvas gives back of the
    frame's: every alpha byte and every opaque pixel is as in the frame,
    and a frame whose pixels are all opaque comes back byte for byte.
    Applying it again any number of times gives the result of the first
    application.  The result is what the canvas holds: the frame keeps
    its own data, and the generation of a sheet changes no captured
    frame. *)
Theorem chroma_disabled_copy (settings : ChromaSettings) (frame : Frame)
    (n : nat) :
  enabled settings = false ->
  let img := originalDataUrl frame in
  let out := previewFrame resample frame settings in
  img_width out = img_width img
  /\ img_height out = img_height img
  /\ img_data out = stored (img_data img)
  /\ (forall k a,
        img_data img !! (4 * k + 3)%nat = Some a ->
        img_data out !! (4 * k + 3)%nat = Some a)
  /\ (forall k r g b,
        pixelAt (img_data img) k r g b 255 ->
        pixelAt (img_data out) k r g b 255)
  /\ (opaque (img_data img) = true -> out = img)
  /\ Nat.iter (S n) (applyChroma resample settings) img = out
  /\ (forall env st,
        frames (fst (generateSpriteSheet resample env st)) = frames st).
Proof.
  intros He. cbv zeta. unfold previewFrame.
  rewrite applyChroma_disabled_iter by assumption.
  rewrite applyChroma_disabled by assumption.
  cbn [img_width img_height img_data].
  split; [reflexivity|]. split; [reflexivity|]. split; [reflexivity|].
  split; [intros k a; apply stored_lookup_alpha|].
  split.
  { intros k r g b Hpx. exact (stored_pixelAt _ _ _ _ _ _ Hpx). }
  split.
  { intros Hop. rewrite (stored_opaque _ Hop).
    destruct (originalDataUrl frame); reflexivity. }
  split; [reflexivity|].
  intros env st. apply generateSpriteSheet_frames.
Qed.

End SheetOutcomes.

(** ** Rounding to binary64 *)

(** The operations on numbers return the correct rounding of the exact
    result, and rounding is monotone.  The exact results are rationals;
    [lra] and [nra] below are those of [Lqa]. *)

(** *** Powers of two *)

Lemma pow2_pos (k : Z) : (0 < pow2 k)%Q.
Proof. unfold pow2. apply Qpower_0_lt. reflexivity. Qed.

Lemma pow2_add (a b : Z) : (pow2 (a + b) == pow2 a * pow2 b)%Q.
Proof. unfold pow2. apply Qpower_plus. discriminate. Qed.

Lemma pow2_succ (k : Z) : (pow2 (k + 1) == 2 * pow2 k)%Q.
Proof. rewrite pow2_add. change (pow2 1) with 2%Q. ring. Qed.

Lemma pow2_pred (k : Z) : (pow2 (k - 1) == pow2 k / 2)%Q.
Proof.
  pose proof (pow2_succ (k - 1)) as H.
  replace (k - 1 + 1) with k in H by lia. rewrite H. field.
Qed.

Lemma pow2_Z (k : Z) : 0 <= k -> (pow2 k == inject_Z (2 ^ k))%Q.
Proof.
  intros Hk. unfold pow2. rewrite <- (Z2Nat.id k Hk).
  generalize (Z.to_nat k) as n. clear. intros n.
  induction n as [|n IH].
  - reflexivity.
  - rewrite Nat2Z.inj_succ, <- Z.add_1_r.
    rewrite Qpower_plus by discriminate.
    rewrite Z.pow_add_r by lia. rewrite inject_Z_mult, IH.
    reflexivity.
Qed.

Lemma pow2_le (a b : Z) : a <= b -> (pow2 a <= pow2 b)%Q.
Proof.
  intros H. replace b with (a + (b - a)) by lia.
  rewrite pow2_add. rewrite (pow2_Z (b - a)) by lia.
  assert (1 <= 2 ^ (b - a)) by (apply Z.pow_le_mono_r with (b := 0); lia).
  assert (H1 : (1 <= inject_Z (2 ^ (b - a)))%Q).
  { change 1%Q with (inject_Z 1). rewrite <- Zle_Qle. assumption. }
  pose proof (pow2_pos a). nra.
Qed.

Lemma pow2_lt (a b : Z) : a < b -> (pow2 a < pow2 b)%Q.
Proof.
  intros H. assert (Hle : (pow2 (a + 1) <= pow2 b)%Q) by (apply pow2_le; lia).
  rewrite pow2_succ in Hle. pose proof (pow2_pos a). lra.
Qed.

Lemma pow2_lt_inv (a b : Z) : (pow2 a < pow2 b)%Q -> a < b.
Proof.
  intros H. destruct (Z_lt_le_dec a b) as [|Hge]; [assumption|].
  apply pow2_le in Hge. lra.
Qed.

Lemma pow2_le_inv (a b : Z) : (pow2 a <= pow2 b)%Q -> a <= b.
Proof.
  intros H. destruct (Z_le_gt_dec a b) as [|Hgt]; [assumption|].
  assert (b < a) as Hlt by lia. apply pow2_lt in Hlt. lra.
Qed.

(** *** Digits *)

Lemma digits2_pos_bounds (p : positive) :
  2 ^ (Zpos (digits2_pos p) - 1) <= Zpos p < 2 ^ Zpos (digits2_pos p).
Proof.
  induction p as [p IH|p IH|]; cbn [digits2_pos].
  - rewrite Pos2Z.inj_succ. change (Zpos p~1) with (2 * Zpos p + 1).
    replace (Z.succ (Zpos (digits2_pos p)) - 1)
      with (Z.succ (Zpos (digits2_pos p) - 1)) by lia.
    rewrite !Z.pow_succ_r by lia.
    generalize dependent (2 ^ (Zpos (digits2_pos p) - 1)).
    generalize (2 ^ Zpos (digits2_pos p)). lia.
  - rewrite Pos2Z.inj_succ. change (Zpos p~0) with (2 * Zpos p).
    replace (Z.succ (Zpos (digits2_pos p)) - 1)
      with (Z.succ (Zpos (digits2_pos p) - 1)) by lia.
    rewrite !Z.pow_succ_r by lia.
    generalize dependent (2 ^ (Zpos (digits2_pos p) - 1)).
    generalize (2 ^ Zpos (digits2_pos p)). lia.
  - cbn. lia.
Qed.

Lemma Zdigits2_bounds (m : Z) :
  0 < m -> 2 ^ (Zdigits2 m - 1) <= m < 2 ^ Zdigits2 m.
Proof.
  destruct m as [|p|p]; try lia. intros _. apply digits2_pos_bounds.
Qed.

Lemma Zdigits2_nonneg (m : Z) : 0 <= Zdigits2 m.
Proof. destruct m; cbn; lia. Qed.

Lemma Zdigits2_unique (m k : Z) :
  2 ^ (k - 1) <= m < 2 ^ k -> 0 < m -> Zdigits2 m = k.
Proof.
  intros Hk Hm. pose proof (Zdigits2_bounds m Hm) as Hd.
  pose proof (Zdigits2_nonneg m).
  assert (0 <= k).
  { destruct (Z_lt_le_dec k 0) as [Hneg|]; [|assumption].
    rewrite (Z.pow_neg_r 2 k) in Hk by assumption. lia. }
  assert (Zdigits2 m - 1 < k).
  { apply (Z.pow_lt_mono_r_iff 2); lia. }
  assert (k - 1 < Zdigits2 m).
  { apply (Z.pow_lt_mono_r_iff 2); lia. }
  lia.
Qed.

Lemma fexp64_eq (e : Z) : fexp64 e = Z.max (e - 53) (-1074).
Proof. reflexivity. Qed.

(** *** Locations under right shifts *)

Lemma Loc_ext (y y' : Q) (M : Z) (l : location) :
  (y == y')%Q -> Loc y M l -> Loc y' M l.
Proof.
  intros Hy [Hb Hl]. split; [lra|].
  destruct l as [|[]]; lra.
Qed.

Lemma loc_of_shr_record_of_loc (M : Z) (l : location) :
  loc_of_shr_record (shr_record_of_loc M l) = l
  /\ shr_m (shr_record_of_loc M l) = M.
Proof. destruct l as [|[]]; split; reflexivity. Qed.

Lemma inject_Z_xO (p : positive) :
  (inject_Z (Zpos p~0) == 2 * inject_Z (Zpos p))%Q.
Proof.
  change (Zpos p~0) with (2 * Zpos p). rewrite inject_Z_mult. reflexivity.
Qed.

Lemma inject_Z_xI (p : positive) :
  (inject_Z (Zpos p~1) == 2 * inject_Z (Zpos p) + 1)%Q.
Proof.
  change (Zpos p~1) with (2 * Zpos p + 1).
  rewrite inject_Z_plus, inject_Z_mult. reflexivity.
Qed.

Lemma shr_1_LocR (y : Q) (mrs : shr_record) :
  LocR y mrs -> LocR (y * (1 # 2)) (shr_1 mrs).
Proof.
  destruct mrs as [m r s]. unfold LocR, Loc. cbn [shr_m].
  intros [Hm [Hb Hl]].
  destruct m as [|[p|p|]|p]; try lia;
    try pose proof (inject_Z_xO p) as HxO;
    try pose proof (inject_Z_xI p) as HxI;
    destruct r, s;
    cbn [shr_1 shr_m loc_of_shr_record orb] in *;
    change (inject_Z 0) with 0%Q in *;
    change (inject_Z 1) with 1%Q in *;
    (split; [lia|]); split; lra.
Qed.

Lemma iter_pos_shr_1_LocR (n : positive) :
  forall (y : Q) (mrs : shr_record),
    LocR y mrs -> LocR (y * pow2 (- Zpos n)) (SpecFloat.iter_pos shr_1 n mrs).
Proof.
  assert (Hext : forall y y' mrs, (y == y')%Q -> LocR y mrs -> LocR y' mrs).
  { intros y y' mrs Hy [H1 H2]. split; [assumption|].
    apply (Loc_ext y y'); assumption. }
  induction n as [n IH|n IH|]; intros y mrs H; cbn [SpecFloat.iter_pos].
  - apply (Hext (y * (1 # 2) * pow2 (- Zpos n) * pow2 (- Zpos n))%Q).
    + replace (- Zpos n~1) with (- 1 + - Zpos n + - Zpos n) by lia.
      rewrite !pow2_add. change (pow2 (- 1)) with (1 # 2)%Q. ring.
    + apply IH, IH, shr_1_LocR, H.
  - apply (Hext (y * pow2 (- Zpos n) * pow2 (- Zpos n))%Q).
    + replace (- Zpos n~0) with (- Zpos n + - Zpos n) by lia.
      rewrite !pow2_add. ring.
    + apply IH, IH, H.
  - apply shr_1_LocR, H.
Qed.

(** After [shr_fexp], the mantissa and its location are those of the
    same value at the exponent [fexp64 (Zdigits2 M + E)]. *)
Lemma shr_fexp_LocR (x : Q) (M E : Z) (l : location) :
  0 <= M -> Loc (x * pow2 (- E)) M l ->
  E <= fexp64 (Zdigits2 M + E) ->
  exists mrs,
    shr_fexp 53 1024 M E l = (mrs, fexp64 (Zdigits2 M + E))
    /\ LocR (x * pow2 (- fexp64 (Zdigits2 M + E))) mrs.
Proof.
  intros HM HL HE. unfold shr_fexp, shr.
  destruct (loc_of_shr_record_of_loc M l) as [Hl Hm].
  destruct (fexp64 (Zdigits2 M + E) - E) as [|n|n] eqn:Hn; try lia.
  - exists (shr_record_of_loc M l). split.
    + f_equal. lia.
    + split; [rewrite Hm; assumption|]. rewrite Hl, Hm.
      replace (fexp64 (Zdigits2 M + E)) with E by lia. assumption.
  - exists (SpecFloat.iter_pos shr_1 n (shr_record_of_loc M l)). split.
    + f_equal. lia.
    + assert (Hext : forall y y' mrs, (y == y')%Q -> LocR y mrs -> LocR y' mrs).
      { intros y y' mrs Hy [H1 H2]. split; [assumption|].
        apply (Loc_ext y y'); assumption. }
      apply (Hext (x * pow2 (- E) * pow2 (- Zpos n))%Q).
      * replace (- fexp64 (Zdigits2 M + E)) with (- E + - Zpos n) by lia.
        rewrite pow2_add. ring.
      * apply iter_pos_shr_1_LocR. split; rewrite ?Hl, Hm; assumption.
Qed.

(** Moving between integers and rationals. *)

Lemma inject_Z_le (a b : Z) : a <= b -> (inject_Z a <= inject_Z b)%Q.
Proof. intros H. rewrite <- Zle_Qle. assumption. Qed.

Lemma inject_Z_lt (a b : Z) : a < b -> (inject_Z a < inject_Z b)%Q.
Proof. intros H. rewrite <- Zlt_Qlt. assumption. Qed.

Lemma inject_Z_le_inv (a b : Z) : (inject_Z a <= inject_Z b)%Q -> a <= b.
Proof. intros H. rewrite Zle_Qle. assumption. Qed.

Lemma inject_Z_lt_inv (a b : Z) : (inject_Z a < inject_Z b)%Q -> a < b.
Proof. intros H. rewrite Zlt_Qlt. assumption. Qed.

Lemma inject_Z_succ (a : Z) : (inject_Z (a + 1) == inject_Z a + 1)%Q.
Proof. rewrite inject_Z_plus. reflexivity. Qed.

Lemma pow2_cancel (e : Z) : (pow2 (- e) * pow2 e == 1)%Q.
Proof. rewrite <- pow2_add. replace (- e + e) with 0 by lia. reflexivity. Qed.

Lemma scale_back (x : Q) (e : Z) : (x * pow2 (- e) * pow2 e == x)%Q.
Proof. rewrite <- Qmult_assoc, pow2_cancel. ring. Qed.

Lemma scale_forth (x : Q) (e : Z) : (x * pow2 e * pow2 (- e) == x)%Q.
Proof.
  rewrite <- Qmult_assoc, (Qmult_comm (pow2 e)), pow2_cancel. ring.
Qed.

(** [a <= x * 2^(-e)] is [a * 2^e <= x], and so on. *)
Lemma scale_le_l (a x : Q) (e : Z) :
  (a <= x * pow2 (- e))%Q <-> (a * pow2 e <= x)%Q.
Proof.
  pose proof (pow2_pos e). pose proof (pow2_pos (- e)). split; intros Hle.
  - rewrite <- (scale_back x e). apply Qmult_le_compat_r; lra.
  - rewrite <- (scale_forth a e). apply Qmult_le_compat_r; lra.
Qed.

Lemma scale_lt_l (a x : Q) (e : Z) :
  (a < x * pow2 (- e))%Q <-> (a * pow2 e < x)%Q.
Proof.
  pose proof (pow2_pos e). pose proof (pow2_pos (- e)). split; intros Hle.
  - rewrite <- (scale_back x e). apply Qmult_lt_compat_r; lra.
  - rewrite <- (scale_forth a e). apply Qmult_lt_compat_r; lra.
Qed.


Lemma scale_lt_r (a x : Q) (e : Z) :
  (x * pow2 (- e) < a)%Q <-> (x < a * pow2 e)%Q.
Proof.
  pose proof (pow2_pos e). pose proof (pow2_pos (- e)). split; intros Hle.
  - rewrite <- (scale_back x e). apply Qmult_lt_compat_r; lra.
  - rewrite <- (scale_forth a e). apply Qmult_lt_compat_r; lra.
Qed.

Lemma Cexp_le (x1 x2 : Q) (c1 c2 : Z) :
  Cexp x1 c1 -> Cexp x2 c2 -> (x1 <= x2)%Q -> c1 <= c2.
Proof.
  intros (H1 & H1u & H1l) (H2 & H2u & H2l) Hx.
  destruct H1l as [-> | H1l]; [lia|].
  assert (Hlt : (pow2 (c1 + 52) < pow2 (c2 + 53))%Q) by lra.
  apply pow2_lt_inv in Hlt. lia.
Qed.

Lemma Zdigits2_Q (M : Z) :
  0 < M ->
  (pow2 (Zdigits2 M - 1) <= inject_Z M)%Q
  /\ (inject_Z M + 1 <= pow2 (Zdigits2 M))%Q.
Proof.
  intros HM. pose proof (Zdigits2_bounds M HM) as [Hl Hu].
  pose proof (Zdigits2_nonneg M).
  assert (Zdigits2 M <> 0).
  { intros H0. rewrite H0 in Hu. cbn in Hu. lia. }
  split.
  - rewrite pow2_Z by lia. apply inject_Z_le. assumption.
  - rewrite pow2_Z by lia. rewrite <- inject_Z_succ. apply inject_Z_le. lia.
Qed.

Lemma Cexp_of_Loc (x : Q) (M E : Z) (l : location) :
  0 <= M -> Loc (x * pow2 (- E)) M l ->
  E <= fexp64 (Zdigits2 M + E) ->
  Cexp x (fexp64 (Zdigits2 M + E)).
Proof.
  intros HM [[Hl Hu] _] HE. rewrite fexp64_eq in *.
  apply scale_le_l in Hl. apply scale_lt_r in Hu.
  destruct (Z.eq_dec M 0) as [-> | Hne].
  - cbn [Zdigits2] in *. change (inject_Z 0) with 0%Q in *.
    assert (Hc : Z.max (0 + E - 53) (-1074) = -1074) by lia.
    rewrite Hc. split; [lia|]. split; [|left; reflexivity].
    assert (pow2 E <= pow2 (-1074 + 53))%Q by (apply pow2_le; lia).
    lra.
  - destruct (Zdigits2_Q M ltac:(lia)) as [Hdl Hdu].
    set (d := Zdigits2 M) in *. set (c := Z.max (d + E - 53) (-1074)).
    pose proof (pow2_pos E) as HpE.
    assert (Hxl : (pow2 (d - 1 + E) <= x)%Q).
    { rewrite pow2_add. nra. }
    assert (Hxu : (x < pow2 (d + E))%Q).
    { rewrite pow2_add. nra. }
    split; [lia|]. split.
    + assert (pow2 (d + E) <= pow2 (c + 53))%Q by (apply pow2_le; lia). lra.
    + destruct (Z.eq_dec c (-1074)) as [|Hc]; [left; assumption|right].
      assert (pow2 (c + 52) <= pow2 (d - 1 + E))%Q by (apply pow2_le; lia).
      lra.
Qed.

Lemma binary_round_aux_unfold (s : bool) (M E : Z) (l : location) :
  binary_round_aux 53 1024 s M E l
  = let '(mrs, e) := shr_fexp 53 1024 M E l in
    roundFinish s (round_nearest_even (shr_m mrs) (loc_of_shr_record mrs)) e.
Proof.
  unfold binary_round_aux, roundFinish.
  destruct (shr_fexp 53 1024 M E l) as [mrs e]. reflexivity.
Qed.

Lemma binary_round_aux_Rounded (s : bool) (x : Q) (M E : Z) (l : location) :
  0 <= M -> Loc (x * pow2 (- E)) M l ->
  E <= fexp64 (Zdigits2 M + E) ->
  exists c M' l',
    Rounded x c M' l'
    /\ binary_round_aux 53 1024 s M E l
       = roundFinish s (round_nearest_even M' l') c.
Proof.
  intros HM HL HE.
  destruct (shr_fexp_LocR x M E l HM HL HE) as (mrs & Hshr & Hm & Hloc).
  exists (fexp64 (Zdigits2 M + E)), (shr_m mrs), (loc_of_shr_record mrs).
  split.
  - split; [eapply Cexp_of_Loc; eassumption|]. split; assumption.
  - rewrite binary_round_aux_unfold, Hshr. reflexivity.
Qed.

Lemma round_nearest_even_range (M : Z) (l : location) :
  M <= round_nearest_even M l <= M + 1.
Proof.
  unfold round_nearest_even. destruct l as [|[]]; try lia.
  destruct (Z.even M); lia.
Qed.

Lemma Rounded_mantissa (x : Q) (c M : Z) (l : location) :
  Rounded x c M l ->
  0 <= M < 2 ^ 53 /\ (c <> -1074 -> 2 ^ 52 <= M).
Proof.
  intros ((Hc & Hu & Hl) & HM & [[Hyl Hyu] _]).
  apply scale_le_l in Hyl. apply scale_lt_r in Hyu.
  pose proof (pow2_pos c) as Hpc.
  split; [split; [assumption|]|].
  - apply inject_Z_lt_inv. rewrite <- pow2_Z by lia.
    rewrite pow2_add in Hu.
    assert (inject_Z M * pow2 c < pow2 c * pow2 53)%Q by lra.
    nra.
  - intros Hne. destruct Hl as [|Hl]; [contradiction|].
    rewrite pow2_add in Hl.
    assert (H : (pow2 52 < inject_Z M + 1)%Q) by nra.
    rewrite pow2_Z, <- inject_Z_succ in H by lia.
    apply inject_Z_lt_inv in H. lia.
Qed.

Lemma Zdigits2_le_53 (R : Z) : 0 < R < 2 ^ 53 -> Zdigits2 R <= 53.
Proof.
  intros HR. pose proof (Zdigits2_bounds R ltac:(lia)) as [Hl _].
  pose proof (Zdigits2_nonneg R).
  assert (Zdigits2 R - 1 < 53); [|lia].
  apply (Z.pow_lt_mono_r_iff 2); lia.
Qed.

Lemma roundFinish_zero (s : bool) (c : Z) :
  -1074 <= c -> roundFinish s 0 c = S754_zero s.
Proof.
  intros Hc. unfold roundFinish, shr_fexp, shr. cbn [Zdigits2].
  rewrite fexp64_eq.
  destruct (Z.max (0 + c - 53) (-1074) - c) as [|n|n] eqn:Hn; try lia;
    reflexivity.
Qed.

Lemma roundFinish_small (s : bool) (R c : Z) :
  0 < R < 2 ^ 53 -> -1074 <= c ->
  roundFinish s R c
  = if c <=? 971 then S754_finite s (Z.to_pos R) c else S754_infinity s.
Proof.
  intros HR Hc. pose proof (Zdigits2_le_53 R HR) as Hd.
  unfold roundFinish, shr_fexp, shr. rewrite fexp64_eq.
  destruct (Z.max (Zdigits2 R + c - 53) (-1074) - c) as [|n|n] eqn:Hn;
    try lia; cbn [shr_record_of_loc shr_m];
    destruct R as [|p|p]; try lia; reflexivity.
Qed.

Lemma roundFinish_carry (s : bool) (c : Z) :
  -1074 <= c ->
  roundFinish s (2 ^ 53) c
  = if c + 1 <=? 971 then S754_finite s (Z.to_pos (2 ^ 52)) (c + 1)
    else S754_infinity s.
Proof.
  intros Hc. unfold roundFinish, shr_fexp, shr.
  change (Zdigits2 (2 ^ 53)) with 54. rewrite fexp64_eq.
  replace (Z.max (54 + c - 53) (-1074) - c) with 1 by lia.
  reflexivity.
Qed.

Lemma roundFinish_carried (s : bool) (R c : Z) :
  0 <= R <= 2 ^ 53 -> -1074 <= c ->
  roundFinish s R c
  = let '(R', c') := carried R c in
    if R' =? 0 then S754_zero s
    else if c' <=? 971 then S754_finite s (Z.to_pos R') c'
         else S754_infinity s.
Proof.
  intros HR Hc. unfold carried.
  destruct (Z.eqb_spec R (2 ^ 53)) as [-> | Hne].
  - rewrite roundFinish_carry by assumption. reflexivity.
  - destruct (Z.eqb_spec R 0) as [-> | Hnz].
    + apply roundFinish_zero. assumption.
    + apply roundFinish_small; lia.
Qed.

Lemma carried_range (R c : Z) :
  0 <= R <= 2 ^ 53 -> -1074 <= c -> (c <> -1074 -> 2 ^ 52 <= R) ->
  let '(R', c') := carried R c in
  0 <= R' < 2 ^ 53 /\ -1074 <= c' /\ (c' <> -1074 -> 2 ^ 52 <= R')
  /\ (R = 0 <-> R' = 0).
Proof.
  intros HR Hc Hn. unfold carried.
  destruct (Z.eqb_spec R (2 ^ 53)) as [-> | Hne]; lia.
Qed.

Lemma canonical_53 (R c : Z) :
  0 < R < 2 ^ 53 -> -1074 <= c -> (c <> -1074 -> 2 ^ 52 <= R) ->
  fexp64 (Zdigits2 R + c) = c.
Proof.
  intros HR Hc Hn. rewrite fexp64_eq.
  pose proof (Zdigits2_le_53 R HR).
  destruct (Z.eq_dec c (-1074)) as [-> | Hne]; [lia|].
  rewrite (Zdigits2_unique R 53) by lia. lia.
Qed.

Lemma roundFinish_valid (s : bool) (R c : Z) :
  0 <= R <= 2 ^ 53 -> -1074 <= c -> (c <> -1074 -> 2 ^ 52 <= R) ->
  valid_binary 53 1024 (roundFinish s R c) = true.
Proof.
  intros HR Hc Hn. rewrite roundFinish_carried by assumption.
  pose proof (carried_range R c HR Hc Hn) as Hcar.
  destruct (carried R c) as [R' c'].
  destruct Hcar as (HR' & Hc' & Hn' & _).
  destruct (Z.eqb_spec R' 0); [reflexivity|].
  destruct (Z.leb_spec c' 971); [|reflexivity].
  cbn [valid_binary]. unfold bounded, canonical_mantissa.
  destruct R' as [|p|p]; try lia. cbn [Z.to_pos].
  change (Zpos (digits2_pos p)) with (Zdigits2 (Zpos p)).
  rewrite canonical_53 by (assumption || lia).
  rewrite Z.eqb_refl. apply Z.leb_le. lia.
Qed.

(** A rounded mantissa at a lower exponent, or a smaller one at the same
    exponent, gives a smaller number. *)
Lemma roundFinish_le (R1 c1 R2 c2 : Z) :
  0 <= R1 <= 2 ^ 53 -> 0 <= R2 <= 2 ^ 53 ->
  -1074 <= c1 -> -1074 <= c2 ->
  (c2 <> -1074 -> 2 ^ 52 <= R2) ->
  c1 < c2 \/ (c1 = c2 /\ R1 <= R2) ->
  SFleb (roundFinish false R1 c1) (roundFinish false R2 c2) = true.
Proof.
  intros HR1 HR2 Hc1 Hc2 Hn2 Hord.
  rewrite !roundFinish_carried by assumption.
  assert (Hlex : let '(R1', c1') := carried R1 c1 in
                 let '(R2', c2') := carried R2 c2 in
                 0 <= R1' < 2 ^ 53 /\ 0 <= R2' < 2 ^ 53
                 /\ (R1' <> 0 -> R2' <> 0)
                 /\ (c1' < c2' \/ (c1' = c2' /\ R1' <= R2'))).
  { unfold carried.
    destruct (Z.eqb_spec R1 (2 ^ 53)), (Z.eqb_spec R2 (2 ^ 53)); lia. }
  destruct (carried R1 c1) as [R1' c1'], (carried R2 c2) as [R2' c2'].
  destruct Hlex as (H1 & H2 & Hnz & Hlex).
  destruct (Z.eqb_spec R1' 0) as [-> | Hz1].
  - destruct (R2' =? 0); [reflexivity|].
    destruct (c2' <=? 971); reflexivity.
  - destruct (Z.eqb_spec R2' 0) as [-> | Hz2]; [lia|].
    destruct (Z.leb_spec c1' 971), (Z.leb_spec c2' 971); try reflexivity;
      try lia.
    destruct R1' as [|p1|p1], R2' as [|p2|p2]; try lia.
    cbn [Z.to_pos]. unfold SFleb, SFcompare.
    destruct (Z.compare_spec c1' c2'); try reflexivity; try lia.
    change (Pos.compare_cont Eq p1 p2) with (Pos.compare p1 p2).
    destruct (Pos.compare_spec p1 p2); try reflexivity; lia.
Qed.

(** Rounding to nearest even is monotone at a fixed exponent. *)
Lemma round_nearest_even_le (y1 y2 : Q) (M1 M2 : Z) (l1 l2 : location) :
  Loc y1 M1 l1 -> Loc y2 M2 l2 -> (y1 <= y2)%Q ->
  round_nearest_even M1 l1 <= round_nearest_even M2 l2.
Proof.
  intros [[H1l H1u] H1] [[H2l H2u] H2] Hy.
  assert (HM : M1 <= M2).
  { assert (H : (inject_Z M1 < inject_Z (M2 + 1))%Q)
      by (rewrite inject_Z_succ; lra).
    apply inject_Z_lt_inv in H. lia. }
  pose proof (round_nearest_even_range M1 l1).
  pose proof (round_nearest_even_range M2 l2).
  destruct (Z.eq_dec M1 M2) as [-> | Hne]; [|lia].
  unfold round_nearest_even.
  destruct l1 as [|[]], l2 as [|[]]; destruct (Z.even M2); try lia; lra.
Qed.

(** Rounding is monotone: the larger value is rounded to the larger
    number. *)
Lemma Rounded_le (x1 x2 : Q) (c1 c2 M1 M2 : Z) (l1 l2 : location) :
  Rounded x1 c1 M1 l1 -> Rounded x2 c2 M2 l2 -> (x1 <= x2)%Q ->
  SFleb (roundFinish false (round_nearest_even M1 l1) c1)
        (roundFinish false (round_nearest_even M2 l2) c2) = true.
Proof.
  intros HR1 HR2 Hx.
  pose proof (Rounded_mantissa _ _ _ _ HR1) as [Hm1 Hn1].
  pose proof (Rounded_mantissa _ _ _ _ HR2) as [Hm2 Hn2].
  pose proof (round_nearest_even_range M1 l1).
  pose proof (round_nearest_even_range M2 l2).
  destruct HR1 as (HC1 & _ & HL1), HR2 as (HC2 & _ & HL2).
  pose proof (Cexp_le _ _ _ _ HC1 HC2 Hx) as Hc.
  destruct HC1 as (Hc1 & _), HC2 as (Hc2 & _).
  apply roundFinish_le; try lia.
  destruct (Z.eq_dec c1 c2) as [-> | Hne]; [right|left; lia].
  split; [reflexivity|].
  apply (round_nearest_even_le (x1 * pow2 (- c2)) (x2 * pow2 (- c2)));
    try assumption.
  pose proof (pow2_pos (- c2)). apply Qmult_le_compat_r; lra.
Qed.

Lemma Rounded_valid (s : bool) (x : Q) (c M : Z) (l : location) :
  Rounded x c M l ->
  valid_binary 53 1024 (roundFinish s (round_nearest_even M l) c) = true.
Proof.
  intros HR. pose proof (Rounded_mantissa _ _ _ _ HR) as [Hm Hn].
  pose proof (round_nearest_even_range M l).
  destruct HR as ((Hc & _) & _).
  apply roundFinish_valid; lia.
Qed.

(** *** The value of a number and the order of numbers *)

Lemma valid_finite (s : bool) (m : positive) (e : Z) :
  valid_binary 53 1024 (S754_finite s m e) = true ->
  -1074 <= e <= 971 /\ Zpos m < 2 ^ 53
  /\ (e <> -1074 -> 2 ^ 52 <= Zpos m)
  /\ fexp64 (Zdigits2 (Zpos m) + e) = e.
Proof.
  cbn [valid_binary]. unfold bounded, canonical_mantissa.
  intros H. apply andb_prop in H as [Hc Hb].
  apply Z.eqb_eq in Hc. apply Z.leb_le in Hb.
  change (Zpos (digits2_pos m)) with (Zdigits2 (Zpos m)) in Hc.
  pose proof (Zdigits2_bounds (Zpos m) ltac:(lia)) as [Hl Hu].
  pose proof (Zdigits2_nonneg (Zpos m)).
  rewrite fexp64_eq in Hc.
  split; [lia|]. split; [|split; [|rewrite fexp64_eq; assumption]].
  - assert (Hd : Zdigits2 (Zpos m) <= 53) by lia.
    assert (2 ^ Zdigits2 (Zpos m) <= 2 ^ 53)
      by (apply Z.pow_le_mono_r; lia).
    lia.
  - intros Hne. assert (Hd : Zdigits2 (Zpos m) = 53) by lia.
    rewrite Hd in Hl. exact Hl.
Qed.

Lemma value_finite_pos (m : positive) (e : Z) :
  (0 < inject_Z (Zpos m) * pow2 e)%Q.
Proof.
  pose proof (pow2_pos e). assert (0 < inject_Z (Zpos m))%Q.
  { change 0%Q with (inject_Z 0). apply inject_Z_lt. lia. }
  nra.
Qed.

Lemma Qcompare_Lt (a b : Q) : (a < b)%Q -> (a ?= b)%Q = Lt.
Proof. intros H. apply (proj1 (Qlt_alt a b)). exact H. Qed.

Lemma Qcompare_Gt (a b : Q) : (b < a)%Q -> (a ?= b)%Q = Gt.
Proof. intros H. apply (proj1 (Qgt_alt a b)). exact H. Qed.

Lemma Qcompare_Eq (a b : Q) : (a == b)%Q -> (a ?= b)%Q = Eq.
Proof. intros H. apply (proj1 (Qeq_alt a b)). exact H. Qed.

(** Canonical mantissas and exponents are ordered like their values. *)
Lemma compare_canonical (m1 m2 : positive) (e1 e2 : Z) :
  valid_binary 53 1024 (S754_finite false m1 e1) = true ->
  valid_binary 53 1024 (S754_finite false m2 e2) = true ->
  match Z.compare e1 e2 with
  | Lt => Lt
  | Gt => Gt
  | Eq => Pos.compare_cont Eq m1 m2
  end
  = (inject_Z (Zpos m1) * pow2 e1 ?= inject_Z (Zpos m2) * pow2 e2)%Q.
Proof.
  intros H1 H2.
  apply valid_finite in H1 as (He1 & Hm1 & Hn1 & _).
  apply valid_finite in H2 as (He2 & Hm2 & Hn2 & _).
  assert (Hlow : forall m e m' e' : Z,
             0 < m < 2 ^ 53 -> 2 ^ 52 <= m' -> e < e' ->
             (inject_Z m * pow2 e < inject_Z m' * pow2 e')%Q).
  { intros m e m' e' Hm Hm' He.
    assert (Ha : (inject_Z m < pow2 53)%Q)
      by (rewrite pow2_Z by lia; apply inject_Z_lt; lia).
    assert (Hb : (pow2 52 <= inject_Z m')%Q)
      by (rewrite pow2_Z by lia; apply inject_Z_le; lia).
    assert (Hc : (pow2 (53 + e) <= pow2 (52 + e'))%Q) by (apply pow2_le; lia).
    rewrite !pow2_add in Hc.
    pose proof (pow2_pos e). pose proof (pow2_pos e'). nra. }
  symmetry. destruct (Z.compare_spec e1 e2) as [-> | Hlt | Hgt].
  - change (Pos.compare_cont Eq m1 m2) with (Pos.compare m1 m2).
    pose proof (pow2_pos e2).
    destruct (Pos.compare_spec m1 m2) as [-> | Hm | Hm].
    + apply Qcompare_Eq. reflexivity.
    + apply Qcompare_Lt. apply Qmult_lt_compat_r; [assumption|].
      apply inject_Z_lt. lia.
    + apply Qcompare_Gt. apply Qmult_lt_compat_r; [assumption|].
      apply inject_Z_lt. lia.
  - apply Qcompare_Lt. apply Hlow; lia.
  - apply Qcompare_Gt. apply Hlow; lia.
Qed.

Lemma Qcompare_opp (a b : Q) : (- a ?= - b)%Q = CompOpp (a ?= b)%Q.
Proof.
  destruct (Qcompare_spec a b) as [H | H | H]; cbn [CompOpp].
  - apply Qcompare_Eq. rewrite H. reflexivity.
  - apply Qcompare_Gt. lra.
  - apply Qcompare_Lt. lra.
Qed.

Lemma value_neg (m : positive) (e : Z) :
  (inject_Z (cond_Zopp true (Zpos m)) * pow2 e
   == - (inject_Z (Zpos m) * pow2 e))%Q.
Proof.
  cbn [cond_Zopp Z.opp]. change (Zneg m) with (- Zpos m).
  rewrite inject_Z_opp. ring.
Qed.

(** Valid finite numbers compare like their values. *)
Lemma SFcompare_value (x y : spec_float) :
  valid_binary 53 1024 x = true -> valid_binary 53 1024 y = true ->
  isFinite x = true -> isFinite y = true ->
  SFcompare x y = Some (value x ?= value y)%Q.
Proof.
  intros Hx Hy Hfx Hfy.
  destruct x as [sx|sx| |sx mx ex], y as [sy|sy| |sy my ey];
    try discriminate; cbn [SFcompare value].
  - reflexivity.
  - f_equal. pose proof (value_finite_pos my ey). destruct sy.
    + symmetry. apply Qcompare_Gt. rewrite value_neg. lra.
    + symmetry. apply Qcompare_Lt. assumption.
  - f_equal. pose proof (value_finite_pos mx ex). destruct sx.
    + symmetry. apply Qcompare_Lt. rewrite value_neg. lra.
    + symmetry. apply Qcompare_Gt. assumption.
  - f_equal.
    pose proof (value_finite_pos mx ex). pose proof (value_finite_pos my ey).
    destruct sx, sy.
    + rewrite (Qcompare_comp _ _ (value_neg mx ex) _ _ (value_neg my ey)).
      rewrite Qcompare_opp, <- (compare_canonical mx my ex ey) by assumption.
      destruct (Z.compare ex ey); reflexivity.
    + symmetry. apply Qcompare_Lt. rewrite value_neg. cbn [cond_Zopp]. lra.
    + symmetry. apply Qcompare_Gt. rewrite value_neg. cbn [cond_Zopp]. lra.
    + apply compare_canonical; assumption.
Qed.

Lemma SFleb_value (x y : spec_float) :
  valid_binary 53 1024 x = true -> valid_binary 53 1024 y = true ->
  isFinite x = true -> isFinite y = true ->
  SFleb x y = true -> (value x <= value y)%Q.
Proof.
  intros Hx Hy Hfx Hfy. unfold SFleb.
  rewrite SFcompare_value by assumption.
  destruct (Qcompare_spec (value x) (value y)); try discriminate; lra.
Qed.

Lemma SFltb_false_value (x y : spec_float) :
  valid_binary 53 1024 x = true -> valid_binary 53 1024 y = true ->
  isFinite x = true -> isFinite y = true ->
  SFltb x y = false -> (value y <= value x)%Q.
Proof.
  intros Hx Hy Hfx Hfy. unfold SFltb.
  rewrite SFcompare_value by assumption.
  destruct (Qcompare_spec (value x) (value y)); try discriminate; lra.
Qed.

(** *** Correctly rounded results *)

Lemma Rounded_ext (x x' : Q) (c M : Z) (l : location) :
  (x == x')%Q -> Rounded x c M l -> Rounded x' c M l.
Proof.
  intros Hx ((Hc & Hu & Hl) & HM & HL). split; [|split; [assumption|]].
  - split; [assumption|]. split; [lra|].
    destruct Hl as [|Hl]; [left; assumption|right; lra].
  - apply (Loc_ext (x * pow2 (- c))); [|assumption]. rewrite Hx. reflexivity.
Qed.

Lemma RoundOf_ext (x x' : Q) (r : spec_float) :
  (x == x')%Q -> RoundOf x r -> RoundOf x' r.
Proof.
  intros Hx (c & M & l & HR & Hr). exists c, M, l.
  split; [apply (Rounded_ext x); assumption|assumption].
Qed.

Lemma RoundOf_le (x1 x2 : Q) (r1 r2 : spec_float) :
  RoundOf x1 r1 -> RoundOf x2 r2 -> (x1 <= x2)%Q -> SFleb r1 r2 = true.
Proof.
  intros (c1 & M1 & l1 & H1 & ->) (c2 & M2 & l2 & H2 & ->) Hx.
  eapply Rounded_le; eassumption.
Qed.

Lemma RoundOf_valid (x : Q) (r : spec_float) :
  RoundOf x r -> valid_binary 53 1024 r = true.
Proof. intros (c & M & l & H & ->). eapply Rounded_valid; eassumption. Qed.

Lemma RoundOf_nonneg (x : Q) (r : spec_float) :
  RoundOf x r -> nonneg r = true.
Proof.
  intros (c & M & l & H & ->).
  pose proof (Rounded_mantissa _ _ _ _ H) as [Hm _].
  pose proof (round_nearest_even_range M l).
  destruct H as ((Hc & _) & _).
  rewrite roundFinish_carried by lia.
  destruct (carried (round_nearest_even M l) c) as [R' c'].
  destruct (R' =? 0); [reflexivity|]. destruct (c' <=? 971); reflexivity.
Qed.

Lemma RoundOf_binary_round_aux (x : Q) (M E : Z) (l : location) :
  0 <= M -> Loc (x * pow2 (- E)) M l ->
  E <= fexp64 (Zdigits2 M + E) ->
  RoundOf x (binary_round_aux 53 1024 false M E l).
Proof.
  intros HM HL HE.
  destruct (binary_round_aux_Rounded false x M E l HM HL HE)
    as (c & M' & l' & HR & Heq).
  exists c, M', l'. split; assumption.
Qed.

Lemma Loc_exact (M : Z) : Loc (inject_Z M) M loc_Exact.
Proof. split; [lra|reflexivity]. Qed.

(** A valid positive number is its own rounding. *)
Lemma RoundOf_exact (m : positive) (e : Z) :
  valid_binary 53 1024 (S754_finite false m e) = true ->
  RoundOf (inject_Z (Zpos m) * pow2 e) (S754_finite false m e).
Proof.
  intros Hv. pose proof (valid_finite _ _ _ Hv) as (He & Hm & Hn & Hc).
  assert (HL : Loc (inject_Z (Zpos m) * pow2 e * pow2 (- e)) (Zpos m) loc_Exact).
  { apply (Loc_ext (inject_Z (Zpos m))); [|apply Loc_exact].
    rewrite scale_forth. reflexivity. }
  exists e, (Zpos m), loc_Exact. split.
  - split; [|split; [lia|exact HL]].
    assert (HE : e <= fexp64 (Zdigits2 (Zpos m) + e)) by lia.
    assert (H0 : 0 <= Zpos m) by lia.
    pose proof (Cexp_of_Loc _ _ _ loc_Exact H0 HL HE) as HC.
    rewrite Hc in HC. exact HC.
  - cbn [round_nearest_even]. rewrite roundFinish_small by lia.
    destruct (Z.leb_spec e 971); [reflexivity|lia].
Qed.

Lemma RoundOf_zero : RoundOf 0 (S754_zero false).
Proof.
  exists (-1074), 0, loc_Exact. split; [|reflexivity].
  split; [|split; [lia|]].
  - split; [lia|]. split; [apply pow2_pos|left; reflexivity].
  - apply (Loc_ext (inject_Z 0)); [|apply Loc_exact].
    change (inject_Z 0) with 0%Q. ring.
Qed.

Lemma Pos_iter_xO (m d : positive) :
  Zpos (Pos.iter xO m d) = Zpos m * 2 ^ Zpos d.
Proof.
  induction d as [|d IH] using Pos.peano_ind.
  - cbn [Pos.iter]. change (Zpos m~0) with (2 * Zpos m). lia.
  - rewrite Pos.iter_succ, Pos2Z.inj_succ, Z.pow_succ_r by lia.
    change (Zpos (Pos.iter xO m d)~0) with (2 * Zpos (Pos.iter xO m d)).
    rewrite IH. ring.
Qed.

Lemma Zdigits2_shift (m d : Z) :
  0 < m -> 0 <= d -> Zdigits2 (m * 2 ^ d) = Zdigits2 m + d.
Proof.
  intros Hm Hd. pose proof (Zdigits2_bounds m Hm) as [Hl Hu].
  pose proof (Zdigits2_nonneg m).
  assert (Zdigits2 m <> 0).
  { intros H0. rewrite H0 in Hu. cbn in Hu. lia. }
  assert (0 < 2 ^ d) by (apply Z.pow_pos_nonneg; lia).
  apply Zdigits2_unique; [|nia].
  replace (Zdigits2 m + d - 1) with (Zdigits2 m - 1 + d) by lia.
  rewrite !Z.pow_add_r by lia. nia.
Qed.

Lemma pow2_inject (m d : Z) :
  0 <= d -> (inject_Z (m * 2 ^ d) == inject_Z m * pow2 d)%Q.
Proof. intros Hd. rewrite inject_Z_mult, pow2_Z by assumption. reflexivity. Qed.

Lemma RoundOf_binary_round (m : positive) (E : Z) :
  RoundOf (inject_Z (Zpos m) * pow2 E) (binary_round 53 1024 false m E).
Proof.
  unfold binary_round, shl_align.
  change (Zpos (digits2_pos m)) with (Zdigits2 (Zpos m)).
  destruct (fexp64 (Zdigits2 (Zpos m) + E) - E) as [|d|d] eqn:Hd.
  - apply RoundOf_binary_round_aux; [lia| |lia].
    apply (Loc_ext (inject_Z (Zpos m))); [|apply Loc_exact].
    rewrite scale_forth. reflexivity.
  - apply RoundOf_binary_round_aux; [lia| |lia].
    apply (Loc_ext (inject_Z (Zpos m))); [|apply Loc_exact].
    rewrite scale_forth. reflexivity.
  - set (c := fexp64 (Zdigits2 (Zpos m) + E)) in *.
    assert (Hm : Zpos (Pos.iter xO m d) = Zpos m * 2 ^ Zpos d)
      by apply Pos_iter_xO.
    apply RoundOf_binary_round_aux; [lia| |].
    + apply (Loc_ext (inject_Z (Zpos (Pos.iter xO m d)))); [|apply Loc_exact].
      rewrite Hm, pow2_inject by lia.
      replace E with (Zpos d + c) at 1 by lia.
      rewrite pow2_add.
      transitivity (inject_Z (Zpos m) * pow2 (Zpos d) * (pow2 (- c) * pow2 c))%Q;
        [|ring].
      rewrite pow2_cancel. ring.
    + rewrite Hm, Zdigits2_shift by lia.
      replace (Zdigits2 (Zpos m) + Zpos d + c)
        with (Zdigits2 (Zpos m) + E) by lia.
      fold c. lia.
Qed.

Lemma RoundOf_binary_normalize (z E : Z) :
  0 <= z ->
  RoundOf (inject_Z z * pow2 E) (binary_normalize 53 1024 z E false).
Proof.
  intros Hz. destruct z as [|m|m]; try lia; cbn [binary_normalize].
  - apply (RoundOf_ext 0); [|apply RoundOf_zero].
    change (inject_Z 0) with 0%Q. ring.
  - apply RoundOf_binary_round.
Qed.

Lemma RoundOf_value_nonneg (x : Q) (r : spec_float) :
  RoundOf x r -> (0 <= x)%Q.
Proof.
  intros (c & M & l & (_ & HM & [[Hl _] _]) & _).
  apply scale_le_l in Hl. pose proof (pow2_pos c).
  assert (0 <= inject_Z M)%Q.
  { change 0%Q with (inject_Z 0). apply inject_Z_le. assumption. }
  nra.
Qed.

Lemma ZRoundOf_value_nonneg (x : Q) (r : spec_float) :
  ZRoundOf x r -> (0 <= x)%Q.
Proof.
  intros [H | [H _]]; [eapply RoundOf_value_nonneg; eassumption|lra].
Qed.

Lemma ZRoundOf_NNV (x : Q) (r : spec_float) : ZRoundOf x r -> NNV r.
Proof.
  intros [H | [_ ->]].
  - split; [eapply RoundOf_nonneg|eapply RoundOf_valid]; eassumption.
  - split; reflexivity.
Qed.

Lemma ZRoundOf_ext (x x' : Q) (r : spec_float) :
  (x == x')%Q -> ZRoundOf x r -> ZRoundOf x' r.
Proof.
  intros Hx [H | [H ->]].
  - left. apply (RoundOf_ext x); assumption.
  - right. split; [lra|reflexivity].
Qed.

Lemma SFleb_zero_l (s : bool) (r : spec_float) :
  nonneg r = true -> SFleb (S754_zero s) r = true.
Proof. destruct r as [?|[]| |[] ? ?]; try discriminate; reflexivity. Qed.

Lemma SFleb_zero_sign (r : spec_float) (s s' : bool) :
  SFleb r (S754_zero s) = SFleb r (S754_zero s').
Proof. destruct r as [?|[]| |[] ? ?]; reflexivity. Qed.

Lemma SFleb_inf_r (r : spec_float) :
  nonneg r = true -> SFleb r (S754_infinity false) = true.
Proof. destruct r as [?|[]| |[] ? ?]; try discriminate; reflexivity. Qed.

Lemma SFleb_inf_l (r : spec_float) :
  SFleb (S754_infinity false) r = true -> r = S754_infinity false.
Proof. destruct r as [?|[]| |[] ? ?]; try discriminate; reflexivity. Qed.

Lemma ZRoundOf_le (x1 x2 : Q) (r1 r2 : spec_float) :
  ZRoundOf x1 r1 -> ZRoundOf x2 r2 -> (x1 <= x2)%Q -> SFleb r1 r2 = true.
Proof.
  intros H1 H2 Hx.
  pose proof (ZRoundOf_NNV _ _ H2) as [Hn2 _].
  destruct H1 as [H1 | [_ ->]]; [|apply SFleb_zero_l; assumption].
  destruct H2 as [H2 | [H2 ->]]; [eapply RoundOf_le; eassumption|].
  rewrite (SFleb_zero_sign r1 true false).
  apply (RoundOf_le x1 0); [assumption|apply RoundOf_zero|lra].
Qed.

(** *** Subtraction *)

Lemma shl_align_fst (m : positive) (e ez : Z) :
  ez <= e -> Zpos (fst (shl_align m e ez)) = Zpos m * 2 ^ (e - ez).
Proof.
  intros He. unfold shl_align.
  destruct (ez - e) as [|d|d] eqn:Hd; try lia; cbn [fst].
  - replace (e - ez) with 0 by lia. lia.
  - rewrite Pos_iter_xO. f_equal. f_equal. lia.
Qed.

Lemma aligned_value (s : bool) (m : positive) (e ez : Z) :
  ez <= e ->
  (inject_Z (cond_Zopp s (Zpos (fst (shl_align m e ez)))) * pow2 ez
   == inject_Z (cond_Zopp s (Zpos m)) * pow2 e)%Q.
Proof.
  intros He. rewrite shl_align_fst by assumption.
  replace (cond_Zopp s (Zpos m * 2 ^ (e - ez)))
    with (cond_Zopp s (Zpos m) * 2 ^ (e - ez))
    by (destruct s; cbn [cond_Zopp]; lia).
  rewrite pow2_inject by lia.
  replace e with (e - ez + ez) at 2 by lia. rewrite pow2_add. ring.
Qed.

Lemma valid_sign (s s' : bool) (m : positive) (e : Z) :
  valid_binary 53 1024 (S754_finite s m e)
  = valid_binary 53 1024 (S754_finite s' m e).
Proof. reflexivity. Qed.

(** The difference of two valid finite numbers, the first at least the
    second, is the rounding of the difference of their values. *)
Lemma SFsub_ZRoundOf (d t : spec_float) :
  valid_binary 53 1024 d = true -> valid_binary 53 1024 t = true ->
  isFinite d = true -> isFinite t = true ->
  (value t <= value d)%Q ->
  ZRoundOf (value d - value t) (SFsub 53 1024 d t).
Proof.
  intros Hd Ht Hfd Hft Hle.
  destruct d as [sd|sd| |sd md ed], t as [st|st| |st mt et];
    try discriminate; cbn [SFsub value] in *.
  - destruct sd, st.
    + left. apply (RoundOf_ext 0); [ring|apply RoundOf_zero].
    + right. split; [ring|reflexivity].
    + left. apply (RoundOf_ext 0); [ring|apply RoundOf_zero].
    + left. apply (RoundOf_ext 0); [ring|apply RoundOf_zero].
  - pose proof (value_finite_pos mt et). destruct st.
    + left. cbn [negb].
      apply (RoundOf_ext (inject_Z (Zpos mt) * pow2 et)).
      * rewrite value_neg. ring.
      * apply RoundOf_exact. rewrite (valid_sign false true). assumption.
    + cbn [cond_Zopp] in Hle. lra.
  - pose proof (value_finite_pos md ed). destruct sd.
    + rewrite value_neg in Hle. lra.
    + left. apply (RoundOf_ext (inject_Z (Zpos md) * pow2 ed)).
      * cbn [cond_Zopp]. ring.
      * apply RoundOf_exact. assumption.
  - set (ez := Z.min ed et).
    set (D := cond_Zopp sd (Zpos (fst (shl_align md ed ez)))
              - cond_Zopp st (Zpos (fst (shl_align mt et ez)))).
    assert (HD : (inject_Z D * pow2 ez
                  == inject_Z (cond_Zopp sd (Zpos md)) * pow2 ed
                     - inject_Z (cond_Zopp st (Zpos mt)) * pow2 et)%Q).
    { unfold D. unfold Z.sub at 1. rewrite inject_Z_plus, inject_Z_opp.
      rewrite <- (aligned_value sd md ed ez) by (unfold ez; lia).
      rewrite <- (aligned_value st mt et ez) by (unfold ez; lia).
      ring. }
    assert (H0 : 0 <= D).
    { apply inject_Z_le_inv. change (inject_Z 0) with 0%Q.
      pose proof (pow2_pos ez). nra. }
    left. apply (RoundOf_ext (inject_Z D * pow2 ez)); [exact HD|].
    apply RoundOf_binary_normalize. exact H0.
Qed.

(** *** Division *)

Lemma new_location_Loc (y : Q) (m2 q r : Z) :
  0 < m2 -> 0 <= r < m2 ->
  (y * inject_Z m2 == inject_Z (q * m2 + r))%Q ->
  Loc y q (new_location m2 r).
Proof.
  intros Hm Hr Hy.
  rewrite inject_Z_plus, inject_Z_mult in Hy.
  assert (HD : (0 < inject_Z m2)%Q)
    by (change 0%Q with (inject_Z 0); apply inject_Z_lt; lia).
  assert (Hr0 : (0 <= inject_Z r)%Q)
    by (change 0%Q with (inject_Z 0); apply inject_Z_le; lia).
  assert (Hr1 : (inject_Z r < inject_Z m2)%Q) by (apply inject_Z_lt; lia).
  assert (Hf : ((y - inject_Z q) * inject_Z m2 == inject_Z r)%Q)
    by (rewrite <- (Qplus_inj_l _ _ (inject_Z q * inject_Z m2)); rewrite <- Hy; ring).
  assert (Hb : (inject_Z q <= y < inject_Z q + 1)%Q) by (split; nra).
  split; [exact Hb|].
  assert (Hhalf : forall c, (2 * r ?= m2) = c ->
            match c with
            | Lt => (y < inject_Z q + (1 # 2))%Q
            | Eq => (y == inject_Z q + (1 # 2))%Q
            | Gt => (inject_Z q + (1 # 2) < y)%Q
            end).
  { intros c Hc.
    assert (H2 : (inject_Z (2 * r) == 2 * inject_Z r)%Q)
      by (rewrite inject_Z_mult; reflexivity).
    destruct (Z.compare_spec (2 * r) m2) as [He | Hl | Hg]; subst c.
    - assert (inject_Z (2 * r) == inject_Z m2)%Q by (rewrite He; reflexivity).
      nra.
    - apply inject_Z_lt in Hl. nra.
    - apply inject_Z_lt in Hg. nra. }
  assert (Hnz : r <> 0 -> (inject_Z q < y)%Q).
  { intros Hne. assert (0 < inject_Z r)%Q
      by (change 0%Q with (inject_Z 0); apply inject_Z_lt; lia).
    nra. }
  unfold new_location, new_location_even, new_location_odd.
  destruct (Z.even m2) eqn:Hev.
  - destruct (Z.eqb_spec r 0) as [-> | Hne].
    + change (inject_Z 0) with 0%Q in Hf. nra.
    + specialize (Hnz Hne).
      pose proof (Hhalf _ eq_refl) as Hh.
      destruct (2 * r ?= m2); [exact Hh | split; assumption | exact Hh].
  - destruct (Z.eqb_spec r 0) as [-> | Hne].
    + change (inject_Z 0) with 0%Q in Hf. nra.
    + specialize (Hnz Hne).
      assert (Hodd : 2 * r <> m2).
      { intros Heq. rewrite <- Heq, Z.even_mul in Hev. discriminate. }
      pose proof (Hhalf _ eq_refl) as Hh.
      destruct (Z.compare_spec (2 * r + 1) m2) as [He | Hl | Hg].
      * assert (Hc : (2 * r ?= m2) = Lt) by (apply Z.compare_lt_iff; lia).
        rewrite Hc in Hh. split; assumption.
      * assert (Hc : (2 * r ?= m2) = Lt) by (apply Z.compare_lt_iff; lia).
        rewrite Hc in Hh. split; assumption.
      * assert (Hc : (2 * r ?= m2) = Gt) by (apply Z.compare_gt_iff; lia).
        rewrite Hc in Hh. exact Hh.
Qed.

Lemma fexp64_le (a b : Z) : a <= b -> fexp64 a <= fexp64 b.
Proof. intros H. rewrite !fexp64_eq. lia. Qed.

(** The quotient of two valid positive numbers is the rounding of the
    quotient of their values. *)
Lemma SFdiv_RoundOf (x : Q) (ma ms : positive) (ea es : Z) :
  (x * (inject_Z (Zpos ms) * pow2 es) == inject_Z (Zpos ma) * pow2 ea)%Q ->
  RoundOf x
    (SFdiv 53 1024 (S754_finite false ma ea) (S754_finite false ms es)).
Proof.
  intros Hx. cbn [SFdiv xorb]. unfold SFdiv_core_binary.
  set (d1 := Zdigits2 (Zpos ma)). set (d2 := Zdigits2 (Zpos ms)).
  set (e' := Z.min (fexp64 (d1 + ea - (d2 + es))) (ea - es)).
  set (sh := ea - es - e').
  assert (Hsh : 0 <= sh) by (unfold sh, e'; lia).
  set (m' := match sh with
             | 0 => Zpos ma
             | Zpos _ => Z.shiftl (Zpos ma) sh
             | Zneg _ => 0
             end).
  assert (Hm' : m' = Zpos ma * 2 ^ sh).
  { unfold m'. destruct sh as [|p|p] eqn:Hp; try lia.
    rewrite Z.shiftl_mul_pow2 by lia. reflexivity. }
  pose proof (Z_div_mod m' (Zpos ms) ltac:(lia)) as Hdiv.
  destruct (Z.div_eucl m' (Zpos ms)) as [q r].
  destruct Hdiv as [Hqr Hr].
  assert (H2s : 0 < 2 ^ sh) by (apply Z.pow_pos_nonneg; lia).
  assert (Hq : 0 <= q) by nia.
  apply RoundOf_binary_round_aux; [exact Hq| |].
  - apply new_location_Loc; [lia|exact Hr|].
    replace (q * Zpos ms + r) with m' by lia.
    rewrite Hm', pow2_inject by lia.
    assert (Hp : (pow2 ea == pow2 sh * pow2 es * pow2 e')%Q).
    { rewrite <- !pow2_add. replace (sh + es + e') with ea by (unfold sh; lia).
      reflexivity. }
    rewrite Hp in Hx.
    pose proof (pow2_pos es). pose proof (pow2_pos e').
    pose proof (pow2_cancel e') as Hc.
    assert (Hx' : (x * inject_Z (Zpos ms) * pow2 es
                   == inject_Z (Zpos ma) * pow2 sh * pow2 e' * pow2 es)%Q).
    { transitivity (x * (inject_Z (Zpos ms) * pow2 es))%Q; [ring|].
      rewrite Hx. ring. }
    apply Qmult_inj_r in Hx'; [|lra].
    transitivity (x * inject_Z (Zpos ms) * pow2 (- e'))%Q; [ring|].
    rewrite Hx'.
    transitivity (inject_Z (Zpos ma) * pow2 sh * (pow2 (- e') * pow2 e'))%Q;
      [ring|].
    rewrite Hc. ring.
  - apply Z.le_trans with (fexp64 (d1 + ea - (d2 + es))); [unfold e'; lia|].
    apply fexp64_le.
    pose proof (Zdigits2_bounds (Zpos ma) ltac:(lia)) as [Hl1 _].
    pose proof (Zdigits2_bounds (Zpos ms) ltac:(lia)) as [_ Hu2].
    pose proof (Zdigits2_nonneg q) as Hdq.
    fold d1 in Hl1. fold d2 in Hu2.
    assert (Hd1 : 1 <= d1).
    { unfold d1. cbn [Zdigits2]. lia. }
    assert (Hq1 : q + 1 <= 2 ^ Zdigits2 q).
    { destruct (Z.eq_dec q 0) as [-> | Hne]; [cbn; lia|].
      pose proof (Zdigits2_bounds q ltac:(lia)). lia. }
    assert (Hlow : 2 ^ (d1 - 1 + sh) <= m').
    { rewrite Hm', Z.pow_add_r by lia. nia. }
    assert (Hupp : m' < 2 ^ (Zdigits2 q + d2)).
    { rewrite Z.pow_add_r by (unfold d2; cbn [Zdigits2]; lia).
      assert (0 < 2 ^ d2) by (apply Z.pow_pos_nonneg; unfold d2; cbn; lia).
      nia. }
    assert (Hlt : d1 - 1 + sh < Zdigits2 q + d2).
    { apply (Z.pow_lt_mono_r_iff 2); [lia| |lia].
      unfold d2. cbn [Zdigits2]. lia. }
    unfold sh in Hlt. lia.
Qed.

(** *** Multiplication *)

Lemma Zdigits2_mul_ge (a b : Z) :
  0 < a -> 0 < b -> Zdigits2 a + Zdigits2 b - 1 <= Zdigits2 (a * b).
Proof.
  intros Ha Hb.
  pose proof (Zdigits2_bounds a Ha) as [Hla Hua].
  pose proof (Zdigits2_bounds b Hb) as [Hlb Hub].
  pose proof (Zdigits2_bounds (a * b) ltac:(nia)) as [_ Hu].
  pose proof (Zdigits2_nonneg (a * b)).
  assert (1 <= Zdigits2 a) by (destruct a; cbn in *; lia).
  assert (1 <= Zdigits2 b) by (destruct b; cbn in *; lia).
  assert (Hlow : 2 ^ (Zdigits2 a - 1 + (Zdigits2 b - 1)) <= a * b).
  { rewrite Z.pow_add_r by lia.
    assert (0 < 2 ^ (Zdigits2 a - 1)) by (apply Z.pow_pos_nonneg; lia).
    assert (0 < 2 ^ (Zdigits2 b - 1)) by (apply Z.pow_pos_nonneg; lia).
    nia. }
  assert (Zdigits2 a - 1 + (Zdigits2 b - 1) < Zdigits2 (a * b)).
  { apply (Z.pow_lt_mono_r_iff 2); lia. }
  lia.
Qed.

Lemma SFmul_precondition (ma mc : positive) (ea ec : Z) :
  valid_binary 53 1024 (S754_finite false ma ea) = true ->
  valid_binary 53 1024 (S754_finite false mc ec) = true ->
  ea + ec <= fexp64 (Zdigits2 (Zpos (ma * mc)) + (ea + ec)).
Proof.
  intros Ha Hc.
  apply valid_finite in Ha as (_ & _ & _ & Hca).
  apply valid_finite in Hc as (_ & _ & _ & Hcc).
  pose proof (Zdigits2_mul_ge (Zpos ma) (Zpos mc) ltac:(lia) ltac:(lia)) as Hd.
  change (Zpos ma * Zpos mc) with (Zpos (ma * mc)) in Hd.
  assert (1 <= Zdigits2 (Zpos ma)) by (cbn; lia).
  assert (1 <= Zdigits2 (Zpos mc)) by (cbn; lia).
  rewrite fexp64_eq in *. lia.
Qed.

(** The product of two valid positive numbers is the rounding of the
    product of their values. *)
Lemma SFmul_RoundOf (ma mc : positive) (ea ec : Z) :
  valid_binary 53 1024 (S754_finite false ma ea) = true ->
  valid_binary 53 1024 (S754_finite false mc ec) = true ->
  RoundOf (inject_Z (Zpos ma) * pow2 ea * (inject_Z (Zpos mc) * pow2 ec))
    (SFmul 53 1024 (S754_finite false ma ea) (S754_finite false mc ec)).
Proof.
  intros Ha Hc. cbn [SFmul xorb].
  apply RoundOf_binary_round_aux; [lia| |apply SFmul_precondition; assumption].
  apply (Loc_ext (inject_Z (Zpos (ma * mc)))); [|apply Loc_exact].
  change (Zpos (ma * mc)) with (Zpos ma * Zpos mc).
  rewrite inject_Z_mult.
  transitivity (inject_Z (Zpos ma) * inject_Z (Zpos mc)
                * pow2 (ea + ec) * pow2 (- (ea + ec)))%Q.
  - rewrite scale_forth. reflexivity.
  - rewrite (pow2_add ea ec). ring.
Qed.

(** *** Flooring and clamping to a byte *)

Lemma Loc_integer (N M : Z) (l : location) :
  Loc (inject_Z N) M l -> M = N /\ round_nearest_even M l = N.
Proof.
  intros [[Hl Hu] Hloc].
  assert (HM : M = N).
  { rewrite <- inject_Z_succ in Hu.
    apply inject_Z_le_inv in Hl. apply inject_Z_lt_inv in Hu. lia. }
  subst M. split; [reflexivity|].
  destruct l as [|[]]; cbn [round_nearest_even]; try reflexivity; lra.
Qed.

Lemma toUint8Clamp_range (x : JS.number) : 0 <= JS.toUint8Clamp x <= 255.
Proof.
  unfold JS.toUint8Clamp. destruct x as [?|[]| |? ? ?]; lia.
Qed.

(** An integer below 2^53 converted to a number and stored in a clamped
    byte array is that integer, capped at 255. *)
Lemma toUint8Clamp_binary_normalize (z : Z) :
  0 <= z < 2 ^ 53 ->
  JS.toUint8Clamp (binary_normalize 53 1024 z 0 false) = Z.min 255 z.
Proof.
  intros Hz. destruct (Z.eq_dec z 0) as [-> | Hnz]; [reflexivity|].
  pose proof (RoundOf_binary_normalize z 0 ltac:(lia)) as HR.
  apply (RoundOf_ext _ (inject_Z z)) in HR;
    [|change (pow2 0) with 1%Q; ring].
  destruct HR as (c & M & l & HR & ->).
  pose proof (Rounded_mantissa _ _ _ _ HR) as [HM _].
  destruct HR as ((Hc & Hu & Hl) & _ & HL).
  assert (Hzq : (inject_Z z < pow2 53)%Q)
    by (rewrite pow2_Z by lia; apply inject_Z_lt; lia).
  assert (Hc0 : c <= 0).
  { destruct Hl as [-> | Hl]; [lia|].
    assert (Hlt : (pow2 (c + 52) < pow2 53)%Q) by lra.
    apply pow2_lt_inv in Hlt. lia. }
  apply (Loc_ext _ (inject_Z (z * 2 ^ (- c)))) in HL;
    [|rewrite pow2_inject by lia; reflexivity].
  apply Loc_integer in HL as [HMz ->]. subst M.
  assert (H2 : 0 < 2 ^ (- c)) by (apply Z.pow_pos_nonneg; lia).
  rewrite roundFinish_small by nia.
  destruct (Z.leb_spec c 971); [|lia].
  cbn [JS.toUint8Clamp]. unfold JS.nearestEvenZ, JS.smant.
  cbn [cond_Zopp]. rewrite Z2Pos.id by nia.
  destruct (Z.leb_spec 0 c).
  - replace c with 0 by lia. change (- 0) with 0.
    rewrite Z.shiftl_0_r, Z.pow_0_r, Z.mul_1_r. lia.
  - rewrite Z.shiftr_div_pow2, Z.div_mul by lia.
    rewrite Z.shiftl_mul_pow2 by lia.
    replace (2 * (z * 2 ^ (- c) - z * 2 ^ (- c))) with 0 by lia.
    destruct (Z.compare_spec 0 (2 ^ (- c))); lia.
Qed.

(** The byte stored for a valid non-negative finite number: the integer
    part of its value, capped at 255. *)
Lemma floor_byte (m : positive) (e : Z) :
  valid_binary 53 1024 (S754_finite false m e) = true ->
  exists z,
    0 <= z
    /\ JS.toUint8Clamp (JS.floor (S754_finite false m e)) = Z.min 255 z
    /\ (inject_Z z <= inject_Z (Zpos m) * pow2 e < inject_Z z + 1)%Q.
Proof.
  intros Hv. apply valid_finite in Hv as (He & Hm & _ & _).
  unfold JS.floor. destruct (Z.leb_spec 0 e) as [Hpos | Hneg].
  - exists (Zpos m * 2 ^ e).
    assert (0 < 2 ^ e) by (apply Z.pow_pos_nonneg; lia).
    split; [nia|]. split.
    + cbn [JS.toUint8Clamp]. unfold JS.nearestEvenZ, JS.smant.
      cbn [cond_Zopp]. destruct (Z.leb_spec 0 e); [|lia].
      rewrite Z.shiftl_mul_pow2 by lia. nia.
    + rewrite pow2_inject by lia. lra.
  - unfold JS.smant. cbn [cond_Zopp].
    set (k := - e). assert (Hk : 0 < k) by (unfold k; lia).
    assert (H2 : 0 < 2 ^ k) by (apply Z.pow_pos_nonneg; lia).
    rewrite Z.shiftr_div_pow2 by lia.
    pose proof (Z.div_mod (Zpos m) (2 ^ k) ltac:(lia)) as Hdm.
    pose proof (Z.mod_pos_bound (Zpos m) (2 ^ k) H2) as Hmod.
    set (z := Zpos m / 2 ^ k) in *.
    assert (Hz : 0 <= z < 2 ^ 53).
    { split; [apply Z.div_pos; lia|]. nia. }
    exists z. split; [lia|]. split.
    + change JS.prec with 53. change JS.emax with 1024.
      apply toUint8Clamp_binary_normalize. exact Hz.
    + replace e with (- k) by (unfold k; lia).
      pose proof (inject_Z_succ z) as Hs.
      split.
      * apply scale_le_l. rewrite <- pow2_inject by lia.
        apply inject_Z_le. lia.
      * apply scale_lt_r. rewrite <- Hs, <- pow2_inject by lia.
        apply inject_Z_lt. nia.
Qed.

(** The stored byte grows with the number. *)
Lemma floor_byte_le (p1 p2 : JS.number) :
  NNV p1 -> NNV p2 -> SFleb p1 p2 = true ->
  JS.toUint8Clamp (JS.floor p1) <= JS.toUint8Clamp (JS.floor p2).
Proof.
  intros [Hn1 Hv1] [Hn2 Hv2] Hle.
  pose proof (toUint8Clamp_range (JS.floor p1)).
  pose proof (toUint8Clamp_range (JS.floor p2)).
  destruct p1 as [s1|[]| |[] m1 e1]; try discriminate.
  - cbn [JS.floor JS.toUint8Clamp] in *. lia.
  - apply SFleb_inf_l in Hle. subst p2. cbn [JS.floor JS.toUint8Clamp]. lia.
  - destruct p2 as [s2|[]| |[] m2 e2]; try discriminate.
    + cbn [JS.floor JS.toUint8Clamp] in *. lia.
    + assert (Hval : (value (S754_finite false m1 e1)
                      <= value (S754_finite false m2 e2))%Q)
        by (apply SFleb_value; auto).
      cbn [value cond_Zopp] in Hval.
      destruct (floor_byte m1 e1 Hv1) as (z1 & Hz1 & -> & Hb1).
      destruct (floor_byte m2 e2 Hv2) as (z2 & Hz2 & -> & Hb2).
      assert (Hlt : (inject_Z z1 < inject_Z (z2 + 1))%Q)
        by (rewrite inject_Z_succ; lra).
      apply inject_Z_lt_inv in Hlt. lia.
Qed.

(** *** The stages of the ramp *)

Lemma SFdiv_cases (a : spec_float) (ms : positive) (es : Z) :
  NNV a ->
  (a = S754_infinity false
   /\ SFdiv 53 1024 a (S754_finite false ms es) = S754_infinity false)
  \/ (isFinite a = true
      /\ exists x,
           (x * (inject_Z (Zpos ms) * pow2 es) == value a)%Q
           /\ ZRoundOf x (SFdiv 53 1024 a (S754_finite false ms es))).
Proof.
  intros [Hn Hv].
  destruct a as [sa|[]| |[] ma ea]; try discriminate.
  - right. split; [reflexivity|]. exists 0%Q. split; [cbn; ring|].
    cbn [SFdiv]. destruct sa; [right; split; reflexivity|left; apply RoundOf_zero].
  - left. split; reflexivity.
  - right. split; [reflexivity|].
    pose proof (value_finite_pos ms es) as Hs.
    exists (inject_Z (Zpos ma) * pow2 ea / (inject_Z (Zpos ms) * pow2 es))%Q.
    assert (Hx : (inject_Z (Zpos ma) * pow2 ea / (inject_Z (Zpos ms) * pow2 es)
                  * (inject_Z (Zpos ms) * pow2 es)
                  == inject_Z (Zpos ma) * pow2 ea)%Q)
      by (rewrite Qmult_comm; apply Qmult_div_r; lra).
    split; [exact Hx|]. left. apply SFdiv_RoundOf. exact Hx.
Qed.

Lemma SFdiv_le (a1 a2 : spec_float) (ms : positive) (es : Z) :
  NNV a1 -> NNV a2 -> SFleb a1 a2 = true ->
  NNV (SFdiv 53 1024 a1 (S754_finite false ms es))
  /\ NNV (SFdiv 53 1024 a2 (S754_finite false ms es))
  /\ SFleb (SFdiv 53 1024 a1 (S754_finite false ms es))
           (SFdiv 53 1024 a2 (S754_finite false ms es)) = true.
Proof.
  intros H1 H2 Hle.
  pose proof (value_finite_pos ms es) as Hs.
  destruct (SFdiv_cases a1 ms es H1) as [[-> E1] | (Hf1 & x1 & Hx1 & R1)];
    destruct (SFdiv_cases a2 ms es H2) as [[-> E2] | (Hf2 & x2 & Hx2 & R2)].
  - rewrite E1. repeat split; reflexivity.
  - apply SFleb_inf_l in Hle. subst a2. discriminate.
  - rewrite E2. pose proof (ZRoundOf_NNV _ _ R1) as N1.
    split; [exact N1|]. split; [split; reflexivity|].
    apply SFleb_inf_r. apply N1.
  - split; [eapply ZRoundOf_NNV; eassumption|].
    split; [eapply ZRoundOf_NNV; eassumption|].
    apply (ZRoundOf_le x1 x2); try assumption.
    assert (Hval : (value a1 <= value a2)%Q)
      by (apply SFleb_value; try assumption; [apply H1|apply H2]).
    rewrite <- Hx1, <- Hx2 in Hval. nra.
Qed.

Lemma SFmul_cases (q : spec_float) (mc : positive) (ec : Z) :
  valid_binary 53 1024 (S754_finite false mc ec) = true ->
  NNV q ->
  (q = S754_infinity false
   /\ SFmul 53 1024 q (S754_finite false mc ec) = S754_infinity false)
  \/ (isFinite q = true
      /\ ZRoundOf (value q * (inject_Z (Zpos mc) * pow2 ec))
           (SFmul 53 1024 q (S754_finite false mc ec))).
Proof.
  intros Hc [Hn Hv].
  destruct q as [sq|[]| |[] mq eq]; try discriminate.
  - right. split; [reflexivity|]. cbn [SFmul value].
    destruct sq; [right; split; [ring|reflexivity]|left].
    apply (RoundOf_ext 0); [ring|apply RoundOf_zero].
  - left. split; reflexivity.
  - right. split; [reflexivity|]. left. cbn [value cond_Zopp].
    apply SFmul_RoundOf; assumption.
Qed.

Lemma SFmul_le (q1 q2 : spec_float) (mc : positive) (ec : Z) :
  valid_binary 53 1024 (S754_finite false mc ec) = true ->
  NNV q1 -> NNV q2 -> SFleb q1 q2 = true ->
  NNV (SFmul 53 1024 q1 (S754_finite false mc ec))
  /\ NNV (SFmul 53 1024 q2 (S754_finite false mc ec))
  /\ SFleb (SFmul 53 1024 q1 (S754_finite false mc ec))
           (SFmul 53 1024 q2 (S754_finite false mc ec)) = true.
Proof.
  intros Hc H1 H2 Hle.
  pose proof (value_finite_pos mc ec) as Hs.
  destruct (SFmul_cases q1 mc ec Hc H1) as [[-> E1] | (Hf1 & R1)];
    destruct (SFmul_cases q2 mc ec Hc H2) as [[-> E2] | (Hf2 & R2)].
  - rewrite E1. repeat split; reflexivity.
  - apply SFleb_inf_l in Hle. subst q2. discriminate.
  - rewrite E2. pose proof (ZRoundOf_NNV _ _ R1) as N1.
    split; [exact N1|]. split; [split; reflexivity|].
    apply SFleb_inf_r. apply N1.
  - split; [eapply ZRoundOf_NNV; eassumption|].
    split; [eapply ZRoundOf_NNV; eassumption|].
    eapply ZRoundOf_le; try eassumption.
    assert (Hval : (value q1 <= value q2)%Q)
      by (apply SFleb_value; try assumption; [apply H1|apply H2]).
    nra.
Qed.

(** The alpha ramp grows with the distance, for a finite positive
    smoothing range. *)
Lemma smoothAlpha_le_finite (d1 d2 t : JS.number) (ms : positive) (es : Z) :
  valid_binary 53 1024 d1 = true -> valid_binary 53 1024 d2 = true ->
  valid_binary 53 1024 t = true ->
  isFinite d1 = true -> isFinite d2 = true -> isFinite t = true ->
  (value t <= value d1)%Q -> (value d1 <= value d2)%Q ->
  smoothAlpha d1 t (S754_finite false ms es)
  <= smoothAlpha d2 t (S754_finite false ms es).
Proof.
  intros Hv1 Hv2 Hvt Hf1 Hf2 Hft Ht Hd. unfold smoothAlpha.
  pose proof (SFsub_ZRoundOf d1 t Hv1 Hvt Hf1 Hft Ht) as Ha1.
  pose proof (SFsub_ZRoundOf d2 t Hv2 Hvt Hf2 Hft ltac:(lra)) as Ha2.
  assert (Hale : SFleb (SFsub 53 1024 d1 t) (SFsub 53 1024 d2 t) = true)
    by (eapply ZRoundOf_le; try eassumption; lra).
  apply ZRoundOf_NNV in Ha1, Ha2.
  destruct (SFdiv_le _ _ ms es Ha1 Ha2 Hale) as (Hq1 & Hq2 & Hqle).
  assert (H255 : exists mc ec,
             JS.ofZ 255 = S754_finite false mc ec
             /\ valid_binary 53 1024 (S754_finite false mc ec) = true)
    by (do 2 eexists; split; vm_compute; reflexivity).
  destruct H255 as (mc & ec & -> & Hc).
  destruct (SFmul_le _ _ _ _ Hc Hq1 Hq2 Hqle) as (Hp1 & Hp2 & Hple).
  apply floor_byte_le; assumption.
Qed.

(** *** Distances inside the smoothing band *)

Lemma SFltb_inf_l (x : spec_float) : SFltb (S754_infinity false) x = false.
Proof. destruct x as [?|[]| |[] ? ?]; reflexivity. Qed.

Lemma SFltb_nan_l (x : spec_float) : SFltb S754_nan x = false.
Proof. reflexivity. Qed.

Lemma SFltb_nan_r (x : spec_float) : SFltb x S754_nan = false.
Proof. destruct x as [?|?| |? ? ?]; reflexivity. Qed.

(** A distance inside the band and the threshold are finite. *)
Lemma band_finite (d t s : JS.number) :
  (d <? t)%js = false -> (d <? t + s)%js = true -> nonneg s = true ->
  isFinite d = true /\ isFinite t = true.
Proof.
  unfold JS.ltb, JS.add. intros H1 H2 Hs.
  destruct d as [sd|[]| |sd md ed].
  - destruct t as [st|[]| |st mt et]; try (split; reflexivity);
      try discriminate;
      destruct s as [ss|[]| |[] ms es]; discriminate.
  - destruct t as [st|[]| |[] mt et]; try discriminate;
      destruct s as [ss|[]| |[] ms es]; discriminate.
  - rewrite SFltb_inf_l in H2. discriminate.
  - discriminate.
  - destruct t as [st|[]| |st mt et]; try (split; reflexivity);
      try (destruct sd; discriminate);
      destruct s as [ss|[]| |[] ms es]; try discriminate;
      destruct sd; discriminate.
Qed.

Lemma positive_cases (s : JS.number) :
  (JS.ofZ 0 <? s)%js = true ->
  s = S754_infinity false \/ exists ms es, s = S754_finite false ms es.
Proof.
  destruct s as [?|[]| |[] ms es]; try discriminate; intros _; eauto.
Qed.

(** With an infinite smoothing range every byte of the ramp is 0. *)
Lemma smoothAlpha_infinite (d t : JS.number) :
  valid_binary 53 1024 d = true -> valid_binary 53 1024 t = true ->
  isFinite d = true -> isFinite t = true ->
  (value t <= value d)%Q ->
  smoothAlpha d t (S754_infinity false) = 0.
Proof.
  intros Hvd Hvt Hfd Hft Hle. unfold smoothAlpha.
  pose proof (SFsub_ZRoundOf d t Hvd Hvt Hfd Hft Hle) as Ha.
  apply ZRoundOf_NNV in Ha as [Hn _].
  change (JS.sub d t) with (SFsub 53 1024 d t).
  destruct (SFsub 53 1024 d t) as [[]|[]| |[] ma ea]; try discriminate;
    reflexivity.
Qed.

(** The alpha ramp is monotone: of two distances inside the smoothing
    band of a positive smoothing range, the larger gets the larger
    byte. *)
Lemma smoothAlpha_monotone (d1 d2 t s : JS.number) :
  valid_binary 53 1024 d1 = true -> valid_binary 53 1024 d2 = true ->
  valid_binary 53 1024 t = true ->
  (JS.ofZ 0 <? s)%js = true ->
  (d1 <? t)%js = false -> (d1 <? t + s)%js = true ->
  (d2 <? t)%js = false -> (d2 <? t + s)%js = true ->
  (d1 <=? d2)%js = true ->
  smoothAlpha d1 t s <= smoothAlpha d2 t s.
Proof.
  intros Hv1 Hv2 Hvt Hs H1t H1s H2t H2s Hle.
  assert (Hns : nonneg s = true).
  { destruct (positive_cases s Hs) as [-> | (ms & es & ->)]; reflexivity. }
  destruct (band_finite d1 t s H1t H1s Hns) as [Hf1 Hft].
  destruct (band_finite d2 t s H2t H2s Hns) as [Hf2 _].
  assert (Ht1 : (value t <= value d1)%Q)
    by (apply SFltb_false_value; assumption).
  assert (Ht2 : (value t <= value d2)%Q)
    by (apply SFltb_false_value; assumption).
  assert (Hd : (value d1 <= value d2)%Q) by (apply SFleb_value; assumption).
  destruct (positive_cases s Hs) as [-> | (ms & es & ->)].
  - rewrite !smoothAlpha_infinite by assumption. lia.
  - apply smoothAlpha_le_finite; assumption.
Qed.

(** *** Every operation returns a valid number *)

Lemma binary_round_aux_valid (s : bool) (M E : Z) (l : location) :
  0 <= M -> E <= fexp64 (Zdigits2 M + E) ->
  valid_binary 53 1024 (binary_round_aux 53 1024 s M E l) = true.
Proof.
  intros HM HE.
  set (y := (inject_Z M
             + match l with
               | loc_Exact => 0
               | loc_Inexact Lt => 1 # 4
               | loc_Inexact Eq => 1 # 2
               | loc_Inexact Gt => 3 # 4
               end)%Q).
  assert (HL : Loc (y * pow2 E * pow2 (- E)) M l).
  { apply (Loc_ext y); [rewrite scale_forth; reflexivity|].
    unfold y, Loc. destruct l as [|[]]; split; lra. }
  destruct (binary_round_aux_Rounded s _ M E l HM HL HE)
    as (c & M' & l' & HR & ->).
  eapply Rounded_valid; eassumption.
Qed.

Lemma binary_round_valid (s : bool) (m : positive) (E : Z) :
  valid_binary 53 1024 (binary_round 53 1024 s m E) = true.
Proof.
  unfold binary_round, shl_align.
  change (Zpos (digits2_pos m)) with (Zdigits2 (Zpos m)).
  destruct (fexp64 (Zdigits2 (Zpos m) + E) - E) as [|d|d] eqn:Hd;
    apply binary_round_aux_valid; try lia.
  rewrite Pos_iter_xO, Zdigits2_shift by lia.
  replace (Zdigits2 (Zpos m) + Zpos d
           + fexp64 (Zdigits2 (Zpos m) + E))
    with (Zdigits2 (Zpos m) + E) by lia.
  lia.
Qed.

Lemma binary_normalize_valid (z E : Z) (sz : bool) :
  valid_binary 53 1024 (binary_normalize 53 1024 z E sz) = true.
Proof.
  destruct z; cbn [binary_normalize];
    [reflexivity|apply binary_round_valid..].
Qed.

Lemma ofZ_valid (z : Z) : valid_binary 53 1024 (JS.ofZ z) = true.
Proof. apply binary_normalize_valid. Qed.

Lemma add_valid (x y : JS.number) :
  valid_binary 53 1024 x = true -> valid_binary 53 1024 y = true ->
  valid_binary 53 1024 (x + y)%js = true.
Proof.
  intros Hx Hy. unfold JS.add, SFadd.
  destruct x as [sx|sx| |sx mx ex], y as [sy|sy| |sy my ey];
    try reflexivity; try assumption;
    try (destruct sx, sy; reflexivity).
  apply binary_normalize_valid.
Qed.

Lemma sub_valid (x y : JS.number) :
  valid_binary 53 1024 x = true -> valid_binary 53 1024 y = true ->
  valid_binary 53 1024 (x - y)%js = true.
Proof.
  intros Hx Hy. unfold JS.sub, SFsub.
  destruct x as [sx|sx| |sx mx ex], y as [sy|sy| |sy my ey];
    try reflexivity; try assumption;
    try (destruct sx, sy; reflexivity).
  apply binary_normalize_valid.
Qed.

Lemma mul_valid (x y : JS.number) :
  valid_binary 53 1024 x = true -> valid_binary 53 1024 y = true ->
  valid_binary 53 1024 (x * y)%js = true.
Proof.
  intros Hx Hy. unfold JS.mul, SFmul.
  destruct x as [sx|sx| |sx mx ex], y as [sy|sy| |sy my ey];
    try reflexivity.
  apply binary_round_aux_valid; [lia|].
  apply SFmul_precondition; assumption.
Qed.

Lemma sqrt_valid (x : JS.number) :
  valid_binary 53 1024 x = true ->
  valid_binary 53 1024 (JS.sqrt x) = true.
Proof.
  intros Hx. unfold JS.sqrt, SFsqrt.
  destruct x as [sx|[]| |[] m e]; try reflexivity.
  unfold SFsqrt_core_binary. change JS.prec with 53. change JS.emax with 1024.
  set (d := Zdigits2 (Zpos m)).
  set (e' := Z.min (fexp64 (Z.div2 (d + e + 1))) (Z.div2 e)).
  set (sh := e - 2 * e').
  assert (Hsh : 0 <= sh).
  { unfold sh, e'. rewrite (Z.div2_div e).
    pose proof (Z.mul_div_le e 2 ltac:(lia)). lia. }
  set (m' := match sh with
             | 0 => Zpos m
             | Zpos _ => Z.shiftl (Zpos m) sh
             | Zneg _ => 0
             end).
  assert (Hm' : m' = Zpos m * 2 ^ sh).
  { unfold m'. destruct sh as [|p|p] eqn:Hp; try lia.
    rewrite Z.shiftl_mul_pow2 by lia. reflexivity. }
  assert (H2s : 0 < 2 ^ sh) by (apply Z.pow_pos_nonneg; lia).
  pose proof (Z.sqrtrem_spec m' ltac:(nia)) as Hsq.
  destruct (Z.sqrtrem m') as [q r]. destruct Hsq as [Hqr Hr].
  assert (Hq : 0 <= q) by lia.
  apply binary_round_aux_valid; [exact Hq|].
  apply Z.le_trans with (fexp64 (Z.div2 (d + e + 1))); [unfold e'; lia|].
  apply fexp64_le.
  pose proof (Zdigits2_bounds (Zpos m) ltac:(lia)) as [Hl _]. fold d in Hl.
  assert (Hd1 : 1 <= d) by (unfold d; cbn [Zdigits2]; lia).
  pose proof (Zdigits2_nonneg q) as Hdq.
  assert (Hq1 : q + 1 <= 2 ^ Zdigits2 q).
  { destruct (Z.eq_dec q 0) as [-> | Hne]; [cbn; lia|].
    pose proof (Zdigits2_bounds q ltac:(lia)). lia. }
  assert (Hlow : 2 ^ (d - 1 + sh) <= m').
  { rewrite Hm', Z.pow_add_r by lia. nia. }
  assert (Hupp : m' < 2 ^ (Zdigits2 q + Zdigits2 q)).
  { rewrite Z.pow_add_r by lia. nia. }
  assert (Hlt : d - 1 + sh < Zdigits2 q + Zdigits2 q).
  { apply (Z.pow_lt_mono_r_iff 2); lia. }
  rewrite Z.div2_div. unfold sh in Hlt.
  assert ((d + e + 1) / 2 < Zdigits2 q + e' + 1)
    by (apply Z.div_lt_upper_bound; lia).
  lia.
Qed.

Lemma colourDistance_valid (key : Z * Z * Z) (r g b : Z) :
  valid_binary 53 1024
    (colourDistance key (JS.ofZ r) (JS.ofZ g) (JS.ofZ b)) = true.
Proof.
  destruct key as [[kr kg] kb]. unfold colourDistance.
  apply sqrt_valid.
  repeat first [apply add_valid | apply mul_valid | apply sub_valid
               | apply ofZ_valid].
Qed.

(** ** Monotonicity of the alpha ramp *)

Section RampFacts.

Variable resample : Image -> Z -> Z -> list Z.

(** C8. With enabled chroma settings whose smoothing range is positive,
    take two pixels whose distances to the key colour both lie in the
    smoothing band, from the threshold up to the threshold plus the
    smoothing range: the pixel with the smaller distance is given the
    smaller, or the same, alpha byte. *)
Theorem processFrame_alpha_monotone (settings : ChromaSettings)
    (img1 img2 : Image) (width1 height1 width2 height2 : Z) (k1 k2 : nat)
    (r1 g1 b1 a1 r2 g2 b2 a2 : Z) :
  enabled settings = true ->
  valid_binary 53 1024 (similarity settings) = true ->
  pixelAt (drawImage resample img1 width1 height1) k1 r1 g1 b1 a1 ->
  pixelAt (drawImage resample img2 width2 height2) k2 r2 g2 b2 a2 ->
  let key := hexToRgb (color settings) in
  let dist1 := colourDistance key (JS.ofZ r1) (JS.ofZ g1) (JS.ofZ b1) in
  let dist2 := colourDistance key (JS.ofZ r2) (JS.ofZ g2) (JS.ofZ b2) in
  let threshold := (similarity settings * JS.ofZ 442)%js in
  let smoothRange := (smoothness settings * JS.ofZ 100)%js in
  (JS.ofZ 0 <? smoothRange)%js = true ->
  (dist1 <? threshold)%js = false ->
  (dist1 <? threshold + smoothRange)%js = true ->
  (dist2 <? threshold)%js = false ->
  (dist2 <? threshold + smoothRange)%js = true ->
  (dist1 <=? dist2)%js = true ->
  exists o1 o2,
    processFrame resample img1 settings width1 height1 !! (4 * k1 + 3)%nat
    = Some o1
    /\ processFrame resample img2 settings width2 height2 !! (4 * k2 + 3)%nat
       = Some o2
    /\ o1 <= o2.
Proof.
  intros He Hsim Hp1 Hp2. cbv zeta. intros Hs H1t H1s H2t H2s Hle.
  rewrite (processFrame_alpha resample img1 settings width1 height1 k1
             r1 g1 b1 a1 He Hp1).
  rewrite (processFrame_alpha resample img2 settings width2 height2 k2
             r2 g2 b2 a2 He Hp2).
  cbv zeta. rewrite H1t, H1s, H2t, H2s.
  do 2 eexists. split; [reflexivity|]. split; [reflexivity|].
  apply smoothAlpha_monotone; try assumption.
  - apply colourDistance_valid.
  - apply colourDistance_valid.
  - apply mul_valid; [assumption|apply ofZ_valid].
Qed.

End RampFacts.

(** ** Sums, integers and signs *)

(** The sum of two valid positive numbers is the rounding of the sum of
    their values. *)
Lemma SFadd_RoundOf (ma mb : positive) (ea eb : Z) :
  RoundOf (inject_Z (Zpos ma) * pow2 ea + inject_Z (Zpos mb) * pow2 eb)
    (SFadd 53 1024 (S754_finite false ma ea) (S754_finite false mb eb)).
Proof.
  cbn [SFadd cond_Zopp].
  set (ez := Z.min ea eb).
  pose proof (aligned_value false ma ea ez ltac:(unfold ez; lia)) as Ha.
  pose proof (aligned_value false mb eb ez ltac:(unfold ez; lia)) as Hb.
  cbn [cond_Zopp] in Ha, Hb.
  eapply RoundOf_ext; [|apply RoundOf_binary_normalize; lia].
  rewrite inject_Z_plus. rewrite <- Ha, <- Hb. ring.
Qed.

Lemma SFleb_refl (x : spec_float) : x <> S754_nan -> SFleb x x = true.
Proof.
  destruct x as [s|[]| |[] m e]; intros H; try reflexivity; try congruence;
    unfold SFleb; cbn [SFcompare]; rewrite Z.compare_refl;
    rewrite ?Pos.compare_cont_refl; reflexivity.
Qed.

(** Adding a non-negative number does not make a non-negative number
    smaller. *)
Lemma add_NNV (a b : JS.number) :
  NNV a -> NNV b -> NNV (a + b)%js /\ (a <=? a + b)%js = true.
Proof.
  intros [Hna Hva] [Hnb Hvb]. unfold JS.add, JS.leb.
  destruct a as [sa|[]| |[] ma ea]; try discriminate;
    destruct b as [sb|[]| |[] mb eb]; try discriminate.
  - split; [|apply SFleb_zero_l; destruct sa, sb; reflexivity].
    destruct sa, sb; split; reflexivity.
  - split; [split; reflexivity|reflexivity].
  - split; [split; assumption|reflexivity].
  - split; [split; reflexivity|reflexivity].
  - split; [split; reflexivity|reflexivity].
  - split; [split; reflexivity|reflexivity].
  - split; [split; assumption|]. cbn [SFadd]. apply SFleb_refl. discriminate.
  - split; [split; reflexivity|reflexivity].
  - pose proof (SFadd_RoundOf ma mb ea eb) as HR.
    split; [split; [eapply RoundOf_nonneg|eapply RoundOf_valid]; eassumption|].
    eapply RoundOf_le; [apply RoundOf_exact; exact Hva|exact HR|].
    pose proof (value_finite_pos mb eb). lra.
Qed.

Lemma SFleb_trans (x y z : spec_float) :
  NNV x -> NNV y -> NNV z ->
  SFleb x y = true -> SFleb y z = true -> SFleb x z = true.
Proof.
  intros [Hnx Hvx] [Hny Hvy] [Hnz Hvz] Hxy Hyz.
  destruct z as [sz|[]| |[] mz ez]; try discriminate.
  - destruct y as [sy|[]| |[] my ey]; try discriminate.
    destruct x as [sx|[]| |[] mx ex]; try discriminate. reflexivity.
  - apply SFleb_inf_r. assumption.
  - destruct x as [sx|[]| |[] mx ex]; try discriminate;
      [reflexivity|apply SFleb_inf_l in Hxy; subst y; discriminate|].
    destruct y as [sy|[]| |[] my ey]; try discriminate.
    assert (H1 : (value (S754_finite false mx ex)
                  <= value (S754_finite false my ey))%Q)
      by (apply SFleb_value; auto).
    assert (H2 : (value (S754_finite false my ey)
                  <= value (S754_finite false mz ez))%Q)
      by (apply SFleb_value; auto).
    unfold SFleb. rewrite SFcompare_value by auto.
    destruct (Qcompare_spec (value (S754_finite false mx ex))
                (value (S754_finite false mz ez))); try reflexivity. lra.
Qed.

Lemma nonneg_leb (x : JS.number) :
  (JS.ofZ 0 <=? x)%js = true -> nonneg x = true.
Proof. destruct x as [s|[]| |[] m e]; try discriminate; reflexivity. Qed.

Lemma SFltb_leb (x y : spec_float) : SFltb x y = true -> SFleb x y = true.
Proof.
  unfold SFltb, SFleb. destruct (SFcompare x y) as [[]|]; congruence.
Qed.

Lemma RoundOf_shape (x : Q) (r : spec_float) :
  RoundOf x r ->
  r = S754_zero false \/ r = S754_infinity false
  \/ exists m e, r = S754_finite false m e.
Proof.
  intros (c & M & l & H & ->).
  pose proof (Rounded_mantissa _ _ _ _ H) as [Hm _].
  pose proof (round_nearest_even_range M l).
  destruct H as ((Hc & _) & _).
  rewrite roundFinish_carried by lia.
  destruct (carried (round_nearest_even M l) c) as [R' c'].
  destruct (R' =? 0); [auto|]. destruct (c' <=? 971); eauto.
Qed.

(** A value has one rounding. *)
Lemma RoundOf_unique (x : Q) (r1 r2 : spec_float) :
  RoundOf x r1 -> RoundOf x r2 -> r1 = r2.
Proof.
  intros H1 H2.
  assert (H12 : SFleb r1 r2 = true) by (eapply RoundOf_le; eauto; lra).
  assert (H21 : SFleb r2 r1 = true) by (eapply RoundOf_le; eauto; lra).
  destruct (RoundOf_shape _ _ H1) as [-> | [-> | (m1 & e1 & ->)]];
    destruct (RoundOf_shape _ _ H2) as [-> | [-> | (m2 & e2 & ->)]];
    try reflexivity; try discriminate.
  unfold SFleb in H12, H21. cbn [SFcompare] in H12, H21.
  destruct (Z.compare_spec e1 e2) as [-> | He | He].
  - rewrite Z.compare_refl in H21.
    change (Pos.compare_cont Eq m1 m2) with (Pos.compare m1 m2) in H12.
    change (Pos.compare_cont Eq m2 m1) with (Pos.compare m2 m1) in H21.
    destruct (Pos.compare_spec m1 m2) as [-> | Hm | Hm]; [reflexivity| |].
    + rewrite (proj2 (Pos.compare_gt_iff m2 m1)) in H21 by assumption.
      discriminate.
    + discriminate.
  - rewrite (proj2 (Z.compare_gt_iff e2 e1)) in H21 by lia. discriminate.
  - discriminate.
Qed.

Lemma ofZ_RoundOf (z : Z) : 0 <= z -> RoundOf (inject_Z z) (JS.ofZ z).
Proof.
  intros Hz. apply (RoundOf_ext (inject_Z z * pow2 0)).
  - change (pow2 0) with 1%Q. ring.
  - apply RoundOf_binary_normalize. exact Hz.
Qed.

(** An integer below 2^53 is a number: its conversion has its value. *)
Lemma ofZ_exact (z : Z) :
  0 < z < 2 ^ 53 ->
  exists m e,
    JS.ofZ z = S754_finite false m e
    /\ valid_binary 53 1024 (S754_finite false m e) = true
    /\ (inject_Z (Zpos m) * pow2 e == inject_Z z)%Q.
Proof.
  intros Hz. pose proof (ofZ_RoundOf z ltac:(lia)) as HR.
  pose proof (RoundOf_valid _ _ HR) as Hv.
  destruct HR as (c & M & l & HR & Heq).
  pose proof (Rounded_mantissa _ _ _ _ HR) as [HM _].
  destruct HR as ((Hc & Hu & Hl) & _ & HL).
  assert (Hzq : (inject_Z z < pow2 53)%Q)
    by (rewrite pow2_Z by lia; apply inject_Z_lt; lia).
  assert (Hc0 : c <= 0).
  { destruct Hl as [-> | Hl]; [lia|].
    assert (Hlt : (pow2 (c + 52) < pow2 53)%Q) by lra.
    apply pow2_lt_inv in Hlt. lia. }
  apply (Loc_ext _ (inject_Z (z * 2 ^ (- c)))) in HL;
    [|rewrite pow2_inject by lia; reflexivity].
  apply Loc_integer in HL as [HMz Hrne]. subst M.
  assert (H2 : 0 < 2 ^ (- c)) by (apply Z.pow_pos_nonneg; lia).
  rewrite Hrne in Heq. rewrite roundFinish_small in Heq by nia.
  destruct (Z.leb_spec c 971); [|lia].
  exists (Z.to_pos (z * 2 ^ (- c))), c.
  split; [exact Heq|]. split; [rewrite <- Heq; exact Hv|].
  rewrite Z2Pos.id by nia. rewrite pow2_inject by lia.
  apply scale_back.
Qed.

(** Sums, products and differences of integers below 2^53 are computed
    as on integers, and rounded once. *)
Lemma add_ofZ (a b : Z) :
  0 <= a < 2 ^ 53 -> 0 <= b < 2 ^ 53 ->
  (JS.ofZ a + JS.ofZ b)%js = JS.ofZ (a + b).
Proof.
  intros Ha Hb.
  destruct (Z.eq_dec a 0) as [-> | Ha0].
  { destruct (Z.eq_dec b 0) as [-> | Hb0]; [reflexivity|].
    destruct (ofZ_exact b ltac:(lia)) as (m & e & Hm & _).
    rewrite Z.add_0_l, Hm. reflexivity. }
  destruct (Z.eq_dec b 0) as [-> | Hb0].
  { destruct (ofZ_exact a ltac:(lia)) as (m & e & Hm & _).
    rewrite Z.add_0_r, Hm. reflexivity. }
  destruct (ofZ_exact a ltac:(lia)) as (ma & ea & Hma & _ & Hva).
  destruct (ofZ_exact b ltac:(lia)) as (mb & eb & Hmb & _ & Hvb).
  rewrite Hma, Hmb. unfold JS.add.
  apply (RoundOf_unique (inject_Z (a + b))); [|apply ofZ_RoundOf; lia].
  eapply RoundOf_ext; [|apply SFadd_RoundOf].
  rewrite inject_Z_plus, Hva, Hvb. reflexivity.
Qed.

Lemma mul_ofZ (a b : Z) :
  0 <= a < 2 ^ 53 -> 0 <= b < 2 ^ 53 ->
  (JS.ofZ a * JS.ofZ b)%js = JS.ofZ (a * b).
Proof.
  intros Ha Hb.
  destruct (Z.eq_dec a 0) as [-> | Ha0].
  { destruct (Z.eq_dec b 0) as [-> | Hb0]; [reflexivity|].
    destruct (ofZ_exact b ltac:(lia)) as (m & e & Hm & _).
    rewrite Z.mul_0_l, Hm. reflexivity. }
  destruct (Z.eq_dec b 0) as [-> | Hb0].
  { destruct (ofZ_exact a ltac:(lia)) as (m & e & Hm & _).
    rewrite Z.mul_0_r, Hm. reflexivity. }
  destruct (ofZ_exact a ltac:(lia)) as (ma & ea & Hma & Hxa & Hva).
  destruct (ofZ_exact b ltac:(lia)) as (mb & eb & Hmb & Hxb & Hvb).
  rewrite Hma, Hmb. unfold JS.mul.
  apply (RoundOf_unique (inject_Z (a * b))); [|apply ofZ_RoundOf; nia].
  eapply RoundOf_ext; [|apply SFmul_RoundOf; assumption].
  rewrite inject_Z_mult, Hva, Hvb. reflexivity.
Qed.

Lemma sub_ofZ (a b : Z) :
  0 <= b <= a -> a < 2 ^ 53 ->
  (JS.ofZ a - JS.ofZ b)%js = JS.ofZ (a - b).
Proof.
  intros Hb Ha.
  destruct (Z.eq_dec b 0) as [-> | Hb0].
  { destruct (Z.eq_dec a 0) as [-> | Ha0]; [reflexivity|].
    destruct (ofZ_exact a ltac:(lia)) as (m & e & Hm & _).
    rewrite Z.sub_0_r, Hm. reflexivity. }
  destruct (ofZ_exact a ltac:(lia)) as (ma & ea & Hma & Hxa & Hva).
  destruct (ofZ_exact b ltac:(lia)) as (mb & eb & Hmb & Hxb & Hvb).
  rewrite Hma, Hmb. unfold JS.sub. cbn [SFsub].
  apply (RoundOf_unique (inject_Z (a - b))); [|apply ofZ_RoundOf; lia].
  set (ez := Z.min ea eb).
  pose proof (aligned_value false ma ea ez ltac:(unfold ez; lia)) as Ta.
  pose proof (aligned_value false mb eb ez ltac:(unfold ez; lia)) as Tb.
  cbn [cond_Zopp] in Ta, Tb |- *.
  set (A := Zpos (fst (shl_align ma ea ez))) in *.
  set (B := Zpos (fst (shl_align mb eb ez))) in *.
  assert (HD : (inject_Z (A - B) * pow2 ez == inject_Z (a - b))%Q).
  { unfold Z.sub. rewrite !inject_Z_plus, !inject_Z_opp.
    rewrite <- Hva, <- Hvb, <- Ta, <- Tb. ring. }
  assert (H0 : 0 <= A - B).
  { apply inject_Z_le_inv. change (inject_Z 0) with 0%Q.
    pose proof (pow2_pos ez).
    assert (0 <= inject_Z (a - b))%Q
      by (change 0%Q with (inject_Z 0); apply inject_Z_le; lia).
    nra. }
  change (A + - B) with (A - B).
  eapply RoundOf_ext; [exact HD|]. apply RoundOf_binary_normalize. exact H0.
Qed.

Lemma binary_round_sign (s : bool) (m : positive) (e : Z) :
  binary_round 53 1024 s m e = withSign s (binary_round 53 1024 false m e).
Proof.
  unfold binary_round.
  destruct (shl_align m e (fexp 53 1024 (Zpos (digits2_pos m) + e))) as [mz ez].
  rewrite !binary_round_aux_unfold.
  destruct (shr_fexp 53 1024 (Zpos mz) ez loc_Exact) as [mrs e'].
  unfold roundFinish.
  destruct (shr_fexp 53 1024 _ e' loc_Exact) as [mrs' e''].
  destruct (shr_m mrs') as [|p|p]; try reflexivity.
  destruct (e'' <=? 1024 - 53); reflexivity.
Qed.

Lemma ofZ_nonneg_shape (z : Z) :
  0 <= z ->
  JS.ofZ z = S754_zero false \/ JS.ofZ z = S754_infinity false
  \/ exists m e, JS.ofZ z = S754_finite false m e.
Proof.
  intros Hz. apply (RoundOf_shape (inject_Z z)). apply ofZ_RoundOf. exact Hz.
Qed.

Lemma ofZ_negative_shape (z : Z) :
  z < 0 ->
  JS.ofZ z = S754_zero true \/ JS.ofZ z = S754_infinity true
  \/ exists m e, JS.ofZ z = S754_finite true m e.
Proof.
  intros Hz. destruct z as [|p|p]; try lia.
  unfold JS.ofZ. cbn [binary_normalize].
  change JS.prec with 53. change JS.emax with 1024.
  rewrite binary_round_sign.
  destruct (ofZ_nonneg_shape (Zpos p) ltac:(lia)) as [E | [E | (m & e & E)]];
    unfold JS.ofZ in E; cbn [binary_normalize] in E;
    change JS.prec with 53 in E; change JS.emax with 1024 in E;
    rewrite E; cbn [withSign]; eauto.
Qed.

Lemma SFltb_asym (x y : spec_float) :
  SFleb y x = true -> SFltb x y = false.
Proof.
  unfold SFleb, SFltb.
  destruct x as [sx|[]| |[] mx ex], y as [sy|[]| |[] my ey];
    cbn [SFcompare]; try reflexivity; try discriminate.
  - rewrite (Z.compare_antisym ey ex).
    destruct (ey ?= ex) eqn:He; cbn [CompOpp]; try reflexivity; try discriminate.
    change (Pos.compare_cont Eq mx my) with (Pos.compare mx my).
    change (Pos.compare_cont Eq my mx) with (Pos.compare my mx).
    rewrite (Pos.compare_antisym my mx).
    destruct (my ?= mx)%positive; cbn; try reflexivity; discriminate.
  - rewrite (Z.compare_antisym ey ex).
    destruct (ey ?= ex) eqn:He; cbn [CompOpp]; try reflexivity; try discriminate.
    change (Pos.compare_cont Eq mx my) with (Pos.compare mx my).
    change (Pos.compare_cont Eq my mx) with (Pos.compare my mx).
    rewrite (Pos.compare_antisym my mx).
    destruct (my ?= mx)%positive; cbn; try reflexivity; discriminate.
Qed.

(** The larger of a non-negative integer and an integer is an integer
    that is not below the first. *)
Lemma max_ofZ (lo z : Z) :
  0 <= lo -> exists z', lo <= z' /\ JS.max (JS.ofZ lo) (JS.ofZ z) = JS.ofZ z'.
Proof.
  intros Hlo.
  destruct (Z.lt_ge_cases z lo) as [Hlt | Hge].
  - exists lo. split; [lia|].
    destruct (Z.lt_ge_cases z 0) as [Hneg | Hpos].
    + destruct (ofZ_nonneg_shape lo Hlo) as [-> | [-> | (m & e & ->)]];
        destruct (ofZ_negative_shape z Hneg) as [-> | [-> | (m' & e' & ->)]];
        reflexivity.
    + assert (Hle : SFleb (JS.ofZ z) (JS.ofZ lo) = true).
      { apply (RoundOf_le (inject_Z z) (inject_Z lo));
          try apply ofZ_RoundOf; try lia.
        apply inject_Z_le. lia. }
      apply SFltb_asym in Hle. unfold JS.max, JS.ltb. rewrite Hle.
      destruct (ofZ_nonneg_shape lo Hlo) as [-> | [-> | (m & e & ->)]];
        destruct (ofZ_nonneg_shape z Hpos) as [-> | [-> | (m' & e' & ->)]];
        reflexivity.
  - assert (Hmax : JS.max (JS.ofZ lo) (JS.ofZ z) = JS.ofZ lo
                   \/ JS.max (JS.ofZ lo) (JS.ofZ z) = JS.ofZ z).
    { unfold JS.max.
      destruct (ofZ_nonneg_shape lo Hlo) as [-> | [-> | (m & e & ->)]];
        destruct (ofZ_nonneg_shape z ltac:(lia))
          as [-> | [-> | (m' & e' & ->)]];
        cbn [andb];
        try (left; reflexivity); try (right; reflexivity);
        match goal with |- context [if ?c then _ else _] => destruct c end;
        auto. }
    destruct Hmax as [-> | ->]; [exists lo|exists z]; split; (lia || reflexivity).
Qed.

(** A square root is not below zero. *)
Lemma sqrt_not_negative (x : JS.number) (s : bool) :
  (JS.sqrt x <? S754_zero s)%js = false.
Proof.
  unfold JS.sqrt, SFsqrt, JS.ltb.
  destruct x as [sx|[]| |[] m e]; try reflexivity.
  destruct (SFsqrt_core_binary JS.prec JS.emax (Zpos m) e) as [[mz ez] lz].
  change JS.prec with 53. change JS.emax with 1024.
  rewrite binary_round_aux_unfold.
  destruct (shr_fexp 53 1024 mz ez lz) as [mrs e'].
  unfold roundFinish.
  destruct (shr_fexp 53 1024 _ e' loc_Exact) as [mrs' e''].
  destruct (shr_m mrs') as [|p|p]; try reflexivity.
  destruct (e'' <=? 1024 - 53); reflexivity.
Qed.

Lemma eqb_zero (x : JS.number) :
  JS.eqb x (JS.ofZ 0) = true -> exists s, x = S754_zero s.
Proof.
  destruct x as [s|s| |s m e]; try discriminate; eauto;
    destruct s; discriminate.
Qed.

(** Below a threshold, below every larger threshold. *)
Lemma ltb_leb_trans (d t1 t2 : spec_float) :
  valid_binary 53 1024 d = true -> NNV t1 -> NNV t2 ->
  SFltb d t1 = true -> SFleb t1 t2 = true -> SFltb d t2 = true.
Proof.
  intros Hvd [Hn1 Hv1] [Hn2 Hv2] Hlt Hle.
  destruct t2 as [s2|[]| |[] m2 e2]; try discriminate.
  - destruct t1 as [s1|[]| |[] m1 e1]; try discriminate.
    destruct d as [sd|[]| |[] md ed]; try discriminate; reflexivity.
  - destruct d as [sd|[]| |[] md ed]; try reflexivity.
    + rewrite SFltb_inf_l in Hlt. discriminate.
    + discriminate.
  - destruct t1 as [s1|[]| |[] m1 e1]; try discriminate.
    + destruct d as [sd|[]| |[] md ed]; try discriminate; reflexivity.
    + destruct d as [sd|[]| |sd md ed]; try discriminate; try reflexivity.
      * assert (H2 : (value (S754_finite false m1 e1)
                      <= value (S754_finite false m2 e2))%Q)
          by (apply SFleb_value; auto).
        unfold SFltb in Hlt |- *.
        rewrite SFcompare_value in Hlt by auto.
        rewrite SFcompare_value by auto.
        destruct (Qcompare_spec (value (S754_finite sd md ed))
                    (value (S754_finite false m1 e1))); try discriminate.
        destruct (Qcompare_spec (value (S754_finite sd md ed))
                    (value (S754_finite false m2 e2))); try reflexivity; lra.
Qed.



(** ** The colour picker *)

Lemma toInt32_small (z : Z) : - 2 ^ 31 <= z < 2 ^ 31 -> toInt32 z = z.
Proof.
  intros H. unfold toInt32. rewrite Z.mod_small; lia.
Qed.

(** Bits that do not overlap are joined by [|] as by [+]. *)
Lemma lor_shiftl_add (a b n : Z) :
  0 <= n -> 0 <= b < 2 ^ n -> Z.lor (Z.shiftl a n) b = a * 2 ^ n + b.
Proof.
  intros Hn Hb.
  assert (Hland : Z.land (Z.shiftl a n) b = 0).
  { apply Z.bits_inj'. intros m Hm. rewrite Z.land_spec, Z.bits_0.
    destruct (Z.lt_ge_cases m n) as [Hlt | Hge].
    - rewrite Z.shiftl_spec_low by assumption. reflexivity.
    - destruct (Z.eq_dec b 0) as [-> | Hb0].
      + rewrite Z.bits_0. apply andb_false_r.
      + rewrite (Z.bits_above_log2 b m); [apply andb_false_r | lia |].
        assert (Z.log2 b < n) by (apply Z.log2_lt_pow2; lia). lia. }
  rewrite <- Z.lxor_lor by assumption.
  rewrite <- Z.add_nocarry_lxor by assumption.
  rewrite Z.shiftl_mul_pow2 by assumption. reflexivity.
Qed.

Lemma shl_small (a n : Z) :
  0 <= n < 32 -> 0 <= a -> a * 2 ^ n < 2 ^ 31 -> shl a n = a * 2 ^ n.
Proof.
  intros Hn Ha Hlt. unfold shl.
  assert (0 < 2 ^ n) by (apply Z.pow_pos_nonneg; lia).
  assert (Hl : Z.land n 31 = n).
  { change 31 with (Z.ones 5). rewrite Z.land_ones by lia.
    apply Z.mod_small. change (2 ^ 5) with 32. lia. }
  rewrite Hl, (toInt32_small a) by nia.
  rewrite Z.shiftl_mul_pow2 by lia. apply toInt32_small. lia.
Qed.

Lemma bitOr_small (a b n : Z) :
  0 <= n -> 0 <= a -> 0 <= b < 2 ^ n -> a * 2 ^ n + b < 2 ^ 31 ->
  bitOr (a * 2 ^ n) b = a * 2 ^ n + b.
Proof.
  intros Hn Ha Hb Hlt. unfold bitOr.
  assert (0 < 2 ^ n) by (apply Z.pow_pos_nonneg; lia).
  rewrite (toInt32_small (a * 2 ^ n)), (toInt32_small b) by nia.
  rewrite <- (Z.shiftl_mul_pow2 a n) by assumption.
  rewrite lor_shiftl_add by assumption.
  rewrite Z.shiftl_mul_pow2 by assumption. apply toInt32_small. nia.
Qed.

Lemma packed_rgb (r g b : Z) :
  0 <= r <= 255 -> 0 <= g <= 255 -> 0 <= b <= 255 ->
  bitOr (bitOr (shl r 16) (shl g 8)) b = r * 65536 + g * 256 + b.
Proof.
  intros Hr Hg Hb.
  rewrite (shl_small r 16), (shl_small g 8) by lia.
  rewrite (bitOr_small r (g * 2 ^ 8) 16) by lia.
  replace (r * 2 ^ 16 + g * 2 ^ 8) with ((r * 256 + g) * 2 ^ 8) by lia.
  rewrite bitOr_small by lia. lia.
Qed.


Lemma nibble_cases (d : Z) : 0 <= d < 16 -> In d nibbles.
Proof.
  intros H. unfold nibbles. cbn [In].
  assert (d = 0 \/ d = 1 \/ d = 2 \/ d = 3 \/ d = 4 \/ d = 5 \/ d = 6 \/ d = 7
          \/ d = 8 \/ d = 9 \/ d = 10 \/ d = 11 \/ d = 12 \/ d = 13 \/ d = 14
          \/ d = 15) by lia.
  intuition auto.
Qed.

Lemma hexChar_digit (d : Z) :
  0 <= d < 16 -> isHexDigit (hexChar d) = true /\ hexDigitValue (hexChar d) = d.
Proof.
  intros H. apply nibble_cases in H.
  assert (Hall : forallb (fun d => isHexDigit (hexChar d)
                                   && (hexDigitValue (hexChar d) =? d))
                   nibbles = true) by (vm_compute; reflexivity).
  rewrite forallb_forall in Hall. apply Hall in H.
  apply andb_prop in H as [H1 H2]. apply Z.eqb_eq in H2. auto.
Qed.


Lemma padded_slice (v : Z) :
  0 <= v < 16 ^ 6 ->
  sliceLast 6 (String.append "000000" (toString16 v)) = sixDigits v.
Proof.
  intros Hv. unfold toString16.
  destruct (Z.ltb_spec v 0) as [?|_]; [lia|].
  assert (H2 : v / 16 ^ 2 = v / 16 / 16)
    by (rewrite !Z.div_div by lia; reflexivity).
  assert (H3 : v / 16 ^ 3 = v / 16 / 16 / 16)
    by (rewrite !Z.div_div by lia; reflexivity).
  assert (H4 : v / 16 ^ 4 = v / 16 / 16 / 16 / 16)
    by (rewrite !Z.div_div by lia; reflexivity).
  assert (H5 : v / 16 ^ 5 = v / 16 / 16 / 16 / 16 / 16)
    by (rewrite !Z.div_div by lia; reflexivity).
  unfold sixDigits. rewrite H5, H4, H3, H2. clear H2 H3 H4 H5.
  cbn [hexDigits].
  remember (v / 16) as v1 eqn:E1. remember (v1 / 16) as v2 eqn:E2.
  remember (v2 / 16) as v3 eqn:E3. remember (v3 / 16) as v4 eqn:E4.
  remember (v4 / 16) as v5 eqn:E5.
  assert (Hsmall : forall x y, y = x / 16 -> 0 <= x < 16 -> y = 0)
    by (intros x y -> Hx; apply Z.div_small; exact Hx).
  assert (Hpos : forall x y, y = x / 16 -> 0 <= x -> 0 <= y)
    by (intros x y -> Hx; apply Z.div_pos; lia).
  pose proof (Hpos _ _ E1 ltac:(lia)) as P1.
  pose proof (Hpos _ _ E2 P1) as P2. pose proof (Hpos _ _ E3 P2) as P3.
  pose proof (Hpos _ _ E4 P3) as P4. pose proof (Hpos _ _ E5 P4) as P5.
  destruct (Z.ltb_spec v 16) as [H0|H0].
  { rewrite (Hsmall _ _ E1) in * by lia. rewrite (Hsmall _ _ E2) in * by lia.
    rewrite (Hsmall _ _ E3) in * by lia. rewrite (Hsmall _ _ E4) in * by lia.
    rewrite (Hsmall _ _ E5) by lia. reflexivity. }
  destruct (Z.ltb_spec v1 16) as [H1|H1].
  { rewrite (Hsmall _ _ E2) in * by lia.
    rewrite (Hsmall _ _ E3) in * by lia. rewrite (Hsmall _ _ E4) in * by lia.
    rewrite (Hsmall _ _ E5) by lia. reflexivity. }
  destruct (Z.ltb_spec v2 16) as [H2|H2].
  { rewrite (Hsmall _ _ E3) in * by lia. rewrite (Hsmall _ _ E4) in * by lia.
    rewrite (Hsmall _ _ E5) by lia. reflexivity. }
  destruct (Z.ltb_spec v3 16) as [H3|H3].
  { rewrite (Hsmall _ _ E4) in * by lia.
    rewrite (Hsmall _ _ E5) by lia. reflexivity. }
  destruct (Z.ltb_spec v4 16) as [H4|H4].
  { rewrite (Hsmall _ _ E5) by lia. reflexivity. }
  destruct (Z.ltb_spec v5 16) as [H5|H5].
  { reflexivity. }
  exfalso. subst v5 v4 v3 v2 v1.
  Z.to_euclidean_division_equations. lia.
Qed.

Lemma hexToRgb_sixDigits (v : Z) :
  0 <= v < 16 ^ 6 ->
  specValidHexColor (String "#" (sixDigits v)) = true
  /\ hexToRgb (String "#" (sixDigits v))
     = (v / 65536, v / 256 mod 256, v mod 256).
Proof.
  intros Hv.
  assert (Hd : forall x, isHexDigit (hexChar (x mod 16)) = true
                         /\ hexDigitValue (hexChar (x mod 16)) = x mod 16).
  { intros x. apply hexChar_digit. apply Z.mod_pos_bound. lia. }
  split.
  - unfold specValidHexColor, sixDigits. cbn [String.length Nat.eqb andb].
    cbn [list_ascii_of_string forallb].
    rewrite <- !isHexDigit_spec. rewrite !(proj1 (Hd _)). reflexivity.
  - unfold hexToRgb, hexRegexExec, sixDigits. cbn [matchSixHex].
    rewrite !(proj1 (Hd _)). cbn [andb]. unfold parseHexPair. cbn [fst snd].
    rewrite !(proj2 (Hd _)).
    change (16 ^ 5) with 1048576. change (16 ^ 4) with 65536.
    change (16 ^ 3) with 4096. change (16 ^ 2) with 256.
    change (16 ^ 6) with 16777216 in Hv.
    f_equal; [f_equal|]; Z.to_euclidean_division_equations; lia.
Qed.

Lemma pickedHex_bytes (r g b : Z) (rest : list Z) :
  0 <= r <= 255 -> 0 <= g <= 255 -> 0 <= b <= 255 ->
  specValidHexColor (pickedHex (r :: g :: b :: rest)) = true
  /\ hexToRgb (pickedHex (r :: g :: b :: rest)) = (r, g, b).
Proof.
  intros Hr Hg Hb. unfold pickedHex.
  change (channelAt (r :: g :: b :: rest) 0) with r.
  change (channelAt (r :: g :: b :: rest) 1) with g.
  change (channelAt (r :: g :: b :: rest) 2) with b.
  rewrite packed_rgb by assumption.
  assert (Hv : 0 <= r * 65536 + g * 256 + b < 16 ^ 6)
    by (change (16 ^ 6) with 16777216; lia).
  rewrite padded_slice by exact Hv.
  destruct (hexToRgb_sixDigits _ Hv) as [H1 H2]. split; [exact H1|].
  rewrite H2. f_equal; [f_equal|]; Z.to_euclidean_division_equations; lia.
Qed.

(** A byte is at distance 0 from itself. *)
Lemma sub_self_byte (z : Z) :
  0 <= z <= 255 -> (JS.ofZ z - JS.ofZ z)%js = S754_zero false.
Proof.
  intros Hz.
  assert (Hall : forallb (fun n => sameNumber
                                     (JS.ofNat n - JS.ofNat n)%js
                                     (S754_zero false))
                   (seq 0 256) = true) by (vm_compute; reflexivity).
  rewrite forallb_forall in Hall.
  specialize (Hall (Z.to_nat z)).
  unfold JS.ofNat in Hall. rewrite Z2Nat.id in Hall by lia.
  apply sameNumber_eq. apply Hall. apply in_seq. lia.
Qed.

Lemma colourDistance_self (r g b : Z) :
  0 <= r <= 255 -> 0 <= g <= 255 -> 0 <= b <= 255 ->
  colourDistance (r, g, b) (JS.ofZ r) (JS.ofZ g) (JS.ofZ b) = S754_zero false.
Proof.
  intros Hr Hg Hb. unfold colourDistance.
  rewrite !sub_self_byte by assumption. reflexivity.
Qed.

(** A positive similarity gives a positive threshold. *)
Lemma threshold_positive (x : JS.number) :
  valid_binary 53 1024 x = true -> (JS.ofZ 0 <? x)%js = true ->
  (JS.ofZ 0 <? x * JS.ofZ 442)%js = true.
Proof.
  intros Hv Hx.
  assert (H442 : exists mc ec,
             JS.ofZ 442 = S754_finite false mc ec
             /\ valid_binary 53 1024 (S754_finite false mc ec) = true
             /\ (1 <= inject_Z (Zpos mc) * pow2 ec)%Q).
  { do 2 eexists. split; [vm_compute; reflexivity|].
    split; [vm_compute; reflexivity|]. vm_compute. discriminate. }
  destruct H442 as (mc & ec & -> & Hc & H1).
  destruct (positive_cases x Hx) as [-> | (m & e & ->)]; [reflexivity|].
  pose proof (SFmul_RoundOf m mc e ec Hv Hc) as HR.
  pose proof (RoundOf_exact m e Hv) as HE.
  pose proof (value_finite_pos m e) as Hpos.
  assert (Hle : SFleb (S754_finite false m e)
                  (SFmul 53 1024 (S754_finite false m e)
                     (S754_finite false mc ec)) = true).
  { eapply RoundOf_le; [exact HE|exact HR|]. nra. }
  pose proof (RoundOf_nonneg _ _ HR) as Hn.
  change (JS.mul (S754_finite false m e) (S754_finite false mc ec))
    with (SFmul 53 1024 (S754_finite false m e) (S754_finite false mc ec)).
  destruct (SFmul 53 1024 (S754_finite false m e) (S754_finite false mc ec))
    as [s|[]| |[] m' e']; try discriminate; reflexivity.
Qed.

Section PickerFacts.

Variable getImageData : Image -> JS.number -> JS.number -> list Z.
Variable resample : Image -> Z -> Z -> list Z.

(** X1. A click on the preview reads one pixel of the previewed frame
    and stores its colour as the key colour: for a pixel of bytes
    (r, g, b) the stored string is [#] followed by six hexadecimal
    digits, [hexToRgb] reads (r, g, b) back from it, and nothing else of
    the chroma settings, of the frame list or of the preview index
    changes. *)
Theorem handleCanvasClick_key_colour (width height : Z) (e : CanvasClick)
    (ui : UiState) (frame : Frame) (r g b a : Z) :
  frameAt (frames (app ui)) (previewFrameIndex ui) = Some frame ->
  let x := ((clientX e - rectLeft e) * (JS.ofZ width / rectWidth e))%js in
  let y := ((clientY e - rectTop e) * (JS.ofZ height / rectHeight e))%js in
  getImageData (originalDataUrl frame) x y = [r; g; b; a] ->
  0 <= r <= 255 -> 0 <= g <= 255 -> 0 <= b <= 255 ->
  let ui' := handleCanvasClick getImageData (Some (width, height)) true e ui in
  let s := chromaSettings (app ui) in
  let s' := chromaSettings (app ui') in
  specValidHexColor (color s') = true
  /\ hexToRgb (color s') = (r, g, b)
  /\ enabled s' = enabled s
  /\ similarity s' = similarity s
  /\ smoothness s' = smoothness s
  /\ frames (app ui') = frames (app ui)
  /\ previewFrameIndex ui' = previewFrameIndex ui.
Proof.
  intros Hf x y Hp Hr Hg Hb. cbv zeta. unfold handleCanvasClick.
  rewrite Hf. fold x y. rewrite Hp.
  cbn [app chromaSettings setChromaSettings color enabled similarity
         smoothness frames previewFrameIndex].
  destruct (pickedHex_bytes r g b [a] Hr Hg Hb) as [H1 H2].
  repeat split; assumption || reflexivity.
Qed.

(** X2. After such a click, with the chroma key enabled and a positive
    similarity, [processFrame] makes every pixel of exactly the picked
    colour fully transparent, in any image. *)
Theorem handleCanvasClick_then_processFrame (width height : Z)
    (e : CanvasClick) (ui : UiState) (frame : Frame) (r g b a : Z)
    (img : Image) (w h : Z) (k : nat) (a0 : Z) :
  frameAt (frames (app ui)) (previewFrameIndex ui) = Some frame ->
  let x := ((clientX e - rectLeft e) * (JS.ofZ width / rectWidth e))%js in
  let y := ((clientY e - rectTop e) * (JS.ofZ height / rectHeight e))%js in
  getImageData (originalDataUrl frame) x y = [r; g; b; a] ->
  0 <= r <= 255 -> 0 <= g <= 255 -> 0 <= b <= 255 ->
  let s := chromaSettings (app ui) in
  enabled s = true ->
  valid_binary 53 1024 (similarity s) = true ->
  (JS.ofZ 0 <? similarity s)%js = true ->
  let ui' := handleCanvasClick getImageData (Some (width, height)) true e ui in
  pixelAt (drawImage resample img w h) k r g b a0 ->
  processFrame resample img (chromaSettings (app ui')) w h !! (4 * k + 3)%nat
  = Some 0.
Proof.
  intros Hf x y Hp Hr Hg Hb s He Hv Hs ui' Hpx.
  assert (Hui : chromaSettings (app ui')
                = {| enabled := enabled s; color := pickedHex [r; g; b; a];
                     similarity := similarity s; smoothness := smoothness s;
                     spill := spill s |}).
  { unfold ui', handleCanvasClick. rewrite Hf. fold x y. rewrite Hp.
    reflexivity. }
  rewrite Hui.
  rewrite (processFrame_alpha resample img _ w h k r g b a0); [|exact He|exact Hpx].
  cbv zeta. cbn [color similarity smoothness].
  rewrite (proj2 (pickedHex_bytes r g b [a] Hr Hg Hb)).
  rewrite colourDistance_self by assumption.
  change (S754_zero false) with (JS.ofZ 0) at 1.
  rewrite threshold_positive by assumption. reflexivity.
Qed.

End PickerFacts.

(** ** The chroma key applied twice, and its settings *)

Section ChromaTwice.

Variable resample : Image -> Z -> Z -> list Z.

Lemma opaque_lookup (data : list Z) (k : nat) (a : Z) :
  opaque data = true -> data !! (4 * k + 3)%nat = Some a -> a = 255.
Proof.
  revert k. induction data as [l Hl | x1 x2 x3 x4 rest IH] using pixels_ind;
    intros k Hop Ha.
  - apply lookup_lt_Some in Ha. lia.
  - cbn [opaque] in Hop. apply andb_prop in Hop as [H4 Hrest].
    destruct k as [|k].
    + cbn in Ha. injection Ha as <-. apply Z.eqb_eq. exact H4.
    + replace (4 * S k + 3)%nat with (S (S (S (S (4 * k + 3))))) in Ha by lia.
      exact (IH k Hrest Ha).
Qed.

(** The four bytes of a pixel whose alpha byte is there. *)
Lemma pixelAt_complete (data : list Z) (k : nat) (a : Z) :
  data !! (4 * k + 3)%nat = Some a -> exists r g b, pixelAt data k r g b a.
Proof.
  intros Ha. pose proof (lookup_lt_Some _ _ _ Ha) as Hlen.
  destruct (lookup_lt_is_Some_2 data (4 * k)%nat ltac:(lia)) as [r Hr].
  destruct (lookup_lt_is_Some_2 data (4 * k + 1)%nat ltac:(lia)) as [g Hg].
  destruct (lookup_lt_is_Some_2 data (4 * k + 2)%nat ltac:(lia)) as [b Hb].
  exists r, g, b. repeat split; assumption.
Qed.

(** With a smoothing range of zero, the loop decides again as it did:
    a pixel it made transparent has lost its colour and stays
    transparent, and an opaque pixel it kept is tested as before. *)
Lemma keyedAlpha_again (settings : ChromaSettings) (r g b : Z) :
  JS.eqb (smoothness settings * JS.ofZ 100)%js (JS.ofZ 0) = true ->
  let alpha := keyedAlpha settings r g b 255 in
  keyedAlpha settings (storedChannel r alpha) (storedChannel g alpha)
    (storedChannel b alpha) alpha = alpha.
Proof.
  intros Hz. cbv zeta.
  remember (keyedAlpha settings r g b 255) as alpha eqn:Ealpha.
  pose proof Ealpha as Hd. unfold keyedAlpha in Hd. cbv zeta in Hd.
  rewrite ltb_add_zero in Hd by assumption.
  destruct (_ <? _)%js eqn:Htest in Hd; subst alpha; rewrite Hd.
  - change (storedChannel r 0) with 0. change (storedChannel g 0) with 0.
    change (storedChannel b 0) with 0.
    unfold keyedAlpha. cbv zeta. rewrite ltb_add_zero by assumption.
    match goal with
    | |- context [if ?c then _ else _] => destruct c
    end; reflexivity.
  - change (storedChannel r 255) with r. change (storedChannel g 255) with g.
    change (storedChannel b 255) with b. exact Hd.
Qed.

(** X3. With a smoothing range of zero the chroma key is idempotent on
    a frame whose pixels are all opaque: applied at the image's own size
    to its own result, with the same settings, it returns that result.
    So it is, on every frame, when it is disabled. *)
Theorem applyChroma_idempotent (settings : ChromaSettings) (img : Image) :
  (enabled settings = true ->
   JS.eqb (smoothness settings * JS.ofZ 100)%js (JS.ofZ 0) = true
   /\ opaque (img_data img) = true) ->
  applyChroma resample settings (applyChroma resample settings img)
  = applyChroma resample settings img.
Proof.
  intros Hyp. destruct (enabled settings) eqn:He.
  2:{ exact (applyChroma_disabled_iter resample settings img 1 He). }
  destruct (Hyp eq_refl) as [Hz Hop].
  unfold applyChroma. cbn [img_width img_height img_data]. f_equal.
  set (w := img_width img). set (h := img_height img).
  set (O1 := processFrame resample img settings w h).
  set (img1 := {| img_width := w; img_height := h; img_data := O1 |}).
  assert (HO1 : O1 = stored (keyedData resample img settings w h))
    by (apply processFrame_enabled; exact He).
  assert (HD1 : drawImage resample img w h = img_data img).
  { unfold w, h. rewrite drawImage_own_size. apply stored_opaque. exact Hop. }
  assert (HD2 : drawImage resample img1 w h = O1).
  { unfold drawImage, img1. cbn [img_width img_height img_data].
    rewrite !Z.eqb_refl. cbn [andb]. rewrite HO1. apply stored_again. }
  rewrite (processFrame_enabled resample img1 settings w h He).
  assert (HL2 : keyedData resample img1 settings w h = O1).
  { apply list_eq. intros p.
    destruct (decide (p mod 4 = 3)%nat) as [Hp | Hp].
    - set (k := (p / 4)%nat).
      assert (Hk : p = (4 * k + 3)%nat)
        by (unfold k; pose proof (Nat.div_mod_eq p 4); lia).
      rewrite Hk. destruct (O1 !! (4 * k + 3)%nat) as [alpha|] eqn:Ea.
      + destruct (pixelAt_complete _ _ _ Ea) as (r' & g' & b' & Hpx2).
        rewrite (keyedData_alpha resample img1 settings w h k r' g' b' alpha)
          by (rewrite HD2; exact Hpx2).
        f_equal.
        (* the pixel before the canvas stored it *)
        assert (Hlen1 : length (keyedData resample img settings w h)
                        = length O1)
          by (rewrite HO1, stored_length; reflexivity).
        pose proof (lookup_lt_Some _ _ _ Ea) as Hlt.
        destruct (lookup_lt_is_Some_2
                    (keyedData resample img settings w h) (4 * k + 3)%nat
                    ltac:(lia)) as [a1 Ea1].
        destruct (pixelAt_complete _ _ _ Ea1) as (r & g & b & Hpx1).
        pose proof (stored_pixelAt _ _ _ _ _ _ Hpx1) as Hst.
        rewrite <- HO1 in Hst.
        destruct Hpx2 as (Hr2 & Hg2 & Hb2 & Ha2), Hst as (Sr & Sg & Sb & Sa).
        assert (alpha = a1) by congruence. subst a1.
        assert (r' = storedChannel r alpha) by congruence.
        assert (g' = storedChannel g alpha) by congruence.
        assert (b' = storedChannel b alpha) by congruence.
        subst r' g' b'.
        (* the pixel before the loop *)
        assert (Hlen0 : length (keyedData resample img settings w h)
                        = length (img_data img)).
        { unfold keyedData. cbv zeta. rewrite chromaLoop_length, HD1.
          reflexivity. }
        destruct (lookup_lt_is_Some_2 (img_data img) (4 * k + 3)%nat
                    ltac:(lia)) as [a0 Ea0].
        pose proof (opaque_lookup _ _ _ Hop Ea0). subst a0.
        destruct (pixelAt_complete _ _ _ Ea0) as (r0 & g0 & b0 & Hpx0).
        rewrite <- HD1 in Hpx0.
        pose proof (keyedData_pixelAt resample img settings w h k
                      r0 g0 b0 255 Hpx0) as (Kr & Kg & Kb & Ka).
        destruct Hpx1 as (Hr1 & Hg1 & Hb1 & Ha1).
        assert (r = r0) by congruence. assert (g = g0) by congruence.
        assert (b = b0) by congruence. subst r0 g0 b0.
        assert (Halpha : alpha = keyedAlpha settings r g b 255) by congruence.
        rewrite Halpha. apply keyedAlpha_again. exact Hz.
      + apply lookup_ge_None. apply lookup_ge_None in Ea.
        unfold keyedData. cbv zeta. rewrite chromaLoop_length, HD2. exact Ea.
    - unfold keyedData. cbv zeta. rewrite HD2.
      apply chromaLoop_lookup_other. intros q Hq. apply Hp.
      rewrite Hq. cbn [Nat.add].
      replace (4 * q + 3)%nat with (3 + q * 4)%nat by lia.
      rewrite Nat.Div0.mod_add. reflexivity. }
  rewrite HL2, HO1. apply stored_again.
Qed.

End ChromaTwice.

Section SettingsFacts.

Variable resample : Image -> Z -> Z -> list Z.

Lemma chromaLoop_nothing (key : Z * Z * Z) (t s : JS.number) :
  (forall d, (JS.sqrt d <? t)%js = false) ->
  (forall d, (JS.sqrt d <? t + s)%js = false) ->
  forall fuel i data, chromaLoop fuel key t s i data = data.
Proof.
  intros Ht Hs. induction fuel as [|fuel IH]; intros i data; [reflexivity|].
  cbn [chromaLoop]. destruct (i <? length data)%nat; [|reflexivity].
  assert (Hstep : chromaStep key t s data i = data).
  { unfold chromaStep, colourDistance. destruct key as [[kr kg] kb].
    rewrite Ht, Hs. reflexivity. }
  rewrite Hstep. apply IH.
Qed.

(** X4. With a similarity and a smoothness of zero no distance is below
    the threshold or inside the smoothing band: [processFrame] returns
    the drawn pixels as they are, whatever the key colour and whether
    the chroma key is enabled or not. *)
Theorem processFrame_zero_settings (img : Image) (settings : ChromaSettings)
    (width height : Z) :
  JS.eqb (similarity settings) (JS.ofZ 0) = true ->
  JS.eqb (smoothness settings) (JS.ofZ 0) = true ->
  processFrame resample img settings width height
  = drawImage resample img width height.
Proof.
  intros Hsim Hsm. unfold processFrame.
  destruct (enabled settings); [|reflexivity]. cbn [negb].
  unfold keyedData. cbv zeta.
  apply eqb_zero in Hsim as [s1 ->]. apply eqb_zero in Hsm as [s2 ->].
  rewrite chromaLoop_nothing.
  - unfold drawImage. apply stored_again.
  - intros d. destruct s1; apply sqrt_not_negative.
  - intros d. destruct s1, s2; apply sqrt_not_negative.
Qed.

(** X5. Raising the similarity never brings a pixel back: a pixel whose
    distance to the key colour is below the threshold of a similarity
    is given alpha 0, and it is given alpha 0 as well for every larger
    similarity with the same key colour. *)
Theorem processFrame_similarity_monotone (img : Image)
    (s1 s2 : ChromaSettings) (width height : Z) (k : nat) (r g b a : Z) :
  enabled s1 = true -> enabled s2 = true -> color s2 = color s1 ->
  valid_binary 53 1024 (similarity s1) = true ->
  valid_binary 53 1024 (similarity s2) = true ->
  (JS.ofZ 0 <=? similarity s1)%js = true ->
  (similarity s1 <=? similarity s2)%js = true ->
  pixelAt (drawImage resample img width height) k r g b a ->
  (colourDistance (hexToRgb (color s1)) (JS.ofZ r) (JS.ofZ g) (JS.ofZ b)
   <? similarity s1 * JS.ofZ 442)%js = true ->
  processFrame resample img s1 width height !! (4 * k + 3)%nat = Some 0
  /\ processFrame resample img s2 width height !! (4 * k + 3)%nat = Some 0.
Proof.
  intros He1 He2 Hcol Hv1 Hv2 H0 Hle Hpx Hd.
  rewrite (processFrame_alpha resample img s1 width height k r g b a He1 Hpx).
  rewrite (processFrame_alpha resample img s2 width height k r g b a He2 Hpx).
  cbv zeta. rewrite Hcol, Hd. split; [reflexivity|].
  assert (N1 : NNV (similarity s1)) by (split; [apply nonneg_leb|]; assumption).
  assert (N2 : NNV (similarity s2)).
  { split; [|assumption]. destruct N1 as [Hn1 _].
    unfold JS.leb in Hle.
    destruct (similarity s1) as [?|[]| |[] ? ?]; try discriminate;
      destruct (similarity s2) as [?|[]| |[] ? ?]; try discriminate;
      reflexivity. }
  assert (H442 : exists mc ec,
             JS.ofZ 442 = S754_finite false mc ec
             /\ valid_binary 53 1024 (S754_finite false mc ec) = true)
    by (do 2 eexists; split; vm_compute; reflexivity).
  destruct H442 as (mc & ec & E442 & Hc).
  rewrite E442 in *.
  destruct (SFmul_le _ _ _ _ Hc N1 N2 Hle) as (T1 & T2 & Hmono).
  unfold JS.ltb, JS.mul in Hd |- *.
  change JS.prec with 53 in Hd |- *. change JS.emax with 1024 in Hd |- *.
  rewrite (ltb_leb_trans _ _ _ (colourDistance_valid _ r g b) T1 T2 Hd Hmono).
  reflexivity.
Qed.

End SettingsFacts.

(** ** What extraction returns *)

Section ExtractionOutcomes.

Variable seek : JS.number -> Seek.
Variable capture : JS.number -> Image.
Variable randomUUID : nat -> string.

(** A call that is left in an [await] got as far as a seek that never
    completes, within the first 201 turns. *)
Lemma extractFrames_awaiting (env : CaptureEnv)
    (startTime endTime fps : JS.number) :
  extractFrames seek capture randomUUID env startTime endTime fps
    = Some Awaiting ->
  exists n,
    (n <= 200)%nat
    /\ (cursorAt startTime (JS.ofZ 1 / fps)%js n <=? endTime)%js = true
    /\ isFinite (cursorAt startTime (JS.ofZ 1 / fps)%js n) = true
    /\ seek (cursorAt startTime (JS.ofZ 1 / fps)%js n) = SeekPending.
Proof.
  unfold extractFrames.
  destruct (negb (videoMounted env) || negb (captureCanvasMounted env));
    [discriminate|].
  destruct (negb (captureContext env)); [discriminate|]. cbv zeta.
  destruct (extractLoop_returns seek capture randomUUID
              startTime endTime (JS.ofZ 1 / fps)%js
              (JS.max (JS.decimal 1 1) (endTime - startTime)%js) 201
              {| extracted := []; cursor := startTime;
                 progress := JS.ofZ 0; capAlert := false |})
    as (st & exit & Hloop & Hcap); [cbn; lia | reflexivity | cbn; lia |].
  rewrite Hloop. destruct exit; try discriminate. intros _.
  apply extractLoop_frames in Hloop.
  2:{ split; [reflexivity|]. intros i f Hi. discriminate. }
  destruct Hloop as [[Hcur _] (Hle & Hfin & Hseek)].
  exists (length (extracted st)). rewrite <- Hcur.
  destruct Hcap as [(_ & _ & ?) | (_ & ?)]; [discriminate|]. auto.
Qed.

(** Which outcome a call comes to is decided by the two guards first. *)
Lemma extractFrames_cases (env : CaptureEnv)
    (startTime endTime fps : JS.number) (o : Outcome) :
  extractFrames seek capture randomUUID env startTime endTime fps = Some o ->
  (o = NotStarted
   /\ (videoMounted env = false \/ captureCanvasMounted env = false))
  \/ (o = NoContext
      /\ videoMounted env = true /\ captureCanvasMounted env = true
      /\ captureContext env = false)
  \/ (videoMounted env = true /\ captureCanvasMounted env = true
      /\ captureContext env = true
      /\ (o = Awaiting \/ exists r, o = Extracted r)).
Proof.
  unfold extractFrames.
  destruct (videoMounted env); cbn [negb orb];
    [|intros [= <-]; left; auto].
  destruct (captureCanvasMounted env); cbn [negb orb];
    [|intros [= <-]; left; auto].
  destruct (captureContext env); cbn [negb];
    [|intros [= <-]; right; left; auto].
  cbv zeta.
  destruct (extractLoop_returns seek capture randomUUID
              startTime endTime (JS.ofZ 1 / fps)%js
              (JS.max (JS.decimal 1 1) (endTime - startTime)%js) 201
              {| extracted := []; cursor := startTime;
                 progress := JS.ofZ 0; capAlert := false |})
    as (st & exit & Hloop & _); [cbn; lia | reflexivity | cbn; lia |].
  rewrite Hloop.
  destruct exit; intros [= <-]; right; right; eauto 10.
Qed.

(** X6. A call of [extractFrames] comes to one of four outcomes.  It
    does nothing when the video or the canvas is not mounted, and it
    returns with the frames emptied when the canvas gives no context.
    It stays in an [await] only on a seek that never completes.
    Otherwise it sets at most 201 frames; the cap alert is raised
    exactly when it sets 201, and the only other report is the
    extraction error of the [catch] block, after which the frames
    captured so far are set.  Every frame is selected and none is later
    than [endTime]; no frame is set and nothing is reported when
    [startTime <= endTime] does not hold; and when it holds, with a
    finite [startTime] whose seek completes, the first frame is the
    capture at [startTime].  The final [vid.currentTime = startTime]
    throws, after the frames have been set, exactly when [startTime] is
    not finite. *)
Theorem extractFrames_outcome (env : CaptureEnv)
    (startTime endTime fps : JS.number) :
  exists o,
    extractFrames seek capture randomUUID env startTime endTime fps = Some o
    /\ (o = NotStarted
        <-> videoMounted env = false \/ captureCanvasMounted env = false)
    /\ (o = NoContext
        <-> videoMounted env = true /\ captureCanvasMounted env = true
            /\ captureContext env = false)
    /\ (o = Awaiting ->
        exists n,
          (n <= 200)%nat
          /\ seek (cursorAt startTime (JS.ofZ 1 / fps)%js n) = SeekPending)
    /\ forall r,
         o = Extracted r ->
         (length (ex_frames r) <= 201)%nat
         /\ (ex_events r = [Alert MsgFrameCapReached]
             <-> length (ex_frames r) = 201%nat)
         /\ (ex_events r <> [Alert MsgFrameCapReached] ->
             ex_events r = []
             \/ ex_events r = [ConsoleError MsgExtractionError])
         /\ ((startTime <=? endTime)%js = false ->
             ex_frames r = [] /\ ex_events r = [])
         /\ ((startTime <=? endTime)%js = true ->
             isFinite startTime = true -> seek startTime = Seeked ->
             exists f rest,
               ex_frames r = f :: rest
               /\ timestamp f = startTime
               /\ originalDataUrl f = capture startTime)
         /\ (forall i f,
               ex_frames r !! i = Some f ->
               selected f = true /\ (timestamp f <=? endTime)%js = true)
         /\ ex_rejected r = negb (isFinite startTime).
Proof.
  destruct (extractFrames_returns seek capture randomUUID env
              startTime endTime fps) as (o & Ho & Hcap).
  exists o. split; [exact Ho|].
  destruct (extractFrames_cases _ _ _ _ _ Ho)
    as [(-> & Hg) | [(-> & Hv & Hc & Hx) | (Hv & Hc & Hx & Ho')]].
  { split; [tauto|]. split; [|split; [discriminate|intros r; discriminate]].
    split; [discriminate|]. intros (? & ? & _).
    destruct Hg; congruence. }
  { split; [split; [discriminate|intros [?|?]; congruence]|].
    split; [tauto|]. split; [discriminate|intros r; discriminate]. }
  split.
  { split; [intros ->; destruct Ho' as [? | [r ?]]; discriminate|].
    intros [?|?]; congruence. }
  split.
  { split; [intros ->; destruct Ho' as [? | [r ?]]; discriminate|].
    intros (_ & _ & ?); congruence. }
  split.
  { intros ->. destruct (extractFrames_awaiting _ _ _ _ Ho)
      as (n & Hn & _ & _ & Hs). eauto. }
  intros r ->. specialize (Hcap r eq_refl).
  pose proof (extractFrames_frames seek capture randomUUID _ _ _ _ _ Ho)
    as [Hfr Hend].
  cbv zeta in Hfr, Hend.
  split; [destruct Hcap as [[_ ->] | [_ ?]]; lia|].
  split.
  { destruct Hcap as [[-> ->] | [[-> | ->] Hl]]; split; auto;
      try discriminate; lia. }
  split.
  { destruct Hcap as [[-> _] | [H _]]; [intros H; congruence | auto]. }
  split.
  { intros Hle.
    assert (Hnil : ex_frames r = []).
    { destruct (ex_frames r) as [|f rest] eqn:Hf; [reflexivity|].
      destruct (Hfr 0%nat f eq_refl) as (Ht & Hte & _).
      cbn in Ht. rewrite Ht in Hte. congruence. }
    split; [exact Hnil|]. rewrite Hnil in Hend, Hcap. cbn in Hend.
    destruct Hend as [H | [[H _] | (_ & H & _)]];
      [|exact H|congruence].
    destruct Hcap as [[_ Hl] | [[H' | H'] _]]; [discriminate Hl| |]; congruence. }
  split.
  { intros Hle Hfin Hseek. destruct (ex_frames r) as [|f rest] eqn:Hf.
    - exfalso. cbn in Hend, Hcap.
      destruct Hend as [H | [[_ H] | (_ & _ & [H | H])]]; try congruence.
      destruct Hcap as [[_ Hl] | [[H' | H'] _]]; [discriminate Hl| |];
        congruence.
    - exists f, rest. split; [reflexivity|].
      destruct (Hfr 0%nat f eq_refl) as (Ht & _ & Hd & _).
      cbn in Ht. split; [exact Ht|]. rewrite Hd, Ht. reflexivity. }
  split.
  { intros i f Hi. destruct (Hfr i f Hi) as (_ & Hte & _ & Hs). auto. }
  destruct (extractFrames_loop _ _ _ _ _ _ _ _ Ho)
    as (_ & _ & _ & _ & _ & _ & Hrej).
  exact Hrej.
Qed.

(** X7. Frame [i] of an extraction carries the identifier of the
    [i]-th call of [crypto.randomUUID()]; when these calls never return
    the same identifier twice, no two frames share an identifier. *)
Theorem extractFrames_ids (env : CaptureEnv)
    (startTime endTime fps : JS.number) (r : Extraction) :
  (forall i j, randomUUID i = randomUUID j -> i = j) ->
  extractFrames seek capture randomUUID env startTime endTime fps
    = Some (Extracted r) ->
  (forall i f, ex_frames r !! i = Some f -> id f = randomUUID i)
  /\ NoDup (map id (ex_frames r)).
Proof.
  intros Hinj Hr.
  destruct (extractFrames_loop _ _ _ _ _ _ _ _ Hr)
    as (st' & exit & Hloop & _ & -> & _).
  apply extractLoop_frames in Hloop.
  2:{ split; [reflexivity|]. intros i f Hi. discriminate. }
  destruct Hloop as [[_ Hfr] _].
  assert (Hid : forall i f, extracted st' !! i = Some f -> id f = randomUUID i).
  { intros i f Hi. apply (Hfr i f Hi). }
  split; [exact Hid|].
  apply NoDup_alt. intros i j x Hi Hj.
  rewrite list_lookup_fmap in Hi, Hj.
  destruct (extracted st' !! i) as [fi|] eqn:Ei; [|discriminate].
  destruct (extracted st' !! j) as [fj|] eqn:Ej; [|discriminate].
  cbn in Hi, Hj. injection Hi as Hi. injection Hj as Hj.
  apply Hinj. rewrite <- (Hid i fi Ei), <- (Hid j fj Ej). congruence.
Qed.

End ExtractionOutcomes.

(** The sampling interval of a positive frame rate. *)
Lemma interval_NNV (fps : JS.number) :
  valid_binary 53 1024 fps = true -> (JS.ofZ 0 <? fps)%js = true ->
  NNV (JS.ofZ 1 / fps)%js.
Proof.
  intros Hv Hpos.
  destruct (positive_cases fps Hpos) as [-> | (m & e & ->)].
  - split; reflexivity.
  - assert (H1 : NNV (JS.ofZ 1)) by (split; reflexivity).
    destruct (SFdiv_cases (JS.ofZ 1) m e H1) as [[H _] | (_ & x & _ & HR)];
      [discriminate|].
    eapply ZRoundOf_NNV. exact HR.
Qed.

Lemma cursorAt_NNV (startTime interval : JS.number) (n : nat) :
  NNV startTime -> NNV interval ->
  NNV (cursorAt startTime interval n)
  /\ forall m, (m <= n)%nat ->
       (cursorAt startTime interval m <=? cursorAt startTime interval n)%js
       = true.
Proof.
  intros Hs Hi. induction n as [|n [IHv IHle]].
  - split; [exact Hs|]. intros m Hm. replace m with 0%nat by lia.
    cbn. apply SFleb_refl. destruct Hs as [Hn _].
    destruct startTime; try discriminate.
  - unfold cursorAt in *. rewrite Nat.iter_succ.
    destruct (add_NNV _ _ IHv Hi) as [Hv' Hle']. split; [exact Hv'|].
    intros m Hm. destruct (decide (m = S n)) as [-> | Hne].
    + rewrite Nat.iter_succ. apply SFleb_refl.
      destruct Hv' as [Hn _].
      destruct (Nat.iter n _ startTime + interval)%js; try discriminate.
    + eapply SFleb_trans; [| exact IHv | exact Hv' | apply IHle; lia | exact Hle'].
      clear - Hs Hi.
      induction m as [|m IH]; [exact Hs|].
      rewrite Nat.iter_succ. apply add_NNV; assumption.
Qed.

Section ChronologicalFacts.

Variable seek : JS.number -> Seek.
Variable capture : JS.number -> Image.
Variable randomUUID : nat -> string.

(** X8. For a start time that is not negative and a positive frame
    rate the frames come in chronological order: no frame has a time
    stamp below that of a frame before it. *)
Theorem extractFrames_chronological (env : CaptureEnv)
    (startTime endTime fps : JS.number)
    (r : Extraction) (i j : nat) (fi fj : Frame) :
  valid_binary 53 1024 startTime = true ->
  (JS.ofZ 0 <=? startTime)%js = true ->
  valid_binary 53 1024 fps = true ->
  (JS.ofZ 0 <? fps)%js = true ->
  extractFrames seek capture randomUUID env startTime endTime fps
    = Some (Extracted r) ->
  (i <= j)%nat ->
  ex_frames r !! i = Some fi -> ex_frames r !! j = Some fj ->
  (timestamp fi <=? timestamp fj)%js = true.
Proof.
  intros Hvs Hs Hvf Hf Hr Hij Hi Hj.
  pose proof (extractFrames_frames seek capture randomUUID _ _ _ _ _ Hr)
    as [Hfr _].
  cbv zeta in Hfr.
  destruct (Hfr i fi Hi) as (-> & _). destruct (Hfr j fj Hj) as (-> & _).
  assert (HS : NNV startTime) by (split; [apply nonneg_leb|]; assumption).
  pose proof (interval_NNV fps Hvf Hf) as HI.
  apply (cursorAt_NNV startTime _ j HS HI). exact Hij.
Qed.

End ChronologicalFacts.

Lemma leb_NNV_r (x y : spec_float) :
  NNV x -> valid_binary 53 1024 y = true -> SFleb x y = true -> NNV y.
Proof.
  intros [Hn _] Hv Hle. split; [|exact Hv].
  destruct x as [?|[]| |[] ? ?]; try discriminate;
    destruct y as [?|[]| |[] ? ?]; try discriminate; reflexivity.
Qed.

Section LongerRange.

Variable seek : JS.number -> Seek.
Variable capture : JS.number -> Image.
Variable randomUUID : nat -> string.

(** The frames of an extraction are the frames of its turns, every one
    of them at a finite cursor whose seek completed, and the number of
    frames tells where the loop stopped. *)
Lemma extractFrames_sampled (env : CaptureEnv)
    (startTime endTime fps : JS.number) (r : Extraction) :
  extractFrames seek capture randomUUID env startTime endTime fps
    = Some (Extracted r) ->
  let interval := (JS.ofZ 1 / fps)%js in
  let n := length (ex_frames r) in
  ex_frames r
  = map (sampledFrame capture randomUUID startTime interval) (seq 0 n)
  /\ (n <= 201)%nat
  /\ (forall i, (i < n)%nat ->
        (cursorAt startTime interval i <=? endTime)%js = true
        /\ isFinite (cursorAt startTime interval i) = true
        /\ seek (cursorAt startTime interval i) = Seeked)
  /\ (n = 201%nat
      \/ (cursorAt startTime interval n <=? endTime)%js = false
      \/ isFinite (cursorAt startTime interval n) = false
      \/ seek (cursorAt startTime interval n) = SeekThrows).
Proof.
  intros Hr. cbv zeta.
  destruct (extractFrames_loop _ _ _ _ _ _ _ _ Hr)
    as (st' & exit & Hloop & Hexit & E & _).
  rewrite E. clear E.
  destruct (extractLoop_returns seek capture randomUUID
              startTime endTime (JS.ofZ 1 / fps)%js
              (JS.max (JS.decimal 1 1) (endTime - startTime)%js) 201
              {| extracted := []; cursor := startTime;
                 progress := JS.ofZ 0; capAlert := false |})
    as (st0 & exit0 & Hloop0 & Hcap); [cbn; lia | reflexivity | cbn; lia |].
  rewrite Hloop in Hloop0. injection Hloop0 as <- <-.
  apply extractLoop_frames in Hloop.
  2:{ split; [reflexivity|]. intros i f Hi. discriminate. }
  destruct Hloop as [[Hcur Hfr] Hend].
  split; [|split; [|split]].
  - apply list_eq. intros i. rewrite list_lookup_fmap.
    destruct (extracted st' !! i) as [f|] eqn:Ef.
    + pose proof (lookup_lt_Some _ _ _ Ef) as Hi.
      rewrite lookup_seq_lt by exact Hi. cbn.
      destruct (Hfr i f Ef) as (Ht & _ & Hd & Hid & Hs & _).
      destruct f as [fid ft fd fs]. cbn in *. subst.
      unfold sampledFrame. reflexivity.
    + apply lookup_ge_None in Ef.
      rewrite lookup_seq_ge by exact Ef. reflexivity.
  - destruct Hcap as [(_ & -> & _) | [_ ?]]; lia.
  - intros i Hi. destruct (lookup_lt_is_Some_2 _ i Hi) as [f Ef].
    destruct (Hfr i f Ef) as (Ht & Hle & _ & _ & _ & Hfin & Hseek).
    rewrite <- Ht. auto.
  - rewrite <- Hcur.
    destruct Hcap as [(_ & Hl & _) | (Hc & _)]; [left; exact Hl|right].
    destruct exit; cbn in Hend.
    + destruct Hend as [H | H]; [congruence|auto].
    + destruct Hend as (_ & [H | H]); auto.
    + congruence.
Qed.

(** X21. Moving only the end of the range to a later time keeps the
    frames already sampled: for the same start and frame rate, the frames
    extracted up to the earlier end are the first frames, in order and
    with the same identifiers, times and images, of those extracted up
    to the later end. *)
Theorem extractFrames_longer_range (env1 env2 : CaptureEnv)
    (startTime end1 end2 fps : JS.number) (r1 r2 : Extraction) :
  valid_binary 53 1024 startTime = true ->
  (JS.ofZ 0 <=? startTime)%js = true ->
  valid_binary 53 1024 fps = true ->
  (JS.ofZ 0 <? fps)%js = true ->
  valid_binary 53 1024 end1 = true ->
  valid_binary 53 1024 end2 = true ->
  (end1 <=? end2)%js = true ->
  extractFrames seek capture randomUUID env1 startTime end1 fps
    = Some (Extracted r1) ->
  extractFrames seek capture randomUUID env2 startTime end2 fps
    = Some (Extracted r2) ->
  ex_frames r1 `prefix_of` ex_frames r2.
Proof.
  intros Hvs Hs Hvf Hf Hv1 Hv2 Hle H1 H2.
  destruct (extractFrames_sampled _ _ _ _ _ H1) as (E1 & B1 & In1 & _).
  destruct (extractFrames_sampled _ _ _ _ _ H2) as (E2 & B2 & _ & Stop2).
  cbv zeta in *.
  set (n1 := length (ex_frames r1)) in *.
  set (n2 := length (ex_frames r2)) in *.
  assert (HS : NNV startTime) by (split; [apply nonneg_leb|]; assumption).
  pose proof (interval_NNV fps Hvf Hf) as HI.
  assert (Hn : (n1 <= n2)%nat).
  { destruct (Nat.le_gt_cases n1 n2) as [|Hgt]; [assumption|exfalso].
    destruct (In1 n2 Hgt) as (Hc & Hfin & Hseek).
    destruct Stop2 as [E | [Hstop | [Hstop | Hstop]]]; [lia| | |]; try congruence.
    destruct (cursorAt_NNV startTime (JS.ofZ 1 / fps)%js n2 HS HI) as [Nc _].
    pose proof (leb_NNV_r _ _ Nc Hv1 Hc) as N1.
    pose proof (leb_NNV_r _ _ N1 Hv2 Hle) as N2.
    pose proof (SFleb_trans _ _ _ Nc N1 N2 Hc Hle) as Hc2.
    unfold JS.leb in Hstop. congruence. }
  rewrite E1, E2.
  exists (map (sampledFrame capture randomUUID startTime (JS.ofZ 1 / fps)%js)
            (seq n1 (n2 - n1))).
  rewrite <- map_app. f_equal.
  replace n2 with (n1 + (n2 - n1))%nat at 1 by lia.
  apply seq_app.
Qed.

End LongerRange.

(** ** The trim range *)

Lemma trimStep_ordered (t : TrimRange) (ev : TrimEvent) :
  (trimStart t <=? trimEnd t)%js = true ->
  (trimStart (trimStep t ev) <=? trimEnd (trimStep t ev))%js = true.
Proof.
  intros Ht. destruct ev as [val | val]; cbn [trimStep].
  - destruct (val <? trimEnd t)%js eqn:Hv; [|exact Ht].
    cbn [trimStart trimEnd]. apply SFltb_leb. exact Hv.
  - destruct (trimStart t <? val)%js eqn:Hv; [|exact Ht].
    cbn [trimStart trimEnd]. apply SFltb_leb. exact Hv.
Qed.

Section TrimFacts.

Variable seek : JS.number -> Seek.
Variable capture : JS.number -> Image.
Variable randomUUID : nat -> string.

(** X9. The two trim sliders keep the range ordered: from a range whose
    start is not after its end, whatever values the sliders are moved
    to and in whatever order, the start is still not after the end.
    An extraction over the resulting range that sets the frames then
    sets at least one, the first one captured at the start, provided
    the start is finite and the seek to it completes. *)
Theorem trim_then_extract (t : TrimRange) (evs : list TrimEvent)
    (env : CaptureEnv) (fps : JS.number) (r : Extraction) :
  (trimStart t <=? trimEnd t)%js = true ->
  let t' := fold_left trimStep evs t in
  (trimStart t' <=? trimEnd t')%js = true
  /\ (isFinite (trimStart t') = true ->
      seek (trimStart t') = Seeked ->
      extractFrames seek capture randomUUID env (trimStart t') (trimEnd t') fps
        = Some (Extracted r) ->
      exists f rest,
        ex_frames r = f :: rest
        /\ timestamp f = trimStart t'
        /\ originalDataUrl f = capture (trimStart t')).
Proof.
  intros Ht. cbv zeta.
  assert (Hord : (trimStart (fold_left trimStep evs t)
                  <=? trimEnd (fold_left trimStep evs t))%js = true).
  { revert t Ht. induction evs as [|ev evs IH]; intros t Ht; [exact Ht|].
    cbn [fold_left]. apply IH. apply trimStep_ordered. exact Ht. }
  split; [exact Hord|]. intros Hfin Hseek Hr.
  destruct (extractFrames_returns seek capture randomUUID env
              (trimStart (fold_left trimStep evs t))
              (trimEnd (fold_left trimStep evs t)) fps) as (o & Ho & Hcap).
  rewrite Hr in Ho. injection Ho as <-. specialize (Hcap r eq_refl).
  pose proof (extractFrames_frames seek capture randomUUID _ _ _ _ _ Hr)
    as [Hfr Hend].
  cbv zeta in Hfr, Hend.
  destruct (ex_frames r) as [|f rest] eqn:Hf.
  - exfalso. cbn in Hend, Hcap.
    destruct Hend as [H | [[_ H] | (_ & _ & [H | H])]]; try congruence.
    destruct Hcap as [[_ Hl] | [[H' | H'] _]]; [discriminate Hl| |];
      congruence.
  - exists f, rest. split; [reflexivity|].
    destruct (Hfr 0%nat f eq_refl) as (Ht0 & _ & Hd & _).
    cbn in Ht0. split; [exact Ht0|]. rewrite Hd, Ht0. reflexivity.
Qed.

End TrimFacts.

(** ** Editing the frame list *)

Lemma frameAt_Some (fs : list Frame) (i : Z) (f : Frame) :
  frameAt fs i = Some f <-> 0 <= i /\ fs !! Z.to_nat i = Some f.
Proof.
  unfold frameAt. destruct (Z.ltb_spec i 0); split.
  - discriminate.
  - intros [? _]. lia.
  - auto.
  - intros [_ ?]. assumption.
Qed.

(** Taking one element out of a list with [splice]. *)
Lemma splice_remove (A : Type) (l : list A) (i : Z) (x : A) :
  0 <= i -> l !! Z.to_nat i = Some x ->
  splice l i 1 [] = ([x], delete (Z.to_nat i) l).
Proof.
  intros Hi Hx. pose proof (lookup_lt_Some _ _ _ Hx) as Hlt.
  unfold splice, spliceStart. cbv zeta. destruct (Z.ltb_spec i 0); [lia|].
  rewrite (Nat.min_l (Z.to_nat i) (length l)) by lia.
  rewrite (Nat.min_l 1 (length l - Z.to_nat i)) by lia.
  rewrite (drop_S l x (Z.to_nat i) Hx). cbn [take app].
  rewrite delete_take_drop. rewrite Nat.add_1_r. reflexivity.
Qed.

(** Putting one element into a list with [splice]. *)
Lemma splice_insert (A : Type) (l : list A) (k : Z) (x : A) :
  0 <= k <= Z.of_nat (length l) ->
  splice l k 0 [x]
  = ([], take (Z.to_nat k) l ++ x :: drop (Z.to_nat k) l).
Proof.
  intros Hk. unfold splice, spliceStart. cbv zeta.
  destruct (Z.ltb_spec k 0); [lia|].
  rewrite (Nat.min_l (Z.to_nat k) (length l)) by lia. cbn [Nat.min take app].
  rewrite Nat.add_0_r. reflexivity.
Qed.

(** X10. Dragging the frame at index [dragged] and dropping it on the
    tile at index [dropIndex] moves it there: the dragged frame is at
    [dropIndex], the other frames keep their relative order, the new
    list is a permutation of the old one, and the drag is over.  When
    the dragged frame was the previewed one it still is; otherwise the
    preview index stays as it was. *)
Theorem handleDrop_moves (ui : UiState) (dragged dropIndex : Z) (item : Frame) :
  frameAt (frames (app ui)) dragged = Some item ->
  0 <= dropIndex < Z.of_nat (length (frames (app ui))) ->
  exists ui',
    handleDrop dropIndex (handleDragStart dragged ui) = Some ui'
    /\ frameAt (frames (app ui')) dropIndex = Some item
    /\ delete (Z.to_nat dropIndex) (frames (app ui'))
       = delete (Z.to_nat dragged) (frames (app ui))
    /\ frames (app ui') ≡ₚ frames (app ui)
    /\ draggedIdx ui' = None
    /\ (previewFrameIndex ui = dragged ->
        frameAt (frames (app ui')) (previewFrameIndex ui') = Some item)
    /\ (previewFrameIndex ui <> dragged ->
        previewFrameIndex ui' = previewFrameIndex ui).
Proof.
  intros Hitem Hk. apply frameAt_Some in Hitem as [Hd0 Hitem].
  set (fs := frames (app ui)) in *.
  set (rest := delete (Z.to_nat dragged) fs).
  assert (Hlen : length rest = (length fs - 1)%nat).
  { unfold rest. rewrite length_delete by eauto. reflexivity. }
  pose proof (lookup_lt_Some _ _ _ Hitem) as Hlt.
  assert (Htake : length (take (Z.to_nat dropIndex) rest) = Z.to_nat dropIndex)
    by (apply length_take_le; lia).
  unfold handleDrop, handleDragStart. cbn [draggedIdx app previewFrameIndex].
  fold fs.
  rewrite (splice_remove _ fs dragged item Hd0 Hitem). fold rest.
  rewrite (splice_insert _ rest dropIndex item) by lia.
  eexists. split; [reflexivity|].
  cbn [app previewFrameIndex draggedIdx setFrames frames].
  set (new := take (Z.to_nat dropIndex) rest ++ item :: drop (Z.to_nat dropIndex) rest).
  assert (Hnew : frameAt new dropIndex = Some item).
  { apply frameAt_Some. split; [lia|]. apply list_lookup_middle.
    symmetry. exact Htake. }
  split; [exact Hnew|]. split.
  { unfold new. rewrite <- Htake at 1. rewrite delete_middle.
    apply take_drop. }
  split.
  { unfold new. rewrite <- Permutation_middle, take_drop.
    symmetry. apply delete_Permutation. exact Hitem. }
  split; [reflexivity|]. split.
  - intros ->. rewrite Z.eqb_refl. exact Hnew.
  - intros Hne. destruct (Z.eqb_spec (previewFrameIndex ui) dragged); congruence.
Qed.

(** Frames with another identifier pass the filter of [removeFrame]. *)
Lemma filter_id_absent (id0 : string) (l : list Frame) :
  (forall g, g ∈ l -> id g <> id0) ->
  filter (fun f => negb (String.eqb (id f) id0) = true) l = l.
Proof.
  induction l as [|g l IH]; intros H; [reflexivity|].
  rewrite filter_cons. destruct (decide _) as [_|Hn].
  - f_equal. apply IH. intros g' Hg'. apply H. right. exact Hg'.
  - exfalso. apply Hn. apply negb_true_iff. apply String.eqb_neq.
    apply H. left.
Qed.

Lemma filter_id_present (l : list Frame) (i : nat) (f : Frame) :
  NoDup (map id l) -> l !! i = Some f ->
  filter (fun g => negb (String.eqb (id g) (id f)) = true) l = delete i l.
Proof.
  revert i. induction l as [|g l IH]; intros i Hnd Hi; [discriminate|].
  cbn [map] in Hnd. apply NoDup_cons in Hnd as [Hnotin Hnd].
  rewrite filter_cons. destruct i as [|i]; cbn in Hi.
  - injection Hi as ->. destruct (decide _) as [Hy|_].
    + apply negb_true_iff in Hy. rewrite String.eqb_refl in Hy. discriminate.
    + cbn [delete list_delete]. apply filter_id_absent.
      intros g Hg Heq. apply Hnotin. rewrite <- Heq.
      apply (list_elem_of_fmap_2 id). exact Hg.
  - destruct (decide _) as [_|Hn].
    + cbn [delete list_delete]. f_equal. apply IH; assumption.
    + exfalso. apply Hnotin.
      assert (Heq : id g = id f).
      { destruct (String.eqb_spec (id g) (id f)) as [E|E]; [exact E|].
        exfalso. apply Hn. reflexivity. }
      rewrite Heq. apply (list_elem_of_fmap_2 id).
      eapply list_elem_of_lookup_2. exact Hi.
Qed.

(** X11. With identifiers that are all different, [removeFrame]
    removes exactly the frame that has the given identifier and keeps
    the other frames in their order; an identifier that no frame has
    leaves the list as it is.  The settings are not touched. *)
Theorem removeFrame_removes (ui : UiState) (id0 : string) :
  NoDup (map id (frames (app ui))) ->
  let ui' := removeFrame id0 ui in
  (forall i f,
     frames (app ui) !! i = Some f -> id f = id0 ->
     frames (app ui') = delete i (frames (app ui)))
  /\ ((forall g, g ∈ frames (app ui) -> id g <> id0) ->
      frames (app ui') = frames (app ui))
  /\ chromaSettings (app ui') = chromaSettings (app ui)
  /\ sheetSettings (app ui') = sheetSettings (app ui).
Proof.
  intros Hnd. cbv zeta. unfold removeFrame.
  cbn [app setFrames frames chromaSettings sheetSettings].
  split; [|split; [|split; reflexivity]].
  - intros i f Hi <-. apply filter_id_present; assumption.
  - apply filter_id_absent.
Qed.

(** X12. [removeFrame] keeps the preview index on a frame: with
    identifiers all different and the preview index inside the list,
    after a removal either no frame is left or the preview index points
    at a frame of the new list. *)
Theorem removeFrame_preview_in_range (ui : UiState) (id0 : string) :
  NoDup (map id (frames (app ui))) ->
  0 <= previewFrameIndex ui < Z.of_nat (length (frames (app ui))) ->
  let ui' := removeFrame id0 ui in
  frames (app ui') = []
  \/ exists g, frameAt (frames (app ui')) (previewFrameIndex ui') = Some g.
Proof.
  intros Hnd Hp. cbv zeta.
  set (fs := frames (app ui)) in *.
  assert (Hlen : (length fs - 1 <= length (frames (app (removeFrame id0 ui))))%nat).
  { unfold removeFrame. cbn [app setFrames frames]. fold fs.
    destruct (@list_elem_of_dec string String.string_dec id0 (map id fs))
      as [Hin | Hout].
    - apply list_elem_of_fmap in Hin as (f & -> & Hf).
      apply list_elem_of_lookup_1 in Hf as [i Hi].
      rewrite (filter_id_present fs i f Hnd Hi).
      rewrite length_delete by eauto. lia.
    - rewrite filter_id_absent; [lia|].
      intros g Hg Heq. apply Hout. rewrite <- Heq.
      apply (list_elem_of_fmap_2 id). exact Hg. }
  destruct (frames (app (removeFrame id0 ui))) as [|g0 gs] eqn:Hfs;
    [left; reflexivity|right].
  cbn [length] in Hlen.
  assert (Hidx : 0 <= previewFrameIndex (removeFrame id0 ui)
                 < Z.of_nat (length (g0 :: gs))).
  { unfold removeFrame. cbn [previewFrameIndex]. fold fs. cbn [length].
    destruct (Z.leb_spec (Z.of_nat (length fs) - 1) (previewFrameIndex ui));
      lia. }
  destruct (lookup_lt_is_Some_2 (g0 :: gs)
              (Z.to_nat (previewFrameIndex (removeFrame id0 ui)))
              ltac:(lia)) as [g Hg].
  exists g. apply frameAt_Some. split; [lia|exact Hg].
Qed.

Lemma setSelected_twice (f : Frame) :
  setSelected (setSelected f (negb (selected f)))
    (negb (selected (setSelected f (negb (selected f))))) = f.
Proof. destruct f as [i t u s]. unfold setSelected. cbn. rewrite negb_involutive. reflexivity. Qed.

(** X13. A click on the tile of a frame flips [selected] of that frame
    and nothing else: its identifier, time stamp and image and all the
    other frames stay as they are, and a second click on the same tile
    gives the first state back. *)
Theorem toggleSelected_involution (ui : UiState) (idx : Z) (f : Frame) :
  frameAt (frames (app ui)) idx = Some f ->
  exists ui',
    toggleSelected idx ui = Some ui'
    /\ frameAt (frames (app ui')) idx
       = Some (setSelected f (negb (selected f)))
    /\ (forall j, j <> idx ->
        frameAt (frames (app ui')) j = frameAt (frames (app ui)) j)
    /\ length (frames (app ui')) = length (frames (app ui))
    /\ toggleSelected idx ui' = Some ui.
Proof.
  intros Hf. pose proof Hf as Hf'. apply frameAt_Some in Hf' as [H0 Hl].
  pose proof (lookup_lt_Some _ _ _ Hl) as Hlt.
  unfold toggleSelected at 1. rewrite Hf. eexists. split; [reflexivity|].
  cbn [app setFrames frames previewFrameIndex draggedIdx].
  assert (Hnew : frameAt (<[Z.to_nat idx:=setSelected f (negb (selected f))]>
                            (frames (app ui))) idx
                 = Some (setSelected f (negb (selected f)))).
  { apply frameAt_Some. split; [exact H0|].
    apply list_lookup_insert_eq. exact Hlt. }
  split; [exact Hnew|]. split; [|split].
  - intros j Hj. unfold frameAt. destruct (Z.ltb_spec j 0); [reflexivity|].
    apply list_lookup_insert_ne. lia.
  - apply length_insert.
  - unfold toggleSelected.
    cbn [app setFrames frames previewFrameIndex draggedIdx].
    rewrite Hnew. unfold setFrames.
    cbn [frames chromaSettings sheetSettings generatedSheetUrl
           showSheetPreview isGenerating].
    rewrite list_insert_insert_eq, setSelected_twice.
    rewrite (list_insert_id _ _ _ Hl).
    destruct ui as [[fs c s g p b] pfi di]. reflexivity.
Qed.

(** ** The contents and the geometry of the sheet *)

Section SheetContents.

Variable resample : Image -> Z -> Z -> list Z.

Local Abbreviation selectedOf st :=
  (filter (fun f : Frame => selected f = true) (frames st)).





(** X16. [isGenerating] is set when [generateSpriteSheet] has returned
    in two cases only: it was set before and the first guard returned
    at once, or frames are selected and the sheet canvas gives no 2D
    context.  In the second case the function has returned silently:
    nothing is reported and no sheet is generated. *)
Theorem generateSpriteSheet_generating_flag (env : Env) (st : AppState) :
  let r := generateSpriteSheet resample env st in
  (isGenerating (fst r) = true <->
   ((frames st = [] \/ sheetCanvasMounted env = false)
    /\ isGenerating st = true)
   \/ (frames st <> [] /\ sheetCanvasMounted env = true
       /\ selectedOf st <> [] /\ sheetContext env = false))
  /\ (frames st <> [] -> sheetCanvasMounted env = true ->
      selectedOf st <> [] -> sheetContext env = false ->
      r = (setGenerating st None (showSheetPreview st) true, [])).
Proof.
  cbv zeta. unfold generateSpriteSheet.
  destruct (frames st) as [|f fs] eqn:Hf; cbn [length Nat.eqb orb].
  - split; [|congruence]. cbn [fst]. split.
    + intros H. left. auto.
    + intros [[_ H] | [H _]]; [exact H | congruence].
  - rewrite <- Hf.
    destruct (sheetCanvasMounted env) eqn:Hm; cbn [negb].
    + destruct (selectedOf st) as [|first rest] eqn:Hsel.
      * split; [|congruence]. cbn [fst setGenerating isGenerating]. split.
        -- discriminate.
        -- intros [[[H | H] _] | (_ & _ & H & _)]; congruence.
      * destruct (sheetContext env) eqn:Hx; cbn [negb].
        -- split; [|congruence].
           destruct (offscreenContext env); cbn [negb fst setGenerating isGenerating];
             (split; [discriminate|]);
             intros [[[H | H] _] | (_ & _ & _ & H)]; congruence.
        -- split; [|reflexivity]. cbn [fst setGenerating isGenerating]. split.
           ++ intros _. right. repeat split; congruence.
           ++ reflexivity.
    + split; [|congruence]. cbn [fst]. split.
      * intros H. left. auto.
      * intros [[_ H] | (_ & H & _)]; congruence.
Qed.

End SheetContents.

(** The grid on integers: cells stay inside the sheet and apart. *)
Lemma grid_rows_cover (c n i : nat) :
  (1 <= c)%nat -> (i < n)%nat -> (i / c < gridRows c n)%nat.
Proof.
  intros Hc Hi. unfold gridRows.
  replace (n + c - 1)%nat with (n - 1 + 1 * c)%nat by lia.
  rewrite Nat.div_add by lia.
  assert (i / c <= (n - 1) / c)%nat by (apply Nat.Div0.div_le_mono; lia).
  lia.
Qed.

Lemma grid_cells_inside (c n i : nat) (w h p : Z) :
  (1 <= c)%nat -> (i < n)%nat -> 0 <= w -> 0 <= h -> 0 <= p ->
  0 <= cellX c w p i /\ cellX c w p i + w <= sheetWidth c w p
  /\ 0 <= cellY c h p i /\ cellY c h p i + h <= sheetHeight c n h p.
Proof.
  intros Hc Hi Hw Hh Hp. unfold cellX, cellY, sheetWidth, sheetHeight.
  pose proof (grid_rows_cover c n i Hc Hi) as Hrow.
  pose proof (Nat.mod_upper_bound i c ltac:(lia)) as Hcol.
  set (R := gridRows c n) in *. set (q := (i / c)%nat) in *.
  set (m := (i mod c)%nat) in *.
  repeat split; nia.
Qed.

Lemma grid_cells_apart (c i j : nat) (w h p : Z) :
  (1 <= c)%nat -> (i < j)%nat -> 0 <= w -> 0 <= h -> 0 <= p ->
  (cellY c h p i = cellY c h p j /\ cellX c w p i + w + p <= cellX c w p j)
  \/ cellY c h p i + h + p <= cellY c h p j.
Proof.
  intros Hc Hij Hw Hh Hp. unfold cellX, cellY.
  pose proof (Nat.div_mod_eq i c) as Ei. pose proof (Nat.div_mod_eq j c) as Ej.
  pose proof (Nat.mod_upper_bound i c ltac:(lia)) as Hi.
  pose proof (Nat.mod_upper_bound j c ltac:(lia)) as Hj.
  assert (Hq : (i / c <= j / c)%nat) by (apply Nat.Div0.div_le_mono; lia).
  set (qi := (i / c)%nat) in *. set (qj := (j / c)%nat) in *.
  set (mi := (i mod c)%nat) in *. set (mj := (j mod c)%nat) in *.
  destruct (decide (qi = qj)) as [E | N].
  - left. rewrite E. split; [reflexivity|].
    assert (mi < mj)%nat by nia. nia.
  - right. assert (qi + 1 <= qj)%nat by lia. nia.
Qed.

Section CellsFit.

Variable resample : Image -> Z -> Z -> list Z.

Local Abbreviation selectedOf st :=
  (filter (fun f : Frame => selected f = true) (frames st)).

(** X17. With at most 201 selected frames, between 1 and 50 columns, a
    padding that is not negative and integer cell dimensions (all of at
    most 2^40 pixels), the numbers computed for the sheet are the exact
    integers of the grid: the canvas has the width and height of the
    grid, cell [i] has its origin at column [i mod c] and row [i / c]
    and lies inside the canvas, and of two cells the later one is in the
    same row at least a cell width and a padding further right, or in a
    row at least a cell height and a padding lower: no two cells
    overlap. *)
Theorem generateSpriteSheet_cells_fit (env : Env) (st : AppState)
    (sheet : Sheet) (c : nat) (w h p : Z) :
  envReady env = true ->
  generatedSheetUrl (fst (generateSpriteSheet resample env st)) = Some sheet ->
  selectedOf st <> [] ->
  (length (selectedOf st) <= 201)%nat ->
  columns (sheetSettings st) = JS.ofNat c -> (1 <= c <= 50)%nat ->
  padding (sheetSettings st) = JS.ofZ p -> 0 <= p <= 2 ^ 40 ->
  targetW (sh_layout sheet) = JS.ofZ w -> 0 <= w <= 2 ^ 40 ->
  targetH (sh_layout sheet) = JS.ofZ h -> 0 <= h <= 2 ^ 40 ->
  let n := length (selectedOf st) in
  canvasWidth (sh_layout sheet) = JS.ofZ (sheetWidth c w p)
  /\ canvasHeight (sh_layout sheet) = JS.ofZ (sheetHeight c n h p)
  /\ (forall i d,
        sh_draws sheet !! i = Some d ->
        pl_x d = JS.ofZ (cellX c w p i)
        /\ pl_y d = JS.ofZ (cellY c h p i)
        /\ pl_width d = JS.ofZ w /\ pl_height d = JS.ofZ h
        /\ 0 <= cellX c w p i /\ cellX c w p i + w <= sheetWidth c w p
        /\ 0 <= cellY c h p i /\ cellY c h p i + h <= sheetHeight c n h p)
  /\ (forall i j,
        (i < j < n)%nat ->
        (cellY c h p i = cellY c h p j
         /\ cellX c w p i + w + p <= cellX c w p j)
        \/ cellY c h p i + h + p <= cellY c h p j).
Proof.
  intros Henv Hgen Hne Hn Hcols Hc Hpad Hp HtW Hw HtH Hh n.
  destruct (selectedOf st) as [|first rest] eqn:Hsel; [congruence|].
  rewrite (generateSpriteSheet_generates resample env st first rest Henv Hsel)
    in Hgen.
  cbv zeta in Hgen. cbn [fst generatedSheetUrl setGenerating] in Hgen.
  injection Hgen as <-. subst n. cbn [sh_layout sh_draws length] in *.
  set (n := S (length rest)) in *.
  set (W := img_width (originalDataUrl first)) in *.
  set (H := img_height (originalDataUrl first)) in *.
  set (lay := computeLayout (sheetSettings st) W H n) in *.
  assert (Hlc : cols lay = JS.ofNat c) by exact Hcols.
  assert (Hrows : rows lay = JS.ofNat (gridRows c n)).
  { unfold lay, computeLayout. cbn [rows]. rewrite Hcols.
    apply (grid_integer n c); [exact Hn|exact Hc]. }
  assert (Hpow : 2 ^ 40 * 201 < 2 ^ 53) by (vm_compute; reflexivity).
  assert (Hpow' : 2 ^ 40 < 2 ^ 53) by (vm_compute; reflexivity).
  assert (Hn1 : (1 <= n)%nat) by (unfold n; lia).
  assert (HR : (gridRows c n <= 201)%nat).
  { unfold gridRows. replace (n + c - 1)%nat with (n - 1 + 1 * c)%nat by lia.
    rewrite Nat.div_add by lia.
    set (m := (n - 1)%nat).
    assert (m / c <= m)%nat by (apply Nat.Div0.div_le_upper_bound; nia).
    lia. }
  assert (HR1 : (1 <= gridRows c n)%nat).
  { pose proof (grid_rows_cover c n 0 ltac:(lia) ltac:(lia)). lia. }
  split; [|split; [|split]].
  - change (canvasWidth lay)
      with (cols lay * targetW lay
            + (cols lay - JS.ofZ 1) * padding (sheetSettings st))%js.
    rewrite Hlc, HtW, Hpad. unfold JS.ofNat.
    rewrite mul_ofZ, sub_ofZ, mul_ofZ, add_ofZ by nia. reflexivity.
  - change (canvasHeight lay)
      with (rows lay * targetH lay
            + (rows lay - JS.ofZ 1) * padding (sheetSettings st))%js.
    rewrite Hrows, HtH, Hpad. unfold JS.ofNat.
    rewrite mul_ofZ, sub_ofZ, mul_ofZ, add_ofZ by nia. reflexivity.
  - intros i d Hd.
    change (placeFrame resample (chromaSettings st) (sheetSettings st) lay W H
              0 first
            :: packLoop resample (chromaSettings st) (sheetSettings st) lay W H
                 1 rest)
      with (packLoop resample (chromaSettings st) (sheetSettings st) lay W H
              0 (first :: rest)) in Hd.
    pose proof (lookup_lt_Some _ _ _ Hd) as Hi.
    rewrite packLoop_length in Hi. cbn [length] in Hi. fold n in Hi.
    destruct (lookup_lt_is_Some_2 (first :: rest) i Hi) as [frame Hf].
    rewrite (packLoop_lookup resample _ _ _ _ _ _ 0 i frame Hf) in Hd.
    injection Hd as <-. cbn [Nat.add].
    cbn [placeFrame pl_x pl_y pl_width pl_height pl_col pl_row].
    destruct (grid_integer i c ltac:(lia) Hc) as (Hrem & Hfloor & _).
    rewrite Hlc, HtW, HtH, Hpad, Hrem, Hfloor. unfold JS.ofNat.
    pose proof (Nat.mod_upper_bound i c ltac:(lia)) as Hm.
    assert (Hq : (i / c <= i)%nat) by (apply Nat.Div0.div_le_upper_bound; nia).
    rewrite !add_ofZ, !mul_ofZ by nia.
    split; [reflexivity|]. split; [reflexivity|].
    split; [reflexivity|]. split; [reflexivity|].
    apply grid_cells_inside; lia.
  - intros i j Hij. apply grid_cells_apart; lia.
Qed.

End CellsFit.



Section ScaleMode.

Variable resample : Image -> Z -> Z -> list Z.

Local Abbreviation selectedOf st :=
  (filter (fun f : Frame => selected f = true) (frames st)).


End ScaleMode.




Section SheetGeometry.

Variable resample : Image -> Z -> Z -> list Z.

Local Abbreviation selectedOf st :=
  (filter (fun f : Frame => selected f = true) (frames st)).



End SheetGeometry.


(** ** The layout fields *)

(** [parseInt] returns NaN, a zero or a non-zero integer. *)
Lemma parseInt_cases (s : string) :
  parseInt s = JS.NaN
  \/ (exists sign, parseInt s = S754_zero sign)
  \/ exists z, z <> 0 /\ parseInt s = JS.ofZ z.
Proof.
  unfold parseInt.
  destruct (match trimLeading s with
            | String "-"%char rest => (true, rest)
            | String "+"%char rest => (false, rest)
            | _ => (false, trimLeading s)
            end) as [negative unsigned].
  destruct (match unsigned with
            | String "0"%char (String "x"%char rest) => (16, isHexDigit, rest)
            | String "0"%char (String "X"%char rest) => (16, isHexDigit, rest)
            | _ => (10, isDecimalDigit, unsigned)
            end) as [[radix isDigit] digits].
  destruct (parseDigits radix isDigit digits None) as [z|]; [|left; reflexivity].
  right. destruct z as [|p|p].
  - left. eauto.
  - right. exists (if negative then - Zpos p else Zpos p).
    split; [destruct negative; lia|reflexivity].
  - right. exists (if negative then - Zneg p else Zneg p).
    split; [destruct negative; lia|reflexivity].
Qed.

(** What the clamp [Math.max(lo, parseInt(value))] stores. *)
Lemma clamp_cases (lo : Z) (s : string) :
  0 <= lo ->
  (parseInt s = JS.NaN /\ JS.max (JS.ofZ lo) (parseInt s) = JS.NaN)
  \/ exists z, lo <= z /\ JS.max (JS.ofZ lo) (parseInt s) = JS.ofZ z.
Proof.
  intros Hlo.
  destruct (parseInt_cases s) as [-> | [[sign ->] | (z & Hz & ->)]].
  - left. split; [reflexivity|].
    destruct (ofZ_nonneg_shape lo Hlo) as [-> | [-> | (m & e & ->)]];
      reflexivity.
  - right. exists lo. split; [lia|].
    destruct (ofZ_nonneg_shape lo Hlo) as [E | [E | (m & e & E)]];
      rewrite E; destruct sign; reflexivity.
  - right. apply max_ofZ. exact Hlo.
Qed.

(** *** Integers as numbers *)

Lemma finite_whole (s : bool) (m : positive) (e : Z) :
  0 <= e -> wholeNumber (S754_finite s m e).
Proof.
  intros He. split; [reflexivity|].
  exists (cond_Zopp s (Zpos m) * 2 ^ e). cbn [value].
  symmetry. apply pow2_inject. exact He.
Qed.

(** A positive integer is stored as Infinity or as an integer. *)
Lemma ofZ_whole (z : Z) :
  0 <= z -> JS.ofZ z = JS.Infinity \/ wholeNumber (JS.ofZ z).
Proof.
  intros Hz. destruct (Z.eq_dec z 0) as [-> | Hz0].
  { right. split; [reflexivity|]. exists 0. reflexivity. }
  destruct (Z.lt_ge_cases z (2 ^ 53)) as [Hsmall | Hbig].
  - right. destruct (ofZ_exact z ltac:(lia)) as (m & e & E & Hv & Hval).
    rewrite E. split; [reflexivity|]. exists z. exact Hval.
  - pose proof (ofZ_RoundOf z Hz) as HR.
    pose proof (RoundOf_valid _ _ HR) as Hv.
    destruct (RoundOf_shape _ _ HR) as [E | [E | (m & e & E)]].
    + right. rewrite E. split; [reflexivity|]. exists 0. reflexivity.
    + left. exact E.
    + right. rewrite E in *. apply finite_whole.
      destruct (Z.lt_ge_cases e 0) as [Hneg|]; [exfalso|assumption].
      pose proof (valid_finite _ _ _ Hv) as (_ & Hm & _ & _).
      assert (Hle : SFleb (JS.ofZ (2 ^ 53)) (S754_finite false m e) = true).
      { eapply RoundOf_le; [apply ofZ_RoundOf; lia|exact HR|].
        apply inject_Z_le. exact Hbig. }
      apply SFleb_value in Hle; [|apply ofZ_valid|exact Hv|reflexivity
                                 |reflexivity].
      assert (E53 : (value (JS.ofZ (2 ^ 53)) == inject_Z (2 ^ 53))%Q)
        by (vm_compute; reflexivity).
      rewrite E53 in Hle. cbn [value cond_Zopp] in Hle.
      assert (Hp : (pow2 e <= 1)%Q).
      { change 1%Q with (pow2 0). apply pow2_le. lia. }
      apply inject_Z_lt in Hm.
      pose proof (pow2_pos e) as Hpos.
      assert (Hmpos : (0 < inject_Z (Zpos m))%Q) by reflexivity.
      set (mq := inject_Z (Zpos m)) in *. set (P := pow2 e) in *.
      set (B := inject_Z (2 ^ 53)) in *. clearbody mq P B. nra.
Qed.

Lemma withSign_whole (s : bool) (x : spec_float) :
  wholeNumber x -> wholeNumber (withSign s x).
Proof.
  intros [Hf [z Hz]]. destruct x as [s0|s0| |s0 m e]; try discriminate.
  - split; [reflexivity|]. exists 0. reflexivity.
  - split; [reflexivity|].
    destruct s0, s; cbn [withSign value] in *.
    + exists z. exact Hz.
    + exists (- z). rewrite value_neg in Hz. cbn [cond_Zopp].
      rewrite inject_Z_opp. lra.
    + exists (- z). rewrite value_neg. cbn [cond_Zopp] in Hz.
      rewrite inject_Z_opp. lra.
    + exists z. exact Hz.
Qed.

(** An integer is stored as an infinity or as an integer. *)
Lemma ofZ_whole_signed (z : Z) :
  JS.ofZ z = JS.Infinity \/ JS.ofZ z = S754_infinity true
  \/ wholeNumber (JS.ofZ z).
Proof.
  destruct z as [|p|p].
  - right. right. split; [reflexivity|]. exists 0. reflexivity.
  - destruct (ofZ_whole (Zpos p) ltac:(lia)) as [H | H]; auto.
  - unfold JS.ofZ. cbn [binary_normalize].
    change JS.prec with 53. change JS.emax with 1024.
    rewrite binary_round_sign.
    destruct (ofZ_whole (Zpos p) ltac:(lia)) as [H | H];
      unfold JS.ofZ in H; cbn [binary_normalize] in H;
      change JS.prec with 53 in H; change JS.emax with 1024 in H.
    + right. left. rewrite H. reflexivity.
    + right. right. apply withSign_whole. exact H.
Qed.

(** A finite number stored for an integer of at least [lo] is at least
    [lo]. *)
Lemma ofZ_value_ge (lo z : Z) :
  0 <= lo < 2 ^ 53 -> lo <= z -> isFinite (JS.ofZ z) = true ->
  (inject_Z lo <= value (JS.ofZ z))%Q.
Proof.
  intros Hlo Hz Hfin.
  assert (Hle : SFleb (JS.ofZ lo) (JS.ofZ z) = true).
  { eapply RoundOf_le; [apply ofZ_RoundOf; lia|apply ofZ_RoundOf; lia|].
    apply inject_Z_le. exact Hz. }
  destruct (Z.eq_dec lo 0) as [-> | Hne].
  - apply SFleb_value in Hle; try apply ofZ_valid; auto.
  - destruct (ofZ_exact lo ltac:(lia)) as (m & e & E & Hv & Hval).
    apply SFleb_value in Hle; try apply ofZ_valid; auto.
    + rewrite E in Hle. cbn [value cond_Zopp] in Hle. rewrite <- Hval.
      exact Hle.
    + rewrite E. reflexivity.
Qed.

(** X18. What the layout fields store, whatever is typed.  When
    [parseInt] finds no number in the text, the column and the padding
    field store NaN and the width and height fields store 0.  When it
    finds one, the column field stores an integer of at least 1 and the
    padding field an integer of at least 0, or Infinity, which is what a
    number of more than 308 digits is read as.  The width and height
    fields always store an integer or an infinity. *)
Theorem layout_fields_store (text : string) (s : SheetSettings) :
  let c := columns (onColumnsChange text s) in
  let p := padding (onPaddingChange text s) in
  let w := customWidth (onCustomWidthChange text s) in
  let h := customHeight (onCustomHeightChange text s) in
  (parseInt text = JS.NaN ->
   c = JS.NaN /\ p = JS.NaN /\ w = JS.ofZ 0 /\ h = JS.ofZ 0)
  /\ (parseInt text <> JS.NaN ->
      (c = JS.Infinity \/ (wholeNumber c /\ (1 <= value c)%Q))
      /\ (p = JS.Infinity \/ (wholeNumber p /\ (0 <= value p)%Q)))
  /\ (w = JS.Infinity \/ w = S754_infinity true \/ wholeNumber w)
  /\ (h = JS.Infinity \/ h = S754_infinity true \/ wholeNumber h).
Proof.
  cbv zeta.
  cbn [onColumnsChange onPaddingChange onCustomWidthChange
         onCustomHeightChange columns padding customWidth customHeight].
  split; [intros ->; repeat split; reflexivity|].
  assert (Hclamp : forall lo, 0 <= lo < 2 ^ 53 ->
            parseInt text <> JS.NaN ->
            JS.max (JS.ofZ lo) (parseInt text) = JS.Infinity
            \/ (wholeNumber (JS.max (JS.ofZ lo) (parseInt text))
                /\ (inject_Z lo
                    <= value (JS.max (JS.ofZ lo) (parseInt text)))%Q)).
  { intros lo Hlo Hn.
    destruct (clamp_cases lo text ltac:(lia)) as [[H _] | (z & Hz & ->)];
      [contradiction|].
    destruct (ofZ_whole z ltac:(lia)) as [H | H]; [left; exact H|right].
    split; [exact H|]. apply ofZ_value_ge; [lia|lia|apply H]. }
  split.
  { intros Hn. split.
    - exact (Hclamp 1 ltac:(lia) Hn).
    - exact (Hclamp 0 ltac:(lia) Hn). }
  assert (H : orZero (parseInt text) = JS.Infinity
              \/ orZero (parseInt text) = S754_infinity true
              \/ wholeNumber (orZero (parseInt text))).
  { destruct (parseInt_cases text) as [-> | [[sign ->] | (z & Hz & ->)]].
    - right. right. split; [reflexivity|]. exists 0. reflexivity.
    - right. right. split; [reflexivity|]. exists 0. reflexivity.
    - destruct (ofZ_whole_signed z) as [E | [E | E]].
      + left. rewrite E. reflexivity.
      + right. left. rewrite E. reflexivity.
      + right. right. destruct (JS.ofZ z) as [sz|sz| |sz m e] eqn:Ez.
        * split; [reflexivity|]. exists 0. reflexivity.
        * destruct E as [E _]. discriminate.
        * destruct E as [E _]. discriminate.
        * exact E. }
  split; exact H.
Qed.

Section EmptyColumns.

Variable resample : Image -> Z -> Z -> list Z.

Local Abbreviation selectedOf st :=
  (filter (fun f : Frame => selected f = true) (frames st)).


End EmptyColumns.

(** ** The properties at sample inputs *)

Lemma processFrame_pixel_cases_witness :
  keyedData noResample sampleImage defaultChroma 3 1 !! 7%nat = Some 114
  /\ pixelAt (processFrame noResample sampleImage defaultChroma 3 1) 1
       0 141 0 114.
Proof.
  assert (Hpx : pixelAt (drawImage noResample sampleImage 3 1) 1 0 140 0 255)
    by (repeat split; reflexivity).
  pose proof (processFrame_pixel_cases noResample sampleImage defaultChroma
                3 1 1 0 140 0 255 0 255 0 eq_refl eq_refl Hpx) as H.
  cbv zeta in H. destruct H as (_ & _ & _ & _ & H & _).
  exact (H eq_refl eq_refl).
Defined.

(** C3 as stated fails twice.  The alpha of the smoothing band is not
    [floor(255 x (dist - threshold) / smoothRange)]: with a similarity
    of 0.10 and a smoothness of 0.51 a pixel at distance 85 is given 203
    where the formula gives 204 on numbers, and with a similarity of 0
    and a smoothness of 0.05 a pixel at distance 1 is given 51 where
    the formula without rounding gives 50.  And the canvas does not keep
    the colour of a pixel whose alpha is lowered: the key colour itself
    is left as (0, 0, 0, 0) and the pixel (0, 140, 0) as
    (0, 141, 0, 114). *)
Lemma processFrame_alpha_not_spec_formula :
  (let dist := colourDistance (hexToRgb (color rampChroma))
                 (JS.ofZ 0) (JS.ofZ 170) (JS.ofZ 0) in
   let threshold := (similarity rampChroma * JS.ofZ 442)%js in
   let smoothRange := (smoothness rampChroma * JS.ofZ 100)%js in
   dist = JS.ofZ 85
   /\ (dist <? threshold)%js = false
   /\ (dist <? threshold + smoothRange)%js = true
   /\ processFrame noResample rampImage rampChroma 1 1 = [0; 170; 0; 203]
   /\ specSmoothAlpha dist threshold smoothRange = 204)
  /\ (let dist := colourDistance (hexToRgb (color narrowChroma))
                    (JS.ofZ 0) (JS.ofZ 254) (JS.ofZ 0) in
      let threshold := (similarity narrowChroma * JS.ofZ 442)%js in
      let smoothRange := (smoothness narrowChroma * JS.ofZ 100)%js in
      dist = JS.ofZ 1
      /\ (dist <? threshold)%js = false
      /\ (dist <? threshold + smoothRange)%js = true
      /\ processFrame noResample narrowImage narrowChroma 1 1 !! 3%nat
         = Some 51
      /\ specSmoothAlphaExact 1 (value (similarity narrowChroma) * 442)
           (value (smoothness narrowChroma) * 100) = 50)
  /\ processFrame noResample sampleImage defaultChroma 3 1
     = [0; 0; 0; 0;  0; 141; 0; 114;  128; 128; 128; 255].
Proof.
  split; [|split]; cbv zeta; repeat split; vm_compute; reflexivity.
Qed.

Lemma processFrame_zero_smoothRange_witness :
  processFrame noResample sampleImage hardCutChroma 3 1 !! 7%nat = Some 255.
Proof.
  assert (Hpx : pixelAt (drawImage noResample sampleImage 3 1) 1 0 140 0 255)
    by (repeat split; reflexivity).
  pose proof (processFrame_zero_smoothRange noResample sampleImage
                hardCutChroma 3 1 1 0 140 0 255 eq_refl eq_refl Hpx) as H.
  cbv zeta in H. destruct H as (_ & H). exact H.
Defined.

Lemma chroma_disabled_copy_witness :
  enabled disabledChroma = false
  /\ Nat.iter 3 (applyChroma noResample disabledChroma) sampleImage
     = sampleImage.
Proof.
  split; [reflexivity|].
  destruct (chroma_disabled_copy noResample disabledChroma
              (sampleFrame true 0) 2 eq_refl)
    as (_ & _ & _ & _ & _ & Hop & Hit & _).
  cbv zeta in Hop, Hit.
  change (originalDataUrl (sampleFrame true 0)) with sampleImage in Hop, Hit.
  rewrite Hit. apply Hop. reflexivity.
Defined.

(** C9 as stated fails: a pixel that is not opaque does not come back
    byte for byte.  The half-transparent pixel (200, 100, 50, 128) is
    stored as (100, 50, 25) times alpha and read back as
    (199, 100, 50, 128). *)
Lemma chroma_disabled_changes_translucent :
  enabled disabledChroma = false
  /\ img_data (previewFrame noResample translucentFrame disabledChroma)
     = [199; 100; 50; 128]
  /\ img_data (previewFrame noResample translucentFrame disabledChroma)
     <> img_data (originalDataUrl translucentFrame).
Proof.
  split; [reflexivity|]. split; [reflexivity|]. discriminate.
Qed.





(** C6 as stated fails: with no frame at all the selection is empty, the
    report is the console message of the first guard and not the alert,
    and the sheet generated earlier is still set. *)
Lemma generateSpriteSheet_no_frames_keeps_sheet :
  filter (fun f : Frame => selected f = true) (frames noFramesState) = []
  /\ snd (generateSpriteSheet noResample readyEnv noFramesState)
     = [ConsoleError MsgNoFramesOrCanvas]
  /\ snd (generateSpriteSheet noResample readyEnv noFramesState)
     <> [Alert MsgNoFrameSelected]
  /\ generatedSheetUrl (fst (generateSpriteSheet noResample readyEnv noFramesState))
     = Some earlierSheet
  /\ generatedSheetUrl (fst (generateSpriteSheet noResample readyEnv noFramesState))
     <> None.
Proof. repeat split; try reflexivity; discriminate. Qed.

Lemma generateSpriteSheet_nothing_selected_witness :
  generateSpriteSheet noResample readyEnv noneSelectedState
  = (setGenerating noneSelectedState None false false,
     [Alert MsgNoFrameSelected]).
Proof.
  apply (generateSpriteSheet_nothing_selected noResample readyEnv
           noneSelectedState eq_refl eq_refl).
  discriminate.
Defined.

Lemma processFrame_alpha_monotone_witness :
  exists o1 o2,
    processFrame noResample bandImage defaultChroma 2 1 !! 3%nat = Some o1
    /\ processFrame noResample bandImage defaultChroma 2 1 !! 7%nat = Some o2
    /\ o1 <= o2.
Proof.
  assert (Hp1 : pixelAt (drawImage noResample bandImage 2 1) 0 0 140 0 255)
    by (repeat split; reflexivity).
  assert (Hp2 : pixelAt (drawImage noResample bandImage 2 1) 1 0 139 0 255)
    by (repeat split; reflexivity).
  apply (processFrame_alpha_monotone noResample defaultChroma
           bandImage bandImage 2 1 2 1 0 1 0 140 0 255 0 139 0 255
           eq_refl eq_refl Hp1 Hp2); reflexivity.
Defined.

Lemma sampleUUID_length (n : nat) : String.length (sampleUUID n) = n.
Proof. induction n as [|n IH]; cbn; [|rewrite IH]; reflexivity. Qed.

Lemma sampleUUID_injective (i j : nat) : sampleUUID i = sampleUUID j -> i = j.
Proof.
  intros H. rewrite <- (sampleUUID_length i), <- (sampleUUID_length j), H.
  reflexivity.
Qed.

Lemma sampleUi_ids : NoDup (map id (frames (app sampleUi))).
Proof.
  cbn. repeat (apply NoDup_cons_2; [rewrite ?elem_of_cons, elem_of_nil;
                                     intuition discriminate|]).
  apply NoDup_nil_2.
Qed.

Lemma handleCanvasClick_key_colour_witness :
  hexToRgb (color (chromaSettings
                     (app (handleCanvasClick readSecondPixel (Some (3, 1)) true
                             sampleClick sampleUi))))
  = (0, 140, 0).
Proof.
  apply (handleCanvasClick_key_colour readSecondPixel 3 1 sampleClick sampleUi
           (sampleFrame true 1) 0 140 0 255);
    [reflexivity | reflexivity | lia | lia | lia].
Defined.

Lemma handleCanvasClick_then_processFrame_witness :
  processFrame noResample bandImage
    (chromaSettings
       (app (handleCanvasClick readSecondPixel (Some (3, 1)) true
               sampleClick sampleUi)))
    2 1 !! 3%nat
  = Some 0.
Proof.
  apply (handleCanvasClick_then_processFrame readSecondPixel noResample 3 1
           sampleClick sampleUi (sampleFrame true 1) 0 140 0 255
           bandImage 2 1 0 255);
    [reflexivity | reflexivity | lia | lia | lia
     | reflexivity | reflexivity | reflexivity
     | repeat split; reflexivity].
Defined.

Lemma extractFrames_ids_witness :
  exists r,
    extractFrames everySeeked sampleCapture sampleUUID readyPage
      (JS.ofZ 0) (JS.decimal 3 1) (JS.ofZ 10)
    = Some (Extracted r)
    /\ NoDup (map id (ex_frames r)).
Proof.
  eexists. split; [vm_compute; reflexivity|].
  apply (extractFrames_ids everySeeked sampleCapture sampleUUID readyPage
           (JS.ofZ 0) (JS.decimal 3 1) (JS.ofZ 10) _ sampleUUID_injective).
  vm_compute. reflexivity.
Defined.

Lemma extractFrames_chronological_witness :
  exists r f0 f2,
    extractFrames everySeeked sampleCapture sampleUUID readyPage
      (JS.ofZ 0) (JS.decimal 3 1) (JS.ofZ 10)
    = Some (Extracted r)
    /\ ex_frames r !! 0%nat = Some f0
    /\ ex_frames r !! 2%nat = Some f2
    /\ (timestamp f0 <=? timestamp f2)%js = true.
Proof.
  do 3 eexists. split; [vm_compute; reflexivity|].
  match goal with
  | |- ex_frames ?r !! 0%nat = _ /\ _ =>
      split; [reflexivity|]; split; [reflexivity|];
      apply (extractFrames_chronological everySeeked sampleCapture sampleUUID
               readyPage (JS.ofZ 0) (JS.decimal 3 1) (JS.ofZ 10) r 0 2);
      [reflexivity | reflexivity | reflexivity | reflexivity
       | vm_compute; reflexivity | lia | reflexivity | reflexivity]
  end.
Defined.

Lemma handleDrop_moves_witness :
  exists ui',
    handleDrop 2 (handleDragStart 0 sampleUi) = Some ui'
    /\ frames (app ui')
       = [sampleFrame true 1; sampleFrame true 2; sampleFrame true 0]
    /\ frameAt (frames (app ui')) 2 = Some (sampleFrame true 0)
    /\ draggedIdx ui' = None.
Proof.
  destruct (handleDrop_moves sampleUi 0 2 (sampleFrame true 0))
    as (ui' & Hdrop & Hat & _ & _ & Hidx & _);
    [reflexivity | cbn; lia |].
  exists ui'. split; [exact Hdrop|].
  split; [|split; [exact Hat|exact Hidx]].
  cbn in Hdrop. injection Hdrop as <-. reflexivity.
Defined.

Lemma removeFrame_removes_witness :
  frames (app (removeFrame "B" sampleUi))
  = [sampleFrame true 0; sampleFrame true 2].
Proof.
  apply (proj1 (removeFrame_removes sampleUi "B" sampleUi_ids)
           1%nat (sampleFrame true 1));
    reflexivity.
Defined.

Lemma removeFrame_preview_in_range_witness :
  frames (app (removeFrame "C" sampleUi)) = []
  \/ exists g,
       frameAt (frames (app (removeFrame "C" sampleUi)))
         (previewFrameIndex (removeFrame "C" sampleUi)) = Some g.
Proof.
  apply (removeFrame_preview_in_range sampleUi "C" sampleUi_ids).
  cbn. lia.
Defined.

Lemma toggleSelected_involution_witness :
  exists ui',
    toggleSelected 1 sampleUi = Some ui'
    /\ frameAt (frames (app ui')) 1 = Some (sampleFrame false 1)
    /\ toggleSelected 1 ui' = Some sampleUi.
Proof.
  destruct (toggleSelected_involution sampleUi 1 (sampleFrame true 1))
    as (ui' & H1 & H2 & _ & _ & H3); [reflexivity|].
  exists ui'. split; [exact H1|]. split; [exact H2|exact H3].
Defined.

Lemma generateSpriteSheet_cells_fit_witness :
  canvasWidth (sh_layout scenarioResult) = JS.ofZ 508
  /\ canvasHeight (sh_layout scenarioResult) = JS.ofZ 202
  /\ forall i d,
       sh_draws scenarioResult !! i = Some d ->
       0 <= cellX 5 100 2 i /\ cellX 5 100 2 i + 100 <= 508
       /\ 0 <= cellY 5 100 2 i /\ cellY 5 100 2 i + 100 <= 202.
Proof.
  destruct (generateSpriteSheet_cells_fit noResample readyEnv scenarioState
              scenarioResult 5 100 100 2)
    as (Hw & Hh & Hin & _);
    [reflexivity | reflexivity | discriminate | vm_compute; lia | reflexivity | lia
     | reflexivity | vm_compute; split; discriminate
     | reflexivity | vm_compute; split; discriminate
     | reflexivity | vm_compute; split; discriminate |].
  split; [exact Hw|]. split; [exact Hh|].
  intros i d Hd. destruct (Hin i d Hd) as (_ & _ & _ & _ & H). exact H.
Defined.


Lemma applyChroma_idempotent_witness :
  applyChroma noResample hardCutChroma
    (applyChroma noResample hardCutChroma sampleImage)
  = applyChroma noResample hardCutChroma sampleImage.
Proof.
  apply (applyChroma_idempotent noResample hardCutChroma sampleImage).
  intros _. split; reflexivity.
Defined.


Lemma trim_then_extract_witness :
  let t' := fold_left trimStep
              [EndSlider (JS.decimal 3 1); StartSlider (JS.ofZ 7);
               StartSlider (JS.decimal 1 1)]
              sampleTrim in
  trimStart t' = JS.decimal 1 1 /\ trimEnd t' = JS.decimal 3 1
  /\ exists r f rest,
       extractFrames everySeeked sampleCapture sampleUUID readyPage
         (trimStart t') (trimEnd t') (JS.ofZ 10) = Some (Extracted r)
       /\ ex_frames r = f :: rest
       /\ timestamp f = trimStart t'.
Proof.
  cbv zeta. split; [vm_compute; reflexivity|].
  split; [vm_compute; reflexivity|].
  eexists.
  match goal with
  | |- exists f rest, ?E = Some (Extracted ?r) /\ _ =>
      assert (Hr : E = Some (Extracted r)) by (vm_compute; reflexivity);
      destruct (trim_then_extract everySeeked sampleCapture sampleUUID
                  sampleTrim
                  [EndSlider (JS.decimal 3 1); StartSlider (JS.ofZ 7);
                   StartSlider (JS.decimal 1 1)]
                  readyPage (JS.ofZ 10) r eq_refl)
        as [_ H];
      destruct (H eq_refl eq_refl Hr) as (f & rest & Hf & Ht & _);
      exists f, rest; split; [exact Hr|]; split; [exact Hf|exact Ht]
  end.
Defined.

Lemma processFrame_zero_settings_witness :
  processFrame noResample sampleImage zeroChroma 3 1 = img_data sampleImage.
Proof.
  apply (processFrame_zero_settings noResample sampleImage zeroChroma 3 1);
    reflexivity.
Defined.

Lemma processFrame_similarity_monotone_witness :
  processFrame noResample sampleImage defaultChroma 3 1 !! 3%nat = Some 0
  /\ processFrame noResample sampleImage widerChroma 3 1 !! 3%nat = Some 0.
Proof.
  apply (processFrame_similarity_monotone noResample sampleImage
           defaultChroma widerChroma 3 1 0 0 255 0 255);
    try reflexivity.
  repeat split; reflexivity.
Defined.



Lemma extractFrames_longer_range_witness :
  exists r1 r2,
    extractFrames everySeeked sampleCapture sampleUUID readyPage
      (JS.ofZ 0) (JS.decimal 3 1) (JS.ofZ 10) = Some (Extracted r1)
    /\ extractFrames everySeeked sampleCapture sampleUUID readyPage
         (JS.ofZ 0) (JS.ofZ 1) (JS.ofZ 10) = Some (Extracted r2)
    /\ ex_frames r1 `prefix_of` ex_frames r2.
Proof.
  do 2 eexists. split; [vm_compute; reflexivity|].
  split; [vm_compute; reflexivity|].
  apply (extractFrames_longer_range everySeeked sampleCapture sampleUUID
           readyPage readyPage
           (JS.ofZ 0) (JS.decimal 3 1) (JS.ofZ 1) (JS.ofZ 10));
    vm_compute; reflexivity.
Defined.
